(** * HLP pattern compiler, pipeline executor and decoder asset builder

    A shallow embedding of

    - [engine/source/hlp/src/logQLParser.cpp]  (tokenizer, expression parser),
    - [engine/source/hlp/src/hlp.cpp]          (parser compiler, executor),
    - [engine/source/builder/builders/assetBuilderDecoder.cpp],
    - [shared_modules/rsync/src/messageController.hpp]

    followed by the properties of the specification that concern them.

    Conventions.  C++ functions that take an object by non-const reference
    return the updated object next to their result.  Exceptions, reads
    outside a buffer and loops are made explicit by the [Outcome] monad. *)

From Stdlib Require Import Ascii.
From stdpp Require Import base decidable option list strings gmap.

Local Open Scope stdpp_scope.
#[local] Set Warnings "-register-all".

(* ===================================================================== *)
(** * Part I: the program                                                  *)
(* ===================================================================== *)

(** ** Characters and C strings *)

Definition NUL : ascii := "000"%char.
Definition dquote : ascii := "034"%char.
Definition newline : ascii := "010"%char.

(** The characters of [s] up to its first NUL: what [std::string(p)] or any
    other reader of a [const char *] sees. *)
Fixpoint c_str (s : string) : string :=
  match s with
  | "" => ""
  | String c s' => if decide (c = NUL) then "" else String c (c_str s')
  end.

(** [s[0]] for a [std::string] or a pointer inside a NUL-terminated buffer:
    the terminator is read at the end. *)
Definition front (s : string) : ascii :=
  match s with
  | "" => NUL
  | String c _ => c
  end.

(** ** Exceptions and outcomes *)

Inductive ExnKind := InvalidArgument | RuntimeError | BadVariantAccess | LogicError.

(** An exception object: [MkExn k msg] is [throw k(msg)];
    [WithNested k msg e] is [std::throw_with_nested(k(msg))] issued while
    [e] is being handled. *)
Inductive Exn :=
  | MkExn (k : ExnKind) (msg : string)
  | WithNested (k : ExnKind) (msg : string) (cause : Exn).

Definition kind (e : Exn) : ExnKind :=
  match e with MkExn k _ | WithNested k _ _ => k end.
Definition what (e : Exn) : string :=
  match e with MkExn _ w | WithNested _ w _ => w end.

(** Operations the C++ standard leaves undefined. *)
Inductive UB :=
  | OutOfBoundsRead     (* dereferencing a pointer beyond the NUL terminator *)
  | EmptyVectorAccess.  (* [v[0]] or [v.erase(v.begin())] on an empty vector *)

(** How a call ends: it returns a value, throws, runs into undefined
    behaviour, or, for the loops bounded by a fuel argument, uses up the
    fuel (which the fuel given by their callers rules out). *)
Inductive Outcome (A : Type) :=
  | Returns (a : A)
  | Throws (e : Exn)
  | Undefined (u : UB)
  | OutOfFuel.
Arguments Returns {A} a.
Arguments Throws {A} e.
Arguments Undefined {A} u.
Arguments OutOfFuel {A}.

#[global] Instance Outcome_ret : MRet Outcome := fun A a => Returns a.
#[global] Instance Outcome_bind : MBind Outcome := fun A B f m =>
  match m with
  | Returns a => f a
  | Throws e => Throws e
  | Undefined u => Undefined u
  | OutOfFuel => OutOfFuel
  end.

#[global] Instance Outcome_fmap : FMap Outcome := fun A B f m =>
  match m with
  | Returns a => Returns (f a)
  | Throws e => Throws e
  | Undefined u => Undefined u
  | OutOfFuel => OutOfFuel
  end.

(** [try { body } catch (std::exception& e) { std::throw_with_nested(k(msg)); }] *)
Definition try_nested {A} (k : ExnKind) (msg : string) (body : Outcome A) : Outcome A :=
  match body with
  | Throws e => Throws (WithNested k msg e)
  | o => o
  end.

#[global] Instance ExnKind_eq_dec : EqDecision ExnKind.
Proof. solve_decision. Defined.

(* --------------------------------------------------------------------- *)
(** ** logQLParser.cpp                                                     *)
(* --------------------------------------------------------------------- *)

(** A [const char *] into the NUL-terminated pattern.  [Chars s] points at
    the first character of [s]; the buffer holds [c_str s] and then the
    terminator.  [PastNul] is the position after the terminator, which may
    be formed but not read. *)
Inductive CharPtr :=
  | Chars (s : string)
  | PastNul.

(** [p[0]] *)
Definition deref (p : CharPtr) : Outcome ascii :=
  match p with
  | Chars s => Returns (front s)
  | PastNul => Undefined OutOfBoundsRead
  end.

(** [p + 1] *)
Definition incr (p : CharPtr) : CharPtr :=
  match p with
  | Chars (String c s) => if decide (c = NUL) then PastNul else Chars s
  | Chars "" => PastNul
  | PastNul => PastNul
  end.

Record Tokenizer := { stream : CharPtr }.

Module TokenType.
Inductive t :=
  | OpenAngle
  | CloseAngle
  | QuestionMark
  | Literal
  | EndOfExpr
  | Unknown
  | Error.

#[global] Instance eq_dec : EqDecision t.
Proof. solve_decision. Defined.
End TokenType.
Abbreviation TokenType := TokenType.t.

Module Token.
(** [text] holds the [len] characters the token points at. *)
Record t := mk { text : string; len : nat; type : TokenType }.
End Token.
Abbreviation Token := Token.t.

(** The [while] loop of [getToken], run with [tk.stream] pointing at [s]:
    the characters stepped over and the text left at [tk.stream]. *)
Fixpoint literalRun (escaped : bool) (s : string) : string * string :=
  match s with
  | "" => ("", s)
  | String ch s' =>
      if bool_decide (ch ≠ NUL)
         && (escaped || (bool_decide (ch ≠ "<"%char) && bool_decide (ch ≠ ">"%char)))
      then
        (* tk.stream++; escaped = tk.stream[0] == '\\'; *)
        let '(run, rest) := literalRun (bool_decide (front s' = "\"%char)) s' in
        (String ch run, rest)
      else ("", s)
  end.

Definition getToken (tk : Tokenizer) : Outcome (Token * Tokenizer) :=
  (* const char *c = tk.stream++; *)
  let c := stream tk in
  let tk := {| stream := incr c |} in
  c0 ← deref c;
  if decide (c0 = "<"%char) then Returns (Token.mk "<" 1 TokenType.OpenAngle, tk)
  else if decide (c0 = ">"%char) then Returns (Token.mk ">" 1 TokenType.CloseAngle, tk)
  else if decide (c0 = "?"%char) then Returns (Token.mk "?" 1 TokenType.QuestionMark, tk)
  else if decide (c0 = NUL) then Returns (Token.mk "" 0 TokenType.EndOfExpr, tk)
  else
    match stream tk with
    | Chars s =>
        let '(run, rest) := literalRun false s in
        Returns (Token.mk (String c0 run) (S (String.length run)) TokenType.Literal,
              {| stream := Chars rest |})
    | PastNul => Undefined OutOfBoundsRead   (* the loop test reads tk.stream[0] *)
    end.

Definition requireToken (tk : Tokenizer) (req : TokenType) : Outcome (bool * Tokenizer) :=
  '(tok, tk) ← getToken tk;
  Returns (bool_decide (Token.type tok = req), tk).

Definition peekToken (tk : Tokenizer) : Outcome Token :=
  let tmp := {| stream := stream tk |} in
  '(tok, _) ← getToken tmp;
  Returns tok.

Definition peekChar (tk : Tokenizer) : Outcome ascii := deref (stream tk).

Module ExpressionType.
Inductive t := Capture | OptionalCapture | OrCapture | Literal.

#[global] Instance eq_dec : EqDecision t.
Proof. solve_decision. Defined.
End ExpressionType.
Abbreviation ExpressionType := ExpressionType.t.

Module Expression.
(** Modelled from the spec: the declaration of [Expression] is in
    [logQLParser.hpp]; section 3 of the specification gives its three
    fields.  A braced initialiser that names only [text] and [type] leaves
    [endToken] value-initialised, that is NUL. *)
Record t := mk { text : string; type : ExpressionType; endToken : ascii }.

Definition set_type (ty : ExpressionType) (e : t) : t :=
  mk (text e) ty (endToken e).
Definition set_endToken (c : ascii) (e : t) : t :=
  mk (text e) (type e) c.
End Expression.
Abbreviation Expression := Expression.t.

(** [std::vector]: the elements, the capacity of the current buffer, and the
    number of reallocations so far.  A reference to an element is its index
    together with the buffer it was taken from; [push_back] on a full vector
    moves the elements to a new buffer, after which older references no
    longer denote elements of the vector (a store through one is undefined
    behaviour in C++, and in any case does not reach the new buffer). *)
Module Vec.
Record t (A : Type) := mk { items : list A; capacity : nat; epoch : nat }.
Arguments mk {A} items capacity epoch.
Arguments items {A} _.
Arguments capacity {A} _.
Arguments epoch {A} _.

Record ref := mkref { index : nat; buffer : nat }.

Definition empty {A} : t A := mk [] 0 0.

(** Growth policy of libstdc++ and libc++: a full vector of size [n] gets
    capacity [n + max n 1]. *)
Definition push_back {A} (v : t A) (x : A) : t A :=
  if decide (length (items v) < capacity v)
  then mk (items v ++ [x]) (capacity v) (epoch v)
  else mk (items v ++ [x]) (length (items v) + max (length (items v)) 1) (S (epoch v)).

(** [v.back()] as an lvalue *)
Definition back {A} (v : t A) : ref :=
  mkref (pred (length (items v))) (epoch v).

(** [r.field = value] for a reference [r] obtained earlier *)
Definition store {A} (r : ref) (f : A → A) (v : t A) : t A :=
  if decide (buffer r = epoch v)
  then mk (alter f (index r) (items v)) (capacity v) (epoch v)
  else v.
End Vec.

(** Modelled from the spec: [ExpressionList] is declared in
    [logQLParser.hpp]; section 3 of the specification calls it an ordered
    sequence, and it is taken to be a [std::vector<Expression>], as
    [ParserList] is a [std::vector<Parser>] in [hlp.cpp]. *)
Abbreviation ExpressionList := (Vec.t Expression).

Definition parseCapture (tk : Tokenizer) (expresions : ExpressionList)
  : Outcome (bool * Tokenizer * ExpressionList) :=
  '(token, tk) ← getToken tk;
  let optional := bool_decide (Token.type token = TokenType.QuestionMark) in
  '(token, tk) ← (if optional then getToken tk else Returns (token, tk));
  if decide (Token.type token = TokenType.Literal) then
    let expresions :=
      Vec.push_back expresions
        (Expression.mk (Token.text token) ExpressionType.Capture NUL) in
    '(ok, tk) ← requireToken tk TokenType.CloseAngle;
    if negb ok then Returns (false, tk, expresions) else
    let expresions :=
      if optional
      then Vec.store (Vec.back expresions)
             (Expression.set_type ExpressionType.OptionalCapture) expresions
      else expresions in
    peeked ← peekToken tk;
    if decide (Token.type peeked = TokenType.QuestionMark) then
      (* We are parsing <name1>?<name2>; discard the peeked '?' *)
      '(_, tk) ← getToken tk;
      '(ok, tk) ← requireToken tk TokenType.OpenAngle;
      if negb ok then Returns (false, tk, expresions) else
      let prevCapture := Vec.back expresions in
      let expresions :=
        Vec.store prevCapture (Expression.set_type ExpressionType.OrCapture) expresions in
      '(orEnd, tk) ← getToken tk;
      let expresions :=
        Vec.push_back expresions
          (Expression.mk (Token.text orEnd) ExpressionType.Capture NUL) in
      '(ok, tk) ← requireToken tk TokenType.CloseAngle;
      if negb ok then Returns (false, tk, expresions) else
      endToken ← peekChar tk;
      let currentCapture := Vec.back expresions in
      let expresions :=
        Vec.store currentCapture (Expression.set_endToken endToken) expresions in
      let expresions :=
        Vec.store prevCapture (Expression.set_endToken endToken) expresions in
      Returns (true, tk, expresions)
    else
      endToken ← peekChar tk;
      Returns (true, tk,
            Vec.store (Vec.back expresions) (Expression.set_endToken endToken) expresions)
  else Returns (false, tk, expresions).

(** [std::string(p)] *)
Definition string_of_ptr (p : CharPtr) : Outcome string :=
  match p with
  | Chars s => Returns (c_str s)
  | PastNul => Undefined OutOfBoundsRead
  end.

Definition capture_error_msg (prev : string) : string :=
  "[HLP]Invalid LogQL expression at [" +:+ prev +:+
  "]. Unable to parse capture expression.".

Definition back_to_back_msg (prev : string) : string :=
  "[HLP]Invalid LogQL expression at [" +:+ prev +:+
  "]. Can't captures back to back".

Definition unknown_token_msg : string :=
  "[HLP] Invalid LogQl expression. Unknown token found.".

(** The [while (!done)] loop of [parseLogQlExpr]; every iteration consumes
    at least one character, so [fuel] bounds the number of iterations. *)
Fixpoint parseLogQlExpr_loop (fuel : nat) (tokenizer : Tokenizer)
    (expresions : ExpressionList) : Outcome ExpressionList :=
  match fuel with
  | 0 => OutOfFuel
  | S fuel =>
      let start := stream tokenizer in
      '(token, tokenizer) ← getToken tokenizer;
      match Token.type token with
      | TokenType.OpenAngle =>
          (* const char *prev = tokenizer.stream - 1; the token is one
             character long, so this is where getToken started *)
          let prev := start in
          '(ok, tokenizer, expresions) ← parseCapture tokenizer expresions;
          if negb ok then
            msg ← string_of_ptr prev;
            Throws (MkExn RuntimeError (capture_error_msg msg))
          else
            peeked ← peekToken tokenizer;
            if decide (Token.type peeked = TokenType.OpenAngle) then
              msg ← string_of_ptr prev;
              Throws (MkExn RuntimeError (back_to_back_msg msg))
            else parseLogQlExpr_loop fuel tokenizer expresions
      | TokenType.Literal =>
          parseLogQlExpr_loop fuel tokenizer
            (Vec.push_back expresions
               (Expression.mk (Token.text token) ExpressionType.Literal NUL))
      | TokenType.EndOfExpr => Returns expresions
      | _ => Throws (MkExn RuntimeError unknown_token_msg)
      end
  end.

Definition parseLogQlExpr (expr : string) : Outcome ExpressionList :=
  parseLogQlExpr_loop (S (String.length expr)) {| stream := Chars expr |} Vec.empty.

(* --------------------------------------------------------------------- *)
(** ** hlp.cpp                                                             *)
(* --------------------------------------------------------------------- *)

Module ParserType.
(** Modelled from the spec: the enumeration is declared in
    [hlpDetails.hpp]; section 3 of the specification lists its values. *)
Inductive t :=
  | Literal | Any | ToEnd | IP | Ts | URL | JSON | Map | Domain
  | FilePath | UserAgent | Number | QuotedString | Boolean.

#[global] Instance eq_dec : EqDecision t.
Proof. solve_decision. Defined.
End ParserType.
Abbreviation ParserType := ParserType.t.

Module Parser.
(** Modelled from the spec: the declaration of [Parser] is in
    [hlpDetails.hpp]; section 3 of the specification gives its fields.
    A default-constructed [Parser] has no options. *)
Record t := mk {
  name : string;
  type : ParserType;
  expType : ExpressionType;
  endToken : ascii;
  options : list string
}.

Definition set_type (ty : ParserType) (p : t) : t :=
  mk (name p) ty (expType p) (endToken p) (options p).
Definition set_options (o : list string) (p : t) : t :=
  mk (name p) (type p) (expType p) (endToken p) o.
End Parser.
Abbreviation Parser := Parser.t.

Definition kTempTypeMapper : gmap string ParserType :=
  list_to_map [
    ("json", ParserType.JSON);
    ("map", ParserType.Map);
    ("timestamp", ParserType.Ts);
    ("domain", ParserType.Domain);
    ("filepath", ParserType.FilePath);
    ("useragent", ParserType.UserAgent);
    ("url", ParserType.URL);
    ("quoted_string", ParserType.QuotedString);
    ("ip", ParserType.IP);
    ("number", ParserType.Number);
    ("toend", ParserType.ToEnd)
  ].

(** [str.find(c)] *)
Fixpoint find (c : ascii) (str : string) : option nat :=
  match str with
  | "" => None
  | String c' str' => if decide (c' = c) then Some 0 else S <$> find c str'
  end.

(** [str.substr(0, n)] and [str.substr(n)] *)
Fixpoint substr_to (n : nat) (str : string) : string :=
  match n, str with
  | S n, String c str' => String c (substr_to n str')
  | _, _ => ""
  end.

Fixpoint substr_from (n : nat) (str : string) : string :=
  match n, str with
  | S n, String _ str' => substr_from n str'
  | _, _ => str
  end.

(** The [while (true)] loop of [splitSlashSeparatedField] and the statement
    after it; each iteration removes at least one character from [str]. *)
Fixpoint splitSlashSeparatedField_loop (fuel : nat) (str : string)
    (ret : list string) : Outcome (list string) :=
  match fuel with
  | 0 => OutOfFuel
  | S fuel =>
      match find "/"%char str with
      | None => Returns (if decide (str = "") then ret else ret ++ [str])
      | Some pos =>
          splitSlashSeparatedField_loop fuel (substr_from (pos + 1) str)
            (ret ++ [substr_to pos str])
      end
  end.

Definition splitSlashSeparatedField (str : string) : Outcome (list string) :=
  splitSlashSeparatedField_loop (S (String.length str)) str [].

Definition success_msg (name : string) : string :=
  "Parser[" +:+ String dquote name +:+ String dquote "] success" +:+ String newline "".

Definition failure_msg (name : string) : string :=
  "Parser[" +:+ String dquote name +:+ String dquote "] failure".

Definition missing_impl_msg (name : string) : string :=
  "Parser[" +:+ String dquote name +:+
  String dquote "] failure: Missing implementation for parser [" +:+ name +:+ "]".

Module ExecuteResult.
Record t := mk { ok : bool; trace : string }.
End ExecuteResult.
Abbreviation ExecuteResult := ExecuteResult.t.

Section Hlp.
(** The values stored in a [ParseResult]. *)
Context {Value : Type}.

Abbreviation ParseResult := (gmap string Value).

(** A specific parser, [bool f(const char **it, Parser const &, ParseResult &)]:
    the cursor is the text of the event from [*it] on. *)
Definition ParserFunc : Type :=
  string → Parser → ParseResult → bool * string * ParseResult.

Definition ParserFn : Type := string → ParseResult → ExecuteResult * ParseResult.

(** The schema map filled by [configureParserMappings]. *)
Variable kECSParserMapper : gmap string ParserType.

(** The tables of [specificParsers.hpp], indexed by parser type; an entry
    may be null. *)
Variable kParsersConfig : ParserType → option (Parser → list string → Parser).
Variable kAvailableParsers : ParserType → option ParserFunc.

Definition setParserOptions (parser : Parser) (args : list string) : Parser :=
  match kParsersConfig (Parser.type parser) with
  | Some config => config parser args
  | None => parser
  end.

Definition createParserFromExpresion (exp : Expression) : Outcome Parser :=
  args ← splitSlashSeparatedField (Expression.text exp);
  match args with
  | [] => Undefined EmptyVectorAccess                       (* args[0] *)
  | name :: args =>
      let parser :=
        Parser.mk name ParserType.Any (Expression.type exp)
          (Expression.endToken exp) [] in
      let '(parser, args) :=
        if decide (front name = "_"%char) then
          if decide (String.length name ≠ 1) then
            match args with
            | arg0 :: args' =>
                (match kTempTypeMapper !! arg0 with
                 | Some ty => Parser.set_type ty parser
                 | None => parser
                 end,
                 (* erase the type from the list *)
                 args')
            | [] => (parser, args)
            end
          else (parser, args)
        else
          (match kECSParserMapper !! name with
           | Some ty => Parser.set_type ty parser
           | None => parser
           end, args) in
      Returns (setParserOptions parser args)
  end.

Fixpoint getParserList_loop (expressions : list Expression) : Outcome (list Parser) :=
  match expressions with
  | [] => Returns []
  | expresion :: rest =>
      p ← match Expression.type expresion with
          | ExpressionType.Capture
          | ExpressionType.OptionalCapture
          | ExpressionType.OrCapture => createParserFromExpresion expresion
          | ExpressionType.Literal =>
              Returns (Parser.mk (Expression.text expresion) ParserType.Literal
                         ExpressionType.Literal (Expression.endToken expresion) [])
          end;
      parsers ← getParserList_loop rest;
      Returns (p :: parsers)
  end.

Definition getParserList (expressions : ExpressionList) : Outcome (list Parser) :=
  getParserList_loop (Vec.items expressions).

(** The local variables of [executeParserList] that live across
    iterations, and the [ParseResult] it writes to. *)
Record ExecState := mkExecState {
  eventIt : string;
  isOk : bool;
  trace : string;
  result : ParseResult
}.

Inductive Step :=
  | Continue (st : ExecState)
  | Return (r : ExecuteResult) (result : ParseResult).

(** One iteration of the [for] loop. *)
Definition executeParserList_step (parser : Parser) (st : ExecState) : Step :=
  let prevIt := eventIt st in
  match kAvailableParsers (Parser.type parser) with
  | Some parseFunc =>
      let '(isOk, eventIt, result) := parseFunc (eventIt st) parser (result st) in
      if negb isOk then
        if decide (Parser.expType parser = ExpressionType.OptionalCapture
                   ∨ Parser.expType parser = ExpressionType.OrCapture)
        then
          (* We need to test the second part of the 'OR' capture *)
          Continue (mkExecState prevIt true (trace st) result)
        else
          Return (ExecuteResult.mk false (trace st +:+ failure_msg (Parser.name parser)))
                 result
      else
        Continue (mkExecState eventIt isOk
                    (trace st +:+ success_msg (Parser.name parser)) result)
  | None =>
      Return (ExecuteResult.mk false (trace st +:+ missing_impl_msg (Parser.name parser)))
             (result st)
  end.

Fixpoint executeParserList_loop (parsers : list Parser) (st : ExecState)
  : ExecuteResult * ParseResult :=
  match parsers with
  | [] => (ExecuteResult.mk (isOk st) (trace st), result st)
  | parser :: parsers =>
      match executeParserList_step parser st with
      | Continue st => executeParserList_loop parsers st
      | Return r result => (r, result)
      end
  end.

Definition executeParserList (event : string) (parsers : list Parser)
    (result : ParseResult) : ExecuteResult * ParseResult :=
  executeParserList_loop parsers (mkExecState event true "" result).

Definition getParserOp (logQl : string) : Outcome ParserFn :=
  if decide (logQl = "") then
    Throws (MkExn InvalidArgument "[HLP]Empty LogQL expression")
  else
    expressions ← parseLogQlExpr logQl;
    match Vec.items expressions with
    | [] =>
        Throws (MkExn RuntimeError
                  "[HLP]Empty expression output obtained from LogQL parsing")
    | _ :: _ =>
        parserList ← getParserList expressions;
        match parserList with
        | [] =>
            Throws (MkExn RuntimeError
                      "[HLP]Could not convert expressions to parser List")
        | _ :: _ =>
            Returns (λ event result, executeParserList event parserList result)
        end
    end.
End Hlp.

(** *** Two specific parsers and a configuration to run patterns with *)

(** Modelled from the spec: [specificParsers.cpp] is not part of the
    sources at hand.  Section 4.4: the Literal parser advances the cursor if
    and only if the input starts with [parser.name], and writes nothing. *)
Fixpoint strip_prefix (p s : string) : option string :=
  match p, s with
  | "", _ => Some s
  | String a p', String b s' => if decide (a = b) then strip_prefix p' s' else None
  | String _ _, "" => None
  end.

Definition parseLiteral : @ParserFunc string := λ it parser result,
  match strip_prefix (Parser.name parser) it with
  | Some rest => (true, rest, result)
  | None => (false, it, result)
  end.

(** Modelled from the spec: section 4.4, the Any parser consumes characters
    up to, not including, the next occurrence of [parser.endToken], or to the
    end of the input if [endToken] is NUL, and stores the slice under
    [parser.name]. *)
Fixpoint span_until (stop : ascii) (s : string) : string * string :=
  match s with
  | "" => ("", "")
  | String c s' =>
      if decide (c = stop) then ("", s)
      else let '(taken, rest) := span_until stop s' in (String c taken, rest)
  end.

Definition parseAny : @ParserFunc string := λ it parser result,
  let '(taken, rest) := span_until (Parser.endToken parser) it in
  (true, rest, <[Parser.name parser := taken]> result).

(** Modelled from the spec: a table of specific parsers holding the two
    parsers above and no other implementation. *)
Definition literalAndAnyParsers (ty : ParserType) : option (@ParserFunc string) :=
  match ty with
  | ParserType.Literal => Some parseLiteral
  | ParserType.Any => Some parseAny
  | _ => None
  end.

(** A configuration with no option configurator. *)
Definition noParsersConfig (ty : ParserType) : option (Parser → list string → Parser) :=
  None.

(** Modelled from the spec: section 4.3, an option configurator receives
    the remaining options and mutates the parser's [options] field.  Here
    the timestamp and number configurators keep the options as they are
    given and the other types have none. *)
Definition demoParsersConfig (ty : ParserType) : option (Parser → list string → Parser) :=
  match ty with
  | ParserType.Ts | ParserType.Number =>
      Some (λ parser args, Parser.set_options args parser)
  | _ => None
  end.

(** The schema of scenario S1. *)
Definition demoSchema : gmap string ParserType :=
  list_to_map [("source.ip", ParserType.IP); ("source.port", ParserType.Number)].

(* --------------------------------------------------------------------- *)
(** ** assetBuilderDecoder.cpp                                             *)
(* --------------------------------------------------------------------- *)

(** A rapidjson value.  An object keeps its members in document order and
    may repeat a member name. *)
Inductive Json :=
  | JNull
  | JFalse
  | JTrue
  | JObject (members : list (string * Json))
  | JArray (elems : list Json)
  | JString (s : string)
  | JNumber (n : Z).

(** [GetType()], printed by [fmt::format] as the number of the enumerator. *)
Definition GetType (v : Json) : string :=
  match v with
  | JNull => "0"
  | JFalse => "1"
  | JTrue => "2"
  | JObject _ => "3"
  | JArray _ => "4"
  | JString _ => "5"
  | JNumber _ => "6"
  end.

(** [obj.FindMember(key)]: the first member with that name. *)
Fixpoint FindMember (key : string) (members : list (string * Json)) : option Json :=
  match members with
  | [] => None
  | (k, v) :: rest => if decide (k = key) then Some v else FindMember key rest
  end.

Definition HasMember (key : string) (members : list (string * Json)) : bool :=
  bool_decide (is_Some (FindMember key members)).

(** [obj[key]], used only after [HasMember] *)
Definition member (key : string) (members : list (string * Json)) : Json :=
  default JNull (FindMember key members).

(** Modelled from the spec: the accessors [GetString], [GetArray] and
    [GetObject] belong to rapidjson; by section 4.7 every attribute
    extraction is wrapped and a failure surfaces as a nested error chain, so
    an accessor applied to a value of another type raises an exception. *)
Definition GetString (v : Json) : Outcome string :=
  match v with
  | JString s => Returns s
  | _ => Throws (MkExn LogicError "rapidjson: IsString()")
  end.

Definition GetArray (v : Json) : Outcome (list Json) :=
  match v with
  | JArray l => Returns l
  | _ => Throws (MkExn LogicError "rapidjson: IsArray()")
  end.

Definition GetObject (v : Json) : Outcome (list (string * Json)) :=
  match v with
  | JObject l => Returns l
  | _ => Throws (MkExn LogicError "rapidjson: IsObject()")
  end.

(** [for (auto& v : arr) parents.push_back(v.GetString());] *)
Fixpoint collectStrings (arr : list Json) (acc : list string) : Outcome (list string) :=
  match arr with
  | [] => Returns acc
  | v :: rest => s ← GetString v; collectStrings rest (acc ++ [s])
  end.

(** [for (auto& m : obj) metadata[m.name.GetString()] = base::Document(m.value);] *)
Fixpoint collectMetadata (obj : list (string * Json)) (acc : gmap string Json)
  : gmap string Json :=
  match obj with
  | [] => acc
  | (k, v) :: rest => collectMetadata rest (<[k := v]> acc)
  end.

Module Tracer.
(** [types::ConnectableT::Tracer], built from the decoder's name. *)
Record t := mk { m_name : string }.
End Tracer.
Abbreviation Tracer := Tracer.t.

Module Connectable.
(** [types::ConnectableT], over the type of its operator. *)
Record t (Lifter : Type) := mk {
  name : string;
  parents : list string;
  op : Lifter;
  tracer : Tracer
}.
Arguments mk {Lifter} name parents op tracer.
Arguments name {Lifter} _.
Arguments parents {Lifter} _.
Arguments op {Lifter} _.
Arguments tracer {Lifter} _.
End Connectable.

Section AssetBuilderDecoder.
(** The reactive stream library: observables of events and their
    [filter] operator. *)
Context {Observable Event TracerFn : Type}.
Variable filter : Observable → (Event → bool) → Observable.
Variable isDecoded : Event → bool.
Variable tracerLogger : Tracer → TracerFn.

(** [base::Lifter] *)
Definition Lifter : Type := Observable → Observable.

Definition OpBuilder : Type := Json → TracerFn → Outcome Lifter.
Definition CombinatorBuilder : Type := list Lifter → Outcome Lifter.

(** The variant stored in the registry. *)
Inductive BuilderVariant :=
  | IsOpBuilder (b : OpBuilder)
  | IsCombinatorBuilder (b : CombinatorBuilder).

(** [Registry::getBuilder], declared in [registry.hpp]. *)
Variable getBuilder : string → Outcome BuilderVariant.

Definition bad_variant_access : Exn := MkExn BadVariantAccess "bad_variant_access".

(** [std::get<types::OpBuilder>(v)] and [std::get<types::CombinatorBuilder>(v)] *)
Definition get_OpBuilder (v : BuilderVariant) : Outcome OpBuilder :=
  match v with
  | IsOpBuilder b => Returns b
  | IsCombinatorBuilder _ => Throws bad_variant_access
  end.

Definition get_CombinatorBuilder (v : BuilderVariant) : Outcome CombinatorBuilder :=
  match v with
  | IsCombinatorBuilder b => Returns b
  | IsOpBuilder _ => Throws bad_variant_access
  end.

Abbreviation Connectable := (Connectable.t Lifter).

(** Implicit XOR condition in front:
    [o.filter([](base::Event e) { return !e->isDecoded(); })] *)
Definition notDecodedFilter : Lifter :=
  λ o, filter o (λ e, negb (isDecoded e)).

(** [std::get<types::OpBuilder>(Registry::getBuilder(stageName))(stageDef, tr.tracerLogger())] *)
Definition buildStage (stageName : string) (stageDef : Json) (tr : Tracer)
  : Outcome Lifter :=
  v ← getBuilder stageName;
  builder ← get_OpBuilder v;
  builder stageDef (tracerLogger tr).

(** The loop "Rest of stages" over the members of the definition. *)
Fixpoint restOfStages (objDef : list (string * Json)) (tr : Tracer)
    (proccessed : gset string) (stages : list Lifter) : Outcome (list Lifter) :=
  match objDef with
  | [] => Returns stages
  | (stageName, stageDef) :: rest =>
      if decide (stageName ∉ proccessed) then
        stage ← try_nested RuntimeError
                   ("Decoder builder encountered exception building stage " +:+ stageName)
                   (buildStage stageName stageDef tr);
        restOfStages rest tr ({[stageName]} ∪ proccessed) (stages ++ [stage])
      else restOfStages rest tr proccessed stages
  end.

(** The final [try] block: chain all stages and return the connectable. *)
Definition chainStages (name : string) (parents : list string) (tr : Tracer)
    (stages : list Lifter) : Outcome Connectable :=
  try_nested RuntimeError
    "Decoder builder encountered exception building chaining all stages."
    (v ← getBuilder "combinator.chain";
     chain ← get_CombinatorBuilder v;
     decoder ← chain stages;
     Returns (Connectable.mk name parents decoder tr)).

Definition assetBuilderDecoder (def : Json) : Outcome Connectable :=
  match def with
  | JObject objDef =>
      let proccessed : gset string := ∅ in
      let stages : list Lifter := [notDecodedFilter] in
      (* Name *)
      '(name, proccessed) ←
        (if HasMember "name" objDef then
           try_nested RuntimeError
             "Decoder builder encountered exception building attribute name."
             (name ← GetString (member "name" objDef);
              Returns (name, {["name"]} ∪ proccessed))
         else
           Throws (MkExn RuntimeError
                     "Decoder builder expects definition to have a name attribute."));
      (* Parents *)
      '(parents, proccessed) ←
        (if HasMember "parents" objDef then
           try_nested InvalidArgument
             "Decoder builder encountered exception building attribute parents."
             (arr ← GetArray (member "parents" objDef);
              parents ← collectStrings arr [];
              Returns (parents, {["parents"]} ∪ proccessed))
         else Returns ([], proccessed));
      (* Metadata *)
      '(metadata, proccessed) ←
        (if HasMember "metadata" objDef then
           try_nested RuntimeError
             "Decoder builder encountered exception building attribute metadata."
             (obj ← GetObject (member "metadata" objDef);
              Returns (collectMetadata obj ∅, {["metadata"]} ∪ proccessed))
         else Returns (∅, proccessed));
      (* Build tracer *)
      let tr := Tracer.mk name in
      (* Stage check *)
      '(stages, proccessed) ←
        (if HasMember "check" objDef then
           try_nested RuntimeError
             "Decoder builder encountered exception building stage check."
             (stage ← buildStage "check" (member "check" objDef) tr;
              Returns (stages ++ [stage], {["check"]} ∪ proccessed))
         else
           Throws (MkExn InvalidArgument
                     "Decoder builder expects value to have a check stage."));
      (* Rest of stages *)
      stages ← restOfStages objDef tr proccessed stages;
      chainStages name parents tr stages
  | _ =>
      Throws (MkExn InvalidArgument
                ("Decoder builder expects value to be an object, but got ["
                 +:+ GetType def +:+ "]"))
  end.
End AssetBuilderDecoder.

(** *** Configurations used by the examples *)

(** Modelled from the spec: section 4.4 says of the Number parser only that
    it applies its grammar, stops at the first character it cannot accept,
    writes its value, and returns [false] without advancing when it rejects
    the starting position.  The grammar taken here is a non-empty run of
    decimal digits. *)
Definition is_digit (c : ascii) : bool :=
  bool_decide (is_Some (Ascii.is_nat c)).

Fixpoint span_digits (s : string) : string * string :=
  match s with
  | "" => ("", "")
  | String c s' =>
      if is_digit c
      then let '(taken, rest) := span_digits s' in (String c taken, rest)
      else ("", s)
  end.

Definition parseNumber : @ParserFunc string := λ it parser result,
  let '(taken, rest) := span_digits it in
  if decide (taken = "") then (false, it, result)
  else (true, rest, <[Parser.name parser := taken]> result).

Definition demoParsers (ty : ParserType) : option (@ParserFunc string) :=
  match ty with
  | ParserType.Literal => Some parseLiteral
  | ParserType.Any => Some parseAny
  | ParserType.Number => Some parseNumber
  | _ => None
  end.

(** A registry whose operators log their names: an observable is the list
    of stages it went through. *)
Definition demoFilter (o : list string) (p : bool → bool) : list string :=
  o ++ ["not-decoded"].

Definition demoStage (stageName : string) : list string → list string :=
  λ o, o ++ [stageName].

Definition demoChain (stages : list (list string → list string))
  : list string → list string :=
  λ o, foldl (λ o stage, stage o) o stages.

Definition demoRegistry (name : string)
  : Outcome (@BuilderVariant (list string) unit) :=
  if decide (name = "combinator.chain") then
    Returns (IsCombinatorBuilder (λ stages, Returns (demoChain stages)))
  else if decide (name ∈ ["check"; "parse"; "normalize"]) then
    Returns (IsOpBuilder (λ _ _, Returns (demoStage name)))
  else Throws (MkExn InvalidArgument "unknown builder").

Definition demoBuild : Json → Outcome (Connectable.t (list string → list string)) :=
  assetBuilderDecoder demoFilter (λ b : bool, b) (λ _, tt) demoRegistry.


(** *** Auxiliary notions for the statements *)

(** A character other than NUL, [<] and [>]. *)
Definition plain_char (c : ascii) : bool :=
  bool_decide (c ≠ NUL) && bool_decide (c ≠ "<"%char) && bool_decide (c ≠ ">"%char).

Fixpoint all_chars (P : ascii → bool) (s : string) : bool :=
  match s with
  | "" => true
  | String c s' => P c && all_chars P s'
  end.

(** The run of plain characters at the front of [s], and what follows it. *)
Fixpoint plainRun (s : string) : string * string :=
  match s with
  | "" => ("", s)
  | String ch s' =>
      if plain_char ch
      then let '(run, rest) := plainRun s' in (String ch run, rest)
      else ("", s)
  end.

(** Calling [getToken] again and again, up to and including the call that
    returns [EndOfExpr]. *)
Fixpoint getTokens (fuel : nat) (tk : Tokenizer) : Outcome (list Token * Tokenizer) :=
  match fuel with
  | 0 => OutOfFuel
  | S fuel =>
      '(tok, tk) ← getToken tk;
      if decide (Token.type tok = TokenType.EndOfExpr) then Returns ([tok], tk)
      else '(toks, tk) ← getTokens fuel tk; Returns (tok :: toks, tk)
  end.

Fixpoint concat_strings (l : list string) : string :=
  match l with
  | [] => ""
  | s :: l' => s +:+ concat_strings l'
  end.

(** An expression with a non-empty text. *)
Definition named (e : Expression) : Prop := Expression.text e ≠ "".

(** [p] is the parser that [getParserList] makes of the expression [e]. *)
Definition derived_from (kECSParserMapper : gmap string ParserType)
    (kParsersConfig : ParserType → option (Parser → list string → Parser))
    (e : Expression) (p : Parser) : Prop :=
  getParserList_loop kECSParserMapper kParsersConfig [e] = Returns [p]
  ∧ Parser.expType p = Expression.type e
  ∧ Parser.endToken p = Expression.endToken e.

(** The attribute names the decoder builder handles before its loop over
    the remaining members. *)
Definition reservedAttributes : list string := ["name"; "parents"; "metadata"; "check"].

(** The members of a definition that are further stages, in document order. *)
Definition furtherStages (objDef : list (string * Json)) : list (string * Json) :=
  filter (λ m, m.1 ∉ reservedAttributes) objDef.

(** The optional attributes are absent or well formed: [parents] an array of
    strings, [metadata] an object. *)
Definition parentsAre (objDef : list (string * Json)) (parents : list string) : Prop :=
  match FindMember "parents" objDef with
  | None => parents = []
  | Some v => ∃ arr, v = JArray arr ∧ collectStrings arr [] = Returns parents
  end.

Definition metadataIsObject (objDef : list (string * Json)) : Prop :=
  match FindMember "metadata" objDef with
  | None => True
  | Some v => ∃ obj, v = JObject obj
  end.

(** The decoder definition of scenario S7. *)
Definition decoderS7 : list (string * Json) :=
  [("name", JString "d1"); ("check", JObject []);
   ("parse", JObject []); ("normalize", JObject [])].

(** A text without NUL, that is, a piece of a C string. *)
Definition no_nul (s : string) : bool := all_chars (λ c, bool_decide (c ≠ NUL)) s.

(** The cursor in a pattern [pre +:+ "><" +:+ rest] with [pre] still to be
    read before the place where a closing bracket meets an opening one, and
    the cursor between the two brackets. *)
Definition cursor_before (rest pre : string) : Tokenizer :=
  {| stream := Chars (pre +:+ String ">"%char (String "<"%char rest)) |}.

Definition cursor_between (rest : string) : Tokenizer :=
  {| stream := Chars (String "<"%char rest) |}.

(** [p] is what is left of [s] after some of its characters. *)
Definition is_suffix (p s : string) : Prop := ∃ q, s = q +:+ p.

(** Where the cursor can be when [parseCapture], started at
    [cursor_before rest pre],
    has succeeded: before the place again, with less to read, or between
    the two brackets. *)
Definition lands_near (rest pre : string) (tk' : Tokenizer) : Prop :=
  (∃ pre', tk' = cursor_before rest pre' ∧ is_suffix pre' pre ∧ no_nul pre' = true
           ∧ String.length pre' < String.length pre)
  ∨ tk' = cursor_between rest.

(** The diagnostics of [parseLogQlExpr] for a pattern: the unknown-token
    message, or one of the two capture messages quoting the pattern from
    the opening bracket of a capture on. *)
Definition rejection_msg (pattern msg : string) : Prop :=
  msg = unknown_token_msg
  ∨ ∃ prev,
      is_suffix prev pattern ∧ front prev = "<"%char
      ∧ (msg = capture_error_msg (c_str prev) ∨ msg = back_to_back_msg (c_str prev)).

(** The expression tags of a list, in order. *)
Definition tags (v : ExpressionList) : list ExpressionType :=
  Expression.type <$> Vec.items v.

(** Every [OrCapture] tag is directly followed by a [Capture] tag. *)
Definition paired (l : list ExpressionType) : Prop :=
  ∀ i, l !! i = Some ExpressionType.OrCapture →
       l !! S i = Some ExpressionType.Capture.

(** The number of characters still to be read, terminator included. *)
Definition remaining (tk : Tokenizer) : nat :=
  match stream tk with
  | Chars s => S (String.length s)
  | PastNul => 0
  end.

(* --------------------------------------------------------------------- *)
(** ** Further notions                                                     *)
(* --------------------------------------------------------------------- *)

(** The fields of a slash-separated text put together again. *)
Fixpoint join_slash (fields : list string) : string :=
  match fields with
  | [] => ""
  | [f] => f
  | f :: rest => f +:+ "/" +:+ join_slash rest
  end.

(** A character other than the slash. *)
Definition not_slash (c : ascii) : bool := bool_decide (c ≠ "/"%char).

(** A call that returns or reads out of bounds: it throws nothing and runs
    into no other undefined behaviour. *)
Definition returns_or_oob {A} (o : Outcome A) : Prop :=
  match o with
  | Returns _ | Undefined OutOfBoundsRead | OutOfFuel => True
  | _ => False
  end.

(** The three diagnostics of [parseLogQlExpr]. *)
Definition compile_msg (msg : string) : Prop :=
  msg = unknown_token_msg
  ∨ ∃ prev, msg = capture_error_msg prev ∨ msg = back_to_back_msg prev.

(** What a run of the loop of [parseLogQlExpr] can end in, fuel aside. *)
Definition parse_outcome {A} (o : Outcome A) : Prop :=
  match o with
  | Returns _ | Undefined OutOfBoundsRead | OutOfFuel => True
  | Throws e => ∃ msg, e = MkExn RuntimeError msg ∧ compile_msg msg
  | _ => False
  end.

(** An expression as the expression parser makes them: its text is not
    empty, and the text of a literal holds no NUL and no angle bracket and
    does not begin with a question mark. *)
Definition sound_expr (e : Expression) : Prop :=
  Expression.text e ≠ ""
  ∧ (Expression.type e = ExpressionType.Literal →
     all_chars plain_char (Expression.text e) = true
     ∧ front (Expression.text e) ≠ "?"%char).

Definition empty_output_msg : string :=
  "[HLP]Empty expression output obtained from LogQL parsing".

Definition could_not_convert_msg : string :=
  "[HLP]Could not convert expressions to parser List".

(** The expression types that [executeParserList] lets fail. *)
Definition optional_parser (parser : Parser) : Prop :=
  Parser.expType parser = ExpressionType.OptionalCapture
  ∨ Parser.expType parser = ExpressionType.OrCapture.

(** The trace lines of the parsers that succeeded, in order. *)
Definition success_trace (ran : list Parser) : string :=
  concat_strings ((λ p, success_msg (Parser.name p)) <$> ran).

(* --------------------------------------------------------------------- *)
(** ** hlp.cpp: the schema configuration                                   *)
(* --------------------------------------------------------------------- *)

Definition kSchema2ParserType : gmap string ParserType :=
  list_to_map [
    ("keyword", ParserType.Any);
    ("any", ParserType.ToEnd);
    ("ip", ParserType.IP);
    ("timestamp", ParserType.Ts);
    ("url", ParserType.URL);
    ("json", ParserType.JSON);
    ("map", ParserType.Map);
    ("domain", ParserType.Domain);
    ("filepath", ParserType.FilePath);
    ("useragent", ParserType.UserAgent);
    ("number", ParserType.Number);
    ("quoted", ParserType.QuotedString);
    ("boolean", ParserType.Boolean)
  ].

(** The [for] loop of [configureParserMappings] over the members of the
    document.  [kECSParserMapper] is a static map written in place: it is
    threaded through, and what was written before an accessor fails stays.
    A value that is not a string makes [GetString] fail, which ends the
    loop; a document that is not an object makes [MemberBegin] fail in the
    same way.  The lines sent to the log are left out. *)
Fixpoint configureParserMappings_loop (members : list (string * Json))
    (kECSParserMapper : gmap string ParserType)
  : gmap string ParserType * Outcome () :=
  match members with
  | [] => (kECSParserMapper, Returns ())
  | (name, value) :: rest =>
      match GetString value with
      | Returns ty =>
          match kSchema2ParserType !! ty with
          | Some pt =>
              configureParserMappings_loop rest (<[name := pt]> kECSParserMapper)
          | None => configureParserMappings_loop rest kECSParserMapper
          end
      | Throws e => (kECSParserMapper, Throws e)
      | Undefined u => (kECSParserMapper, Undefined u)
      | OutOfFuel => (kECSParserMapper, OutOfFuel)
      end
  end.

Section ConfigureParserMappings.
(** [rapidjson::Document::Parse] on a NUL-terminated text; [None] stands
    for [HasParseError()]. *)
Variable Parse : string → option Json.

Definition configureParserMappings (config : string)
    (kECSParserMapper : gmap string ParserType)
  : gmap string ParserType * Outcome () :=
  if decide (config = "") then (kECSParserMapper, Returns ())
  else
    match Parse (c_str config) with
    | None => (kECSParserMapper, Returns ())
    | Some doc =>
        (* doc.MemberBegin() *)
        match GetObject doc with
        | Returns members => configureParserMappings_loop members kECSParserMapper
        | Throws e => (kECSParserMapper, Throws e)
        | Undefined u => (kECSParserMapper, Undefined u)
        | OutOfFuel => (kECSParserMapper, OutOfFuel)
        end
    end.
End ConfigureParserMappings.

(** The parser types that the members of a document assign to the field
    [name], in document order: the members up to the first value that is
    not a string, and of these the ones whose type name is known. *)
Fixpoint assigned (name : string) (members : list (string * Json)) : list ParserType :=
  match members with
  | (n, JString ty) :: rest =>
      match kSchema2ParserType !! ty with
      | Some pt => if decide (n = name) then pt :: assigned name rest
                   else assigned name rest
      | None => assigned name rest
      end
  | _ => []
  end.

(** The members of the document that [configureParserMappings] reads. *)
Definition members_of (doc : option Json) : list (string * Json) :=
  match doc with
  | Some (JObject members) => members
  | _ => []
  end.

(** A document for the examples, and a stand-in for the JSON parser that
    knows this one text. *)
Definition quoted (s : string) : string := String dquote s +:+ String dquote "".

Definition demoSchemaText : string :=
  "{" +:+ quoted "source.port" +:+ ": " +:+ quoted "number" +:+ ", "
      +:+ quoted "event.code" +:+ ": " +:+ quoted "long" +:+ ", "
      +:+ quoted "source.port" +:+ ": " +:+ quoted "keyword" +:+ "}".

Definition demoParse (text : string) : option Json :=
  if decide (text = demoSchemaText) then
    Some (JObject [("source.port", JString "number");
                   ("event.code", JString "long");
                   ("source.port", JString "keyword")])
  else None.

(* --------------------------------------------------------------------- *)
(** ** Notions for the decoder builder                                     *)
(* --------------------------------------------------------------------- *)

(** The exceptions that leave [assetBuilderDecoder]. *)
Definition decoder_error (e : Exn) : Prop :=
  (kind e = InvalidArgument ∨ kind e = RuntimeError)
  ∧ ∃ rest, what e = "Decoder builder " +:+ rest.

Definition labelled {A} (o : Outcome A) : Prop :=
  match o with
  | Throws e => decoder_error e
  | _ => True
  end.

(* --------------------------------------------------------------------- *)
(** ** rsync: messageController.hpp                                        *)
(* --------------------------------------------------------------------- *)

(** Every method of the class holds [m_mutex] for its whole body, so a
    call is one atomic step on the three maps: a method is a function of the
    state.  The reading of [steady_clock::now()] is an argument.  A time
    point is a number of clock ticks since the clock's epoch, the interval a
    number of seconds. *)
Module MessageController.

Record ComponentContext := mkContext {
  lastMsgTime : Z;
  intervalTime : Z
}.

Section Controller.
Context {RSYNC_HANDLE : Type} `{EqDecision RSYNC_HANDLE}.

(** The ticks of [steady_clock] in a second: the comparison of a clock
    duration with [std::chrono::seconds] is made in ticks. *)
Variable ticks_per_second : Z.

Record t := mk {
  m_componentContexts : gmap string ComponentContext;
  m_componentHandle : gmap string RSYNC_HANDLE;
  m_componentShutdownStatus : gmap string bool
}.

(** The maps of a controller that has just been created. *)
Definition create : t := mk ∅ ∅ ∅.

Definition waitToStartSync (now : Z) (messageHeaderId : string) (this : t) : bool :=
  match m_componentContexts this !! messageHeaderId with
  | Some itCtx =>
      bool_decide (now - lastMsgTime itCtx ≤ intervalTime itCtx * ticks_per_second)%Z
  | None => false
  end.

Definition setComponentContext (handle : RSYNC_HANDLE) (messageHeaderId : string)
    (intervalTime : Z) (this : t) : t :=
  mk (if decide (intervalTime > 0)%Z then
        <[messageHeaderId := mkContext 0 intervalTime]> (m_componentContexts this)
      else delete messageHeaderId (m_componentContexts this))
     (<[messageHeaderId := handle]> (m_componentHandle this))
     (<[messageHeaderId := false]> (m_componentShutdownStatus this)).

(** [for (const auto& it : m_componentHandle) if (it.second == handle) ...] *)
Definition setShutdownStatus (handle : RSYNC_HANDLE) (shutdownStatus : bool)
    (this : t) : t :=
  mk (m_componentContexts this)
     (m_componentHandle this)
     (map_fold (λ first second status,
                  if decide (second = handle) then <[first := shutdownStatus]> status
                  else status)
        (m_componentShutdownStatus this) (m_componentHandle this)).

Definition getShutdownStatus (messageHeaderId : string) (this : t) : bool :=
  match m_componentShutdownStatus this !! messageHeaderId with
  | Some second => second
  | None => false
  end.

Definition refreshLastMsgTime (now : Z) (messageHeaderId : string) (this : t) : t :=
  match m_componentContexts this !! messageHeaderId with
  | Some itCtx =>
      mk (<[messageHeaderId := mkContext now (intervalTime itCtx)]>
            (m_componentContexts this))
         (m_componentHandle this)
         (m_componentShutdownStatus this)
  | None => this
  end.

(** The calls that change a controller, and a sequence of them run on a
    new controller. *)
Inductive Call :=
  | SetComponentContext (handle : RSYNC_HANDLE) (messageHeaderId : string)
      (intervalTime : Z)
  | SetShutdownStatus (handle : RSYNC_HANDLE) (shutdownStatus : bool)
  | RefreshLastMsgTime (now : Z) (messageHeaderId : string).

Definition call (c : Call) (this : t) : t :=
  match c with
  | SetComponentContext handle id interval => setComponentContext handle id interval this
  | SetShutdownStatus handle status => setShutdownStatus handle status this
  | RefreshLastMsgTime now id => refreshLastMsgTime now id this
  end.

Definition run (calls : list Call) : t := foldl (λ this c, call c this) create calls.

(** What holds of the maps of every controller. *)
Definition consistent (this : t) : Prop :=
  dom (m_componentShutdownStatus this) = dom (m_componentHandle this)
  ∧ dom (m_componentContexts this) ⊆ dom (m_componentHandle this)
  ∧ ∀ id ctx, m_componentContexts this !! id = Some ctx → (intervalTime ctx > 0)%Z.
End Controller.
End MessageController.
(* ===================================================================== *)
(** * Part II: properties                                                  *)
(* ===================================================================== *)

(** ** Strings *)

Lemma app_cons c s t : String c s +:+ t = String c (s +:+ t).
Proof. reflexivity. Qed.

Lemma app_empty_l t : "" +:+ t = t.
Proof. reflexivity. Qed.

Lemma app_empty_r s : s +:+ "" = s.
Proof. induction s as [|c s IH]; [reflexivity|]. rewrite app_cons, IH. reflexivity. Qed.

Lemma app_assoc_str s t u : (s +:+ t) +:+ u = s +:+ (t +:+ u).
Proof.
  induction s as [|c s IH]; [reflexivity|].
  rewrite !app_cons, IH. reflexivity.
Qed.

Lemma length_app_str s t : String.length (s +:+ t) = String.length s + String.length t.
Proof.
  induction s as [|c s IH]; [reflexivity|].
  rewrite app_cons. simpl. rewrite IH. reflexivity.
Qed.

Lemma c_str_app_plain s t : all_chars plain_char s = true → c_str (s +:+ t) = s +:+ c_str t.
Proof.
  induction s as [|c s IH]; intros Hs; [reflexivity|].
  simpl in Hs. apply andb_prop in Hs as [Hc Hs].
  rewrite !app_cons. simpl.
  unfold plain_char in Hc. rewrite !andb_true_iff, !bool_decide_eq_true in Hc.
  destruct Hc as [[Hnul _] _].
  rewrite decide_False by exact Hnul. rewrite IH by exact Hs. reflexivity.
Qed.

(** ** The tokenizer *)

(** The [escaped] flag of [getToken] never changes what the loop does: it is
    set only when the character now under the cursor is a backslash, which
    is not an angle bracket anyway. *)
Lemma literalRun_escaped_dead escaped s :
  (escaped = true → front s = "\"%char) → literalRun escaped s = plainRun s.
Proof.
  revert escaped. induction s as [|ch s IH]; intros escaped Hesc; [reflexivity|].
  simpl. rewrite (IH (bool_decide (front s = "\"%char))) by apply bool_decide_eq_true.
  unfold plain_char. destruct escaped.
  - simpl in Hesc. rewrite (Hesc eq_refl). reflexivity.
  - simpl. rewrite andb_assoc. reflexivity.
Qed.

Lemma literalRun_false s : literalRun false s = plainRun s.
Proof. apply literalRun_escaped_dead. discriminate. Qed.

Lemma plainRun_split s : 
  all_chars plain_char (plainRun s).1 = true
  ∧ s = (plainRun s).1 +:+ (plainRun s).2
  ∧ plain_char (front (plainRun s).2) = false.
Proof.
  induction s as [|ch s (IH1 & IH2 & IH3)]; [repeat split|].
  simpl. destruct (plain_char ch) eqn:Hch.
  - destruct (plainRun s) as [run rest]. simpl in *.
    rewrite Hch, IH1. repeat split; [|exact IH3].
    rewrite app_cons. congruence.
  - simpl. repeat split. exact Hch.
Qed.

Lemma plainRun_app run c rest :
  all_chars plain_char run = true → plain_char c = false →
  plainRun (run +:+ String c rest) = (run, String c rest).
Proof.
  induction run as [|ch run IH]; intros Hrun Hc.
  - rewrite app_empty_l. simpl. rewrite Hc. reflexivity.
  - simpl in Hrun. apply andb_prop in Hrun as [Hch Hrun].
    rewrite app_cons. simpl. rewrite Hch, IH by assumption. reflexivity.
Qed.

(** [getToken] on a pointer that may be read, by the character under it. *)
Lemma getToken_Chars s :
  getToken {| stream := Chars s |} =
    let tk := {| stream := incr (Chars s) |} in
    if decide (front s = "<"%char) then Returns (Token.mk "<" 1 TokenType.OpenAngle, tk)
    else if decide (front s = ">"%char) then Returns (Token.mk ">" 1 TokenType.CloseAngle, tk)
    else if decide (front s = "?"%char) then Returns (Token.mk "?" 1 TokenType.QuestionMark, tk)
    else if decide (front s = NUL) then Returns (Token.mk "" 0 TokenType.EndOfExpr, tk)
    else
      match s with
      | String c0 s' =>
          Returns (Token.mk (String c0 (plainRun s').1)
                     (S (String.length (plainRun s').1)) TokenType.Literal,
                   {| stream := Chars (plainRun s').2 |})
      | "" => Undefined OutOfBoundsRead
      end.
Proof.
  unfold getToken. simpl.
  repeat (case_decide; [reflexivity|]).
  destruct s as [|c0 s']; [reflexivity|]. simpl in *.
  rewrite decide_False by assumption.
  rewrite literalRun_false. destruct (plainRun s'). reflexivity.
Qed.

Lemma getToken_PastNul : getToken {| stream := PastNul |} = Undefined OutOfBoundsRead.
Proof. reflexivity. Qed.

(** C2 (as the code behaves).  Inside a literal run an angle bracket ends
    the token also when the character before it is a backslash: the
    backslash is the last character of the [Literal] token and the bracket
    is left in the stream, to be read as [OpenAngle] or [CloseAngle]. *)
Theorem backslash_does_not_escape_angle_bracket c0 run d rest :
  plain_char c0 = true → c0 ≠ "?"%char →
  all_chars plain_char run = true →
  d = "<"%char ∨ d = ">"%char →
  getToken {| stream := Chars (String c0 (run +:+ String "\"%char (String d rest))) |} =
    Returns (Token.mk (String c0 (run +:+ "\"))
               (S (String.length (run +:+ "\"))) TokenType.Literal,
             {| stream := Chars (String d rest) |}).
Proof.
  intros Hc0 Hq Hrun Hd.
  unfold plain_char in Hc0. rewrite !andb_true_iff, !bool_decide_eq_true in Hc0.
  destruct Hc0 as [[Hnul Hlt] Hgt].
  rewrite getToken_Chars. simpl.
  rewrite !decide_False by assumption.
  assert (plainRun (run +:+ String "\"%char (String d rest))
          = (run +:+ "\", String d rest)) as ->; [|reflexivity].
  change (String "\"%char (String d rest)) with ("\" +:+ String d rest).
  rewrite <- app_assoc_str. apply plainRun_app.
  - clear -Hrun. induction run as [|ch run IH]; [reflexivity|].
    simpl in Hrun. apply andb_prop in Hrun as [Hch Hrun].
    rewrite app_cons. simpl. rewrite Hch, IH by assumption. reflexivity.
  - destruct Hd as [-> | ->]; reflexivity.
Qed.

Lemma backslash_does_not_escape_angle_bracket_witness :
  getToken {| stream := Chars "a\<b" |} =
    Returns (Token.mk "a\" 2 TokenType.Literal, {| stream := Chars "<b" |}).
Proof.
  apply (backslash_does_not_escape_angle_bracket "a"%char "" "<"%char "b");
    [reflexivity | discriminate | reflexivity | left; reflexivity].
Defined.

(** The pattern [a\<b\>] is compiled to the literal [a\] followed by a
    capture named [b\]. *)
Example escaped_brackets_delimit_a_capture :
  Vec.items <$> parseLogQlExpr "a\<b\>" =
    Returns [Expression.mk "a\" ExpressionType.Literal NUL;
             Expression.mk "b\" ExpressionType.Capture NUL].
Proof. reflexivity. Qed.

Lemma front_not_NUL s c : front s = c → c ≠ NUL → ∃ s', s = String c s'.
Proof. destruct s as [|c' s']; simpl; intros <- Hc; [done|eauto]. Qed.

Lemma incr_Chars_cons c s : c ≠ NUL → incr (Chars (String c s)) = Chars s.
Proof. intros Hc. simpl. rewrite decide_False by exact Hc. reflexivity. Qed.

Lemma incr_at_NUL s : front s = NUL → incr (Chars s) = PastNul.
Proof.
  destruct s as [|c s]; simpl; [reflexivity|].
  intros ->. rewrite decide_True by reflexivity. reflexivity.
Qed.

Lemma plainRun_rest_length s : String.length (plainRun s).2 ≤ String.length s.
Proof.
  induction s as [|ch s IH]; simpl; [lia|].
  destruct (plain_char ch); [|simpl; lia].
  destruct (plainRun s); simpl in *. lia.
Qed.

(** The first half of tokenizer totality: from any pattern, repeated calls
    reach [EndOfExpr] within [length + 1] calls, never read outside the
    buffer on the way, and the tokens returned spell the whole C string. *)
Lemma getTokens_reaches_EndOfExpr fuel s :
  String.length s < fuel →
  ∃ toks,
    getTokens fuel {| stream := Chars s |} = Returns (toks, {| stream := PastNul |})
    ∧ concat_strings (Token.text <$> toks) = c_str s
    ∧ Token.type <$> last toks = Some TokenType.EndOfExpr.
Proof.
  revert s. induction fuel as [|fuel IH]; intros s Hlen; [lia|].
  simpl. rewrite getToken_Chars. cbv zeta.
  assert (Hstep : ∀ c s' (tok : Token),
             s = String c s' → c ≠ NUL → Token.text tok = String c "" →
             Token.type tok ≠ TokenType.EndOfExpr →
             ∃ toks,
               (Returns (tok, {| stream := incr (Chars s) |}) ≫=
                  (λ '(tok, tk),
                     if decide (Token.type tok = TokenType.EndOfExpr)
                     then Returns ([tok], tk)
                     else getTokens fuel tk ≫= λ '(toks, tk), Returns (tok :: toks, tk)))
               = Returns (toks, {| stream := PastNul |})
               ∧ concat_strings (Token.text <$> toks) = c_str s
               ∧ Token.type <$> last toks = Some TokenType.EndOfExpr).
  { intros c s' tok -> Hc Htext Hty. simpl in Hlen.
    destruct (IH s' ltac:(lia)) as (toks & Hrun & Hcat & Hlast).
    exists (tok :: toks). rewrite incr_Chars_cons by exact Hc. simpl.
    rewrite decide_False by exact Hty. rewrite Hrun. simpl.
    change (list_fmap Token string Token.text toks) with (Token.text <$> toks).
    rewrite Htext, Hcat, decide_False by exact Hc.
    repeat split. destruct toks; [discriminate|exact Hlast]. }
  case_decide as H1.
  { destruct (front_not_NUL _ _ H1 ltac:(discriminate)) as [s' ->].
    eapply Hstep; [reflexivity|discriminate|reflexivity|discriminate]. }
  case_decide as H2.
  { destruct (front_not_NUL _ _ H2 ltac:(discriminate)) as [s' ->].
    eapply Hstep; [reflexivity|discriminate|reflexivity|discriminate]. }
  case_decide as H3.
  { destruct (front_not_NUL _ _ H3 ltac:(discriminate)) as [s' ->].
    eapply Hstep; [reflexivity|discriminate|reflexivity|discriminate]. }
  case_decide as H4.
  { exists [Token.mk "" 0 TokenType.EndOfExpr].
    rewrite incr_at_NUL by exact H4. simpl. repeat split.
    destruct s as [|c s']; [reflexivity|]. simpl in *.
    rewrite decide_True by exact H4. reflexivity. }
  destruct s as [|c0 s']; [done|]. simpl in *.
  pose proof (plainRun_rest_length s') as Hrest.
  destruct (plainRun_split s') as (Hplain & Hsplit & _).
  destruct (plainRun s') as [run rest]. simpl in *.
  destruct (IH rest ltac:(lia)) as (toks & Hrun & Hcat & Hlast).
  rewrite Hrun. simpl. eexists. repeat split.
  - simpl.
    change (list_fmap Token string Token.text toks) with (Token.text <$> toks).
    rewrite Hcat, decide_False by exact H4.
    rewrite app_cons. f_equal. rewrite Hsplit.
    symmetry. apply c_str_app_plain. exact Hplain.
  - destruct toks; [discriminate|exact Hlast].
Qed.

(** C3 (as the code behaves).  The call of [getToken] that returns
    [EndOfExpr] has already moved the cursor beyond the NUL terminator, and
    a further call reads the byte there, outside the pattern. *)
Theorem getToken_after_EndOfExpr_reads_past_the_end tk tok tk' :
  getToken tk = Returns (tok, tk') →
  Token.type tok = TokenType.EndOfExpr →
  stream tk' = PastNul ∧ getToken tk' = Undefined OutOfBoundsRead.
Proof.
  destruct tk as [[s|]]; [|discriminate].
  rewrite getToken_Chars. cbv zeta.
  repeat (case_decide; [intros [= <- <-]; discriminate|]).
  case_decide as Hnul.
  - intros Heq _. rewrite incr_at_NUL in Heq by exact Hnul.
    injection Heq as <- <-. split; reflexivity.
  - destruct s; [discriminate|]. intros [= <- <-]. discriminate.
Qed.

Lemma getToken_after_EndOfExpr_reads_past_the_end_witness :
  stream {| stream := PastNul |} = PastNul
  ∧ getToken {| stream := PastNul |} = Undefined OutOfBoundsRead.
Proof.
  apply (getToken_after_EndOfExpr_reads_past_the_end
           {| stream := Chars "" |} (Token.mk "" 0 TokenType.EndOfExpr)
           {| stream := PastNul |}); reflexivity.
Defined.

(** The expression parser does call [getToken] after the end: in [<a>?<]
    the second alternative is read without looking at its type, and the
    [CloseAngle] required next is read beyond the terminator. *)
Example unfinished_alternation_reads_past_the_end :
  parseLogQlExpr "<a>?<" = Undefined OutOfBoundsRead.
Proof. reflexivity. Qed.

(** ** The [Outcome] monad *)

Lemma bind_Returns_inv {A B} (m : Outcome A) (f : A → Outcome B) b :
  m ≫= f = Returns b → ∃ a, m = Returns a ∧ f a = Returns b.
Proof. destruct m; simpl; intros H; try discriminate. eauto. Qed.

Lemma bind_Returns {A B} (a : A) (f : A → Outcome B) : Returns a ≫= f = f a.
Proof. reflexivity. Qed.

Ltac inv_bind H :=
  let a := fresh "a" in
  let E := fresh "E" in
  apply bind_Returns_inv in H as (a & E & H);
  repeat match type of H with
         | context [let '(_, _) := ?p in _] => is_var p; destruct p
         end;
  cbv beta iota in H.

(** ** Slash-separated fields *)

Lemma find_Some_lt c str pos : find c str = Some pos → pos < String.length str.
Proof.
  revert pos. induction str as [|c' str IH]; intros pos; simpl; [discriminate|].
  case_decide; [intros [= <-]; lia|].
  destruct (find c str) as [n|]; simpl; [|discriminate].
  intros [= <-]. specialize (IH n eq_refl). lia.
Qed.

Lemma length_substr_from n str :
  String.length (substr_from n str) = String.length str - n.
Proof.
  revert str. induction n as [|n IH]; intros [|c str]; simpl; try lia.
  apply IH.
Qed.

(** [splitSlashSeparatedField] always returns, and a non-empty text gives at
    least one field. *)
Lemma splitSlashSeparatedField_loop_returns fuel str ret :
  String.length str < fuel →
  ∃ fields,
    splitSlashSeparatedField_loop fuel str ret = Returns (ret ++ fields)
    ∧ (str ≠ "" → fields ≠ []).
Proof.
  revert str ret. induction fuel as [|fuel IH]; intros str ret Hlen; [lia|].
  simpl. destruct (find "/"%char str) as [pos|] eqn:Hfind.
  - apply find_Some_lt in Hfind as Hpos.
    destruct (IH (substr_from (pos + 1) str) (ret ++ [substr_to pos str]))
      as (fields & -> & _).
    { rewrite length_substr_from. lia. }
    exists (substr_to pos str :: fields). rewrite <- app_assoc. split; [reflexivity|done].
  - case_decide as Hempty.
    + exists []. rewrite app_nil_r. split; [reflexivity|done].
    + exists [str]. split; [reflexivity|done].
Qed.

Lemma splitSlashSeparatedField_returns str :
  ∃ fields,
    splitSlashSeparatedField str = Returns fields ∧ (str ≠ "" → fields ≠ []).
Proof.
  destruct (splitSlashSeparatedField_loop_returns (S (String.length str)) str [])
    as (fields & H & Hne); [lia|]. eauto.
Qed.

(** ** The parser compiler *)

Section CompilerFacts.
Variable kECSParserMapper : gmap string ParserType.
Variable kParsersConfig : ParserType → option (Parser → list string → Parser).

(** Section 4.3 of the specification: an option configurator mutates the
    parser's [options] field, and nothing else. *)
Hypothesis kParsersConfig_options_only : ∀ ty config parser args,
  kParsersConfig ty = Some config →
  config parser args = Parser.set_options (Parser.options (config parser args)) parser.

Abbreviation setOptions := (setParserOptions kParsersConfig).
Abbreviation createParser := (createParserFromExpresion kECSParserMapper kParsersConfig).

Lemma setParserOptions_frame parser args :
  setOptions parser args =
    Parser.set_options (Parser.options (setOptions parser args)) parser.
Proof.
  unfold setParserOptions.
  destruct (kParsersConfig (Parser.type parser)) as [config|] eqn:Hcfg.
  - apply (kParsersConfig_options_only _ _ _ _ Hcfg).
  - destruct parser; reflexivity.
Qed.

Lemma createParserFromExpresion_returns exp :
  Expression.text exp ≠ "" →
  ∃ p,
    createParser exp = Returns p
    ∧ Parser.expType p = Expression.type exp
    ∧ Parser.endToken p = Expression.endToken exp.
Proof.
  intros Htext. unfold createParserFromExpresion.
  destruct (splitSlashSeparatedField_returns (Expression.text exp))
    as (fields & -> & Hne).
  destruct fields as [|name args]; [by destruct (Hne Htext)|]. simpl.
  match goal with
  | |- ∃ p, (let '(parser, args) := ?pa in _) = _ ∧ _ =>
      assert (Parser.expType pa.1 = Expression.type exp
              ∧ Parser.endToken pa.1 = Expression.endToken exp) as Hpa;
      [|destruct pa as [parser args']]
  end.
  { repeat case_decide; try (split; reflexivity).
    - destruct args as [|arg0 args']; [split; reflexivity|].
      simpl. destruct (kTempTypeMapper !! arg0); split; reflexivity.
    - simpl. destruct (kECSParserMapper !! name); split; reflexivity. }
  simpl in Hpa. eexists. split; [reflexivity|].
  rewrite setParserOptions_frame. exact Hpa.
Qed.

(** C10.  For a temporary capture [<_name/opt1/...>] whose name is longer
    than the underscore alone, the option configurator is called with the
    options that follow [opt1], whether or not [opt1] names a type of the
    temporary type map; when it does not, the parser type is and stays
    [Any]. *)
Theorem temporary_capture_drops_first_option exp name opt1 opts :
  splitSlashSeparatedField (Expression.text exp) = Returns (name :: opt1 :: opts) →
  front name = "_"%char →
  1 < String.length name →
  let parser ty :=
    Parser.mk name ty (Expression.type exp) (Expression.endToken exp) [] in
  createParser exp =
    Returns (setOptions (parser (default ParserType.Any (kTempTypeMapper !! opt1))) opts)
  ∧ (kTempTypeMapper !! opt1 = None →
     createParser exp = Returns (setOptions (parser ParserType.Any) opts)
     ∧ Parser.type (setOptions (parser ParserType.Any) opts) = ParserType.Any).
Proof.
  intros Hsplit Hfront Hlen parser.
  assert (createParser exp =
          Returns (setOptions
                     (parser (default ParserType.Any (kTempTypeMapper !! opt1))) opts))
    as Hcreate.
  { unfold createParserFromExpresion. rewrite Hsplit. simpl.
    rewrite decide_True by exact Hfront.
    rewrite decide_True by lia.
    destruct (kTempTypeMapper !! opt1); reflexivity. }
  split; [exact Hcreate|].
  intros Hnone. rewrite Hnone in Hcreate. simpl in Hcreate.
  split; [exact Hcreate|].
  rewrite setParserOptions_frame. reflexivity.
Qed.
End CompilerFacts.

Lemma demoParsersConfig_options_only ty config parser args :
  demoParsersConfig ty = Some config →
  config parser args = Parser.set_options (Parser.options (config parser args)) parser.
Proof. destruct ty; intros [= <-]; reflexivity. Qed.

Lemma temporary_capture_drops_first_option_witness :
  let parser ty := Parser.mk "_tmp" ty ExpressionType.Capture " "%char [] in
  createParserFromExpresion demoSchema demoParsersConfig
    (Expression.mk "_tmp/opt1/x" ExpressionType.Capture " "%char) =
    Returns (setParserOptions demoParsersConfig
               (parser (default ParserType.Any (kTempTypeMapper !! "opt1"))) ["x"])
  ∧ (kTempTypeMapper !! "opt1" = None →
     createParserFromExpresion demoSchema demoParsersConfig
       (Expression.mk "_tmp/opt1/x" ExpressionType.Capture " "%char) =
       Returns (setParserOptions demoParsersConfig (parser ParserType.Any) ["x"])
     ∧ Parser.type (setParserOptions demoParsersConfig (parser ParserType.Any) ["x"])
       = ParserType.Any).
Proof.
  apply (temporary_capture_drops_first_option demoSchema demoParsersConfig
           demoParsersConfig_options_only
           (Expression.mk "_tmp/opt1/x" ExpressionType.Capture " "%char)
           "_tmp" "opt1" ["x"]); [reflexivity | reflexivity | simpl; lia].
Defined.

(** In [<_tmp/opt1/x>] the word [opt1] is no type of the temporary map, and
    it is dropped all the same; in [<_ts/timestamp/x>] the first option
    selects the type and the configurator sees the rest. *)
Example temporary_capture_examples :
  kTempTypeMapper !! "opt1" = None
  ∧ createParserFromExpresion demoSchema demoParsersConfig
      (Expression.mk "_tmp/opt1/x" ExpressionType.Capture " "%char) =
    Returns (Parser.mk "_tmp" ParserType.Any ExpressionType.Capture " "%char [])
  ∧ createParserFromExpresion demoSchema demoParsersConfig
      (Expression.mk "_ts/timestamp/x" ExpressionType.Capture " "%char) =
    Returns (Parser.mk "_ts" ParserType.Ts ExpressionType.Capture " "%char ["x"]).
Proof. repeat split; vm_compute; reflexivity. Qed.

(** ** Vectors *)

Lemma items_push_back {A} (v : Vec.t A) x :
  Vec.items (Vec.push_back v x) = Vec.items v ++ [x].
Proof. unfold Vec.push_back. case_decide; reflexivity. Qed.

Lemma items_store {A} r (f : A → A) (v : Vec.t A) :
  Vec.items (Vec.store r f v) =
    if decide (Vec.buffer r = Vec.epoch v)
    then alter f (Vec.index r) (Vec.items v) else Vec.items v.
Proof. unfold Vec.store. case_decide; reflexivity. Qed.

Lemma Forall_items_push_back {A} (P : A → Prop) (v : Vec.t A) x :
  Forall P (Vec.items v) → P x → Forall P (Vec.items (Vec.push_back v x)).
Proof.
  intros Hv Hx. rewrite items_push_back. apply Forall_app. split; [exact Hv|].
  constructor; [exact Hx|constructor].
Qed.

Lemma Forall_items_store {A} (P : A → Prop) r (f : A → A) (v : Vec.t A) :
  (∀ x, P x → P (f x)) →
  Forall P (Vec.items v) → Forall P (Vec.items (Vec.store r f v)).
Proof.
  intros Hf Hv. rewrite items_store. case_decide; [|exact Hv].
  apply Forall_alter; [exact Hv|]. intros x _. apply Hf.
Qed.

(** ** The expression parser *)

(** A token with an empty text is the [EndOfExpr] token, after which the
    cursor is beyond the terminator. *)
Lemma getToken_text tk tok tk' :
  getToken tk = Returns (tok, tk') →
  Token.text tok ≠ "" ∨ stream tk' = PastNul.
Proof.
  destruct tk as [[s|]]; [|discriminate].
  rewrite getToken_Chars. cbv zeta.
  repeat (case_decide; [intros [= <- <-]; left; discriminate|]).
  case_decide as Hnul.
  - intros Heq. rewrite incr_at_NUL in Heq by exact Hnul.
    injection Heq as <- <-. right. reflexivity.
  - destruct s; [discriminate|]. intros [= <- <-]. left. discriminate.
Qed.

Lemma getToken_Literal_text tk tok tk' :
  getToken tk = Returns (tok, tk') →
  Token.type tok = TokenType.Literal → Token.text tok ≠ "".
Proof.
  destruct tk as [[s|]]; [|discriminate].
  rewrite getToken_Chars. cbv zeta.
  repeat (case_decide; [intros [= <- <-]; discriminate|]).
  destruct s; [discriminate|]. intros [= <- <-]. discriminate.
Qed.

Lemma requireToken_Returns_inv tk req ok tk' :
  requireToken tk req = Returns (ok, tk') →
  ∃ tok, getToken tk = Returns (tok, tk') ∧ ok = bool_decide (Token.type tok = req).
Proof.
  unfold requireToken. intros H. inv_bind H. injection H as <- <-. eauto.
Qed.

Lemma peekToken_getToken tk :
  peekToken tk = getToken tk ≫= λ '(tok, _), Returns tok.
Proof. destruct tk. reflexivity. Qed.

Lemma getToken_OpenAngle_front s tok tk' :
  getToken {| stream := Chars s |} = Returns (tok, tk') →
  Token.type tok = TokenType.OpenAngle → front s = "<"%char.
Proof.
  rewrite getToken_Chars. cbv zeta.
  case_decide as Hopen; [done|].
  repeat (case_decide; [intros [= <- <-]; discriminate|]).
  destruct s; [discriminate|]. intros [= <- <-]. discriminate.
Qed.

(** Name the value bound by the [let] at the head of [H]. *)
Ltac head_let H name :=
  lazymatch type of H with
  | (let x := ?v in @?body x) = ?r =>
      pose (name := v);
      let b := eval cbv beta in (body name) in
      change (b = r) in H
  end.

Lemma named_set_type ty e : named e → named (Expression.set_type ty e).
Proof. exact id. Qed.

Lemma named_set_endToken c e : named e → named (Expression.set_endToken c e).
Proof. exact id. Qed.

Lemma parseCapture_named tk expresions tk' expresions' :
  parseCapture tk expresions = Returns (true, tk', expresions') →
  Forall named (Vec.items expresions) →
  Forall named (Vec.items expresions').
Proof.
  intros H Hinv. cbv beta delta [parseCapture] in H.
  inv_bind H. head_let H optional. inv_bind H.
  case_decide as Hlit; [|discriminate].
  head_let H e1.
  assert (Forall named (Vec.items e1)) as He1.
  { apply Forall_items_push_back; [exact Hinv|].
    destruct optional; [|injection E0 as <- <-];
      eapply getToken_Literal_text; eassumption. }
  clearbody e1.
  inv_bind H. destruct (negb b); [discriminate|].
  head_let H e2.
  assert (Forall named (Vec.items e2)) as He2.
  { subst e2. destruct optional; [|exact He1].
    apply Forall_items_store; [apply named_set_type|exact He1]. }
  clearbody e2.
  inv_bind H. case_decide as Hq.
  - inv_bind H. inv_bind H. destruct (negb b0); [discriminate|].
    head_let H prevCapture. head_let H e3.
    assert (Forall named (Vec.items e3)) as He3.
    { apply Forall_items_store; [apply named_set_type|exact He2]. }
    clearbody e3.
    inv_bind H. head_let H e4. inv_bind H.
    assert (Forall named (Vec.items e4)) as He4.
    { apply Forall_items_push_back; [exact He3|].
      destruct (getToken_text _ _ _ E5) as [Htext|Hpast]; [exact Htext|].
      destruct t8 as [p]. simpl in Hpast. subst p. discriminate. }
    clearbody e4.
    destruct (negb b1); [discriminate|].
    inv_bind H. injection H as <- <-.
    repeat apply Forall_items_store; auto using named_set_endToken.
  - inv_bind H. injection H as <- <-.
    apply Forall_items_store; auto using named_set_endToken.
Qed.

Lemma parseLogQlExpr_loop_named fuel tokenizer expresions expresions' :
  parseLogQlExpr_loop fuel tokenizer expresions = Returns expresions' →
  Forall named (Vec.items expresions) →
  Forall named (Vec.items expresions').
Proof.
  revert tokenizer expresions.
  induction fuel as [|fuel IH]; intros tokenizer expresions H Hinv; [discriminate|].
  simpl in H. inv_bind H.
  destruct (Token.type t) eqn:Hty; try discriminate.
  - inv_bind H. destruct b; simpl in H.
    + inv_bind H. case_decide; [inv_bind H; discriminate|].
      eapply IH; [exact H|]. eapply parseCapture_named; eassumption.
    + inv_bind H. discriminate.
  - eapply IH; [exact H|].
    apply Forall_items_push_back; [exact Hinv|].
    eapply getToken_Literal_text; eassumption.
  - injection H as <-. exact Hinv.
Qed.

(** Every expression of a compiled pattern has a non-empty text. *)
Lemma parseLogQlExpr_named expr expresions :
  parseLogQlExpr expr = Returns expresions → Forall named (Vec.items expresions).
Proof.
  intros H. eapply parseLogQlExpr_loop_named; [exact H|]. constructor.
Qed.

Section ParserListFacts.
Variable kECSParserMapper : gmap string ParserType.
Variable kParsersConfig : ParserType → option (Parser → list string → Parser).

Hypothesis kParsersConfig_options_only : ∀ ty config parser args,
  kParsersConfig ty = Some config →
  config parser args = Parser.set_options (Parser.options (config parser args)) parser.

Abbreviation parserList := (getParserList kECSParserMapper kParsersConfig).
Abbreviation parserList_loop := (getParserList_loop kECSParserMapper kParsersConfig).

Abbreviation derived_from := (derived_from kECSParserMapper kParsersConfig).

Lemma getParserList_loop_one e :
  named e → ∃ p, derived_from e p.
Proof.
  intros He. unfold derived_from. simpl.
  destruct (Expression.type e) eqn:Hty;
    try (destruct (createParserFromExpresion_returns kECSParserMapper kParsersConfig
                     kParsersConfig_options_only e He) as (p & -> & Hexp & Hend);
         exists p; simpl; rewrite <- Hty; auto).
  eexists. simpl. repeat split.
Qed.

Lemma getParserList_loop_cons e es p :
  parserList_loop [e] = Returns [p] →
  parserList_loop (e :: es) = (ps ← parserList_loop es; Returns (p :: ps)).
Proof.
  simpl. intros H.
  destruct (match Expression.type e with
            | ExpressionType.Literal => _
            | _ => _
            end) as [p'| | |]; simpl in H; try discriminate.
  injection H as ->. reflexivity.
Qed.

Lemma getParserList_loop_Forall2 es :
  Forall named es →
  ∃ ps, parserList_loop es = Returns ps ∧ Forall2 derived_from es ps.
Proof.
  induction 1 as [|e es He _ (ps & Hps & Hall)]; [exists []; split; [reflexivity|constructor]|].
  destruct (getParserList_loop_one e He) as (p & Hp).
  exists (p :: ps). split; [|constructor; assumption].
  rewrite (getParserList_loop_cons e es p) by apply Hp.
  rewrite Hps. reflexivity.
Qed.

(** C7.  For the expression list of a successfully compiled pattern,
    [getParserList] returns a parser list of the same length, and the
    parser at each position is the one made of the expression at that
    position, with its expression tag and its [endToken]. *)
Theorem getParserList_positions expr expressions :
  parseLogQlExpr expr = Returns expressions →
  ∃ parsers,
    parserList expressions = Returns parsers
    ∧ length parsers = length (Vec.items expressions)
    ∧ ∀ i e, Vec.items expressions !! i = Some e →
        ∃ p, parsers !! i = Some p
             ∧ parserList_loop [e] = Returns [p]
             ∧ Parser.expType p = Expression.type e
             ∧ Parser.endToken p = Expression.endToken e.
Proof.
  intros Hparse. apply parseLogQlExpr_named in Hparse.
  destruct (getParserList_loop_Forall2 _ Hparse) as (parsers & Hps & Hall).
  exists parsers. split; [exact Hps|]. split.
  - symmetry. eapply Forall2_length. exact Hall.
  - intros i e Hi.
    destruct (Forall2_lookup_l _ _ _ _ _ Hall Hi) as (p & Hp & Hd).
    exists p. split; [exact Hp|exact Hd].
Qed.
End ParserListFacts.

Lemma getParserList_positions_witness :
  let expressions :=
    Vec.mk [Expression.mk "source.ip" ExpressionType.Capture ":"%char;
            Expression.mk ":" ExpressionType.Literal NUL;
            Expression.mk "source.port" ExpressionType.Capture NUL] 4 3 in
  ∃ parsers,
    getParserList demoSchema demoParsersConfig expressions = Returns parsers
    ∧ length parsers = length (Vec.items expressions)
    ∧ ∀ i e, Vec.items expressions !! i = Some e →
        ∃ p, parsers !! i = Some p
             ∧ getParserList_loop demoSchema demoParsersConfig [e] = Returns [p]
             ∧ Parser.expType p = Expression.type e
             ∧ Parser.endToken p = Expression.endToken e.
Proof.
  apply (getParserList_positions demoSchema demoParsersConfig
           demoParsersConfig_options_only "<source.ip>:<source.port>").
  reflexivity.
Defined.

(** The parser list of scenario S1. *)
Example getParserList_S1 :
  (parseLogQlExpr "<source.ip>:<source.port>"
     ≫= getParserList demoSchema demoParsersConfig) =
  Returns [Parser.mk "source.ip" ParserType.IP ExpressionType.Capture ":"%char [];
           Parser.mk ":" ParserType.Literal ExpressionType.Literal NUL [];
           Parser.mk "source.port" ParserType.Number ExpressionType.Capture NUL []].
Proof. vm_compute. reflexivity. Qed.

(** ** The pipeline executor *)

Section ExecutorFacts.
Context {Value : Type}.
Variable kAvailableParsers : ParserType → option (@ParserFunc Value).

Abbreviation step := (executeParserList_step kAvailableParsers).
Abbreviation loop := (executeParserList_loop kAvailableParsers).

Lemma executeParserList_loop_cons parser parsers st :
  loop (parser :: parsers) st =
  match step parser st with
  | Continue st' => loop parsers st'
  | Return r result => (r, result)
  end.
Proof. reflexivity. Qed.

Lemma step_success parser st parseFunc it' result' :
  kAvailableParsers (Parser.type parser) = Some parseFunc →
  parseFunc (eventIt st) parser (result st) = (true, it', result') →
  step parser st =
    Continue (mkExecState it' true
                (trace st +:+ success_msg (Parser.name parser)) result').
Proof.
  intros Htab Hrun. unfold executeParserList_step.
  rewrite Htab, Hrun. reflexivity.
Qed.

Lemma step_failure parser st parseFunc it' result' :
  kAvailableParsers (Parser.type parser) = Some parseFunc →
  parseFunc (eventIt st) parser (result st) = (false, it', result') →
  step parser st =
    if decide (Parser.expType parser = ExpressionType.OptionalCapture
               ∨ Parser.expType parser = ExpressionType.OrCapture)
    then Continue (mkExecState (eventIt st) true (trace st) result')
    else Return (ExecuteResult.mk false
                   (trace st +:+ failure_msg (Parser.name parser))) result'.
Proof.
  intros Htab Hrun. unfold executeParserList_step.
  rewrite Htab, Hrun. reflexivity.
Qed.

(** C9.  When a parser tagged [OptionalCapture] fails, the executor step
    leaves the cursor where it was before the step (and the trace
    untouched), and the loop goes on with the remaining parsers from that
    state. *)
Theorem optional_failure_keeps_cursor parser parsers st parseFunc it' result' :
  Parser.expType parser = ExpressionType.OptionalCapture →
  kAvailableParsers (Parser.type parser) = Some parseFunc →
  parseFunc (eventIt st) parser (result st) = (false, it', result') →
  ∃ st',
    executeParserList_step kAvailableParsers parser st = Continue st'
    ∧ eventIt st' = eventIt st
    ∧ st' = mkExecState (eventIt st) true (trace st) result'
    ∧ executeParserList_loop kAvailableParsers (parser :: parsers) st
      = executeParserList_loop kAvailableParsers parsers st'.
Proof.
  intros Hopt Htab Hrun.
  eexists. rewrite executeParserList_loop_cons.
  rewrite (step_failure _ _ _ _ _ Htab Hrun).
  rewrite decide_True by (left; exact Hopt).
  repeat split.
Qed.

(** C1 (as the code behaves).  In [<a>?<b>], when the first alternative
    [a] succeeds the executor goes on to run the parse function of the
    second alternative [b], at the cursor [a] has advanced to: the
    [ParseResult] handed back is the one [b] produced, and a failure of
    [b] there fails the whole parse. *)
Theorem or_success_still_runs_second a b event result fa fb it1 r1 okb it2 r2 :
  Parser.expType a = ExpressionType.OrCapture →
  Parser.expType b = ExpressionType.Capture →
  kAvailableParsers (Parser.type a) = Some fa →
  kAvailableParsers (Parser.type b) = Some fb →
  fa event a result = (true, it1, r1) →
  fb it1 b r1 = (okb, it2, r2) →
  executeParserList kAvailableParsers event [a; b] result =
    (if okb
     then ExecuteResult.mk true
            (("" +:+ success_msg (Parser.name a)) +:+ success_msg (Parser.name b))
     else ExecuteResult.mk false
            (("" +:+ success_msg (Parser.name a)) +:+ failure_msg (Parser.name b)),
     r2).
Proof.
  intros Ha Hb Hfa Hfb Hra Hrb. unfold executeParserList.
  rewrite executeParserList_loop_cons.
  rewrite (step_success a (mkExecState event true "" result) fa it1 r1 Hfa Hra).
  rewrite executeParserList_loop_cons.
  destruct okb.
  - rewrite (step_success b (mkExecState it1 true _ r1) fb it2 r2 Hfb Hrb).
    reflexivity.
  - rewrite (step_failure b (mkExecState it1 true _ r1) fb it2 r2 Hfb Hrb).
    rewrite decide_False; [reflexivity|].
    rewrite Hb. intros [?|?]; discriminate.
Qed.
End ExecutorFacts.

(** The parsers of [<?n> logged in], with [n] a number, on an event that
    starts with the literal. *)
Lemma optional_failure_keeps_cursor_witness :
  ∃ st',
    executeParserList_step demoParsers
      (Parser.mk "n" ParserType.Number ExpressionType.OptionalCapture " "%char [])
      (mkExecState " logged in" true "" ∅) = Continue st'
    ∧ eventIt st' = " logged in"
    ∧ st' = mkExecState " logged in" true "" ∅
    ∧ executeParserList_loop demoParsers
        [Parser.mk "n" ParserType.Number ExpressionType.OptionalCapture " "%char [];
         Parser.mk " logged in" ParserType.Literal ExpressionType.Literal NUL []]
        (mkExecState " logged in" true "" ∅)
      = executeParserList_loop demoParsers
          [Parser.mk " logged in" ParserType.Literal ExpressionType.Literal NUL []] st'.
Proof.
  apply (optional_failure_keeps_cursor demoParsers
           (Parser.mk "n" ParserType.Number ExpressionType.OptionalCapture " "%char [])
           [Parser.mk " logged in" ParserType.Literal ExpressionType.Literal NUL []]
           (mkExecState " logged in" true "" ∅)
           parseNumber " logged in" ∅); reflexivity.
Defined.

(** The parsers of [<a>?<b>] under an empty schema, run on [hello]: the
    first alternative takes the whole event, and the second one is run all
    the same and writes an empty [b]. *)
Lemma or_success_still_runs_second_witness :
  executeParserList literalAndAnyParsers "hello"
    [Parser.mk "a" ParserType.Any ExpressionType.OrCapture NUL [];
     Parser.mk "b" ParserType.Any ExpressionType.Capture NUL []] ∅
  = (ExecuteResult.mk true
       (("" +:+ success_msg "a") +:+ success_msg "b"),
     <["b" := ""]> (<["a" := "hello"]> ∅)).
Proof.
  apply (or_success_still_runs_second literalAndAnyParsers
           (Parser.mk "a" ParserType.Any ExpressionType.OrCapture NUL [])
           (Parser.mk "b" ParserType.Any ExpressionType.Capture NUL [])
           "hello" ∅ parseAny parseAny "" (<["a" := "hello"]> ∅)
           true "" (<["b" := ""]> (<["a" := "hello"]> ∅))); reflexivity.
Defined.

(** The same through the compiler: the function compiled from [<a>?<b>]
    with an empty schema returns both [a] and [b] for the event [hello]. *)
Example alternation_keeps_both_captures :
  (parserFn ← getParserOp ∅ noParsersConfig literalAndAnyParsers "<a>?<b>";
   Returns (parserFn "hello" ∅))
  = Returns (ExecuteResult.mk true (success_msg "a" +:+ success_msg "b"),
             <["b" := ""]> (<["a" := "hello"]> ∅)).
Proof. vm_compute. reflexivity. Qed.

(** Scenario S4, the path that works: [a] is a number and fails on
    [hello], the cursor is restored and [b] takes the event. *)
Example alternation_S4 :
  (parserFn ← getParserOp {["a" := ParserType.Number]} noParsersConfig demoParsers
                "<a>?<b>";
   Returns (parserFn "hello" ∅))
  = Returns (ExecuteResult.mk true (success_msg "b"), {["b" := "hello"]}).
Proof. vm_compute. reflexivity. Qed.

(** With both alternatives numbers, the event [42] matches [a]; [b] is
    then run at the end of the event, and its failure there fails the
    parse. *)
Example alternation_second_failure_after_first_success :
  (executeParserList demoParsers "42"
     [Parser.mk "a" ParserType.Number ExpressionType.OrCapture NUL [];
      Parser.mk "b" ParserType.Number ExpressionType.Capture NUL []] ∅).1
  = ExecuteResult.mk false (success_msg "a" +:+ failure_msg "b").
Proof. vm_compute. reflexivity. Qed.

(** ** The decoder asset builder *)

Lemma HasMember_true key members :
  HasMember key members = true ↔ is_Some (FindMember key members).
Proof. unfold HasMember. apply bool_decide_eq_true. Qed.

Lemma HasMember_false key members :
  HasMember key members = false ↔ FindMember key members = None.
Proof.
  unfold HasMember. rewrite bool_decide_eq_false, <- eq_None_not_Some. reflexivity.
Qed.

Lemma FindMember_Some_member key members v :
  FindMember key members = Some v → member key members = v.
Proof. unfold member. intros ->. reflexivity. Qed.

Lemma elem_of_HasMember k v members :
  (k, v) ∈ members → HasMember k members = true.
Proof.
  intros Hin. apply HasMember_true.
  induction members as [|[k' v'] members IH]; [by apply elem_of_nil in Hin|].
  simpl. case_decide; [eauto|].
  apply elem_of_cons in Hin as [[= -> ->]|Hin]; [done|]. apply IH, Hin.
Qed.

Lemma filter_ext_in {A} (P Q : A → Prop) `{∀ x, Decision (P x)} `{∀ x, Decision (Q x)}
    (l : list A) :
  (∀ x, x ∈ l → P x ↔ Q x) → filter P l = filter Q l.
Proof.
  induction l as [|x l IH]; intros Hext; [reflexivity|].
  rewrite !filter_cons.
  assert (filter P l = filter Q l) as ->.
  { apply IH. intros y Hy. apply Hext. right. exact Hy. }
  destruct (decide (P x)) as [HP|HP], (decide (Q x)) as [HQ|HQ];
    try reflexivity; exfalso; apply (Hext x) in HP || apply (Hext x) in HQ;
    try (left; fail); tauto.
Qed.

Section BuilderFacts.
Context {Observable Event TracerFn : Type}.
Variable filter : Observable → (Event → bool) → Observable.
Variable isDecoded : Event → bool.
Variable tracerLogger : Tracer → TracerFn.
Variable getBuilder : string → Outcome (@BuilderVariant Observable TracerFn).

Abbreviation build := (buildStage tracerLogger getBuilder).
Abbreviation rest := (restOfStages tracerLogger getBuilder).
Abbreviation decoder := (assetBuilderDecoder filter isDecoded tracerLogger getBuilder).

(** The loop over the members appends, in document order, the operator of
    every member whose name has not been processed. *)
Lemma restOfStages_appends objDef tr proccessed stages ops :
  NoDup (base.filter (λ m, m.1 ∉ proccessed) objDef).*1 →
  Forall2 (λ m op, build m.1 m.2 tr = Returns op)
    (base.filter (λ m, m.1 ∉ proccessed) objDef) ops →
  rest objDef tr proccessed stages = Returns (stages ++ ops).
Proof.
  revert proccessed stages ops.
  induction objDef as [|[stageName stageDef] objDef IH];
    intros proccessed stages ops Hdup Hops.
  - rewrite filter_nil in Hops. apply Forall2_nil_inv_l in Hops as ->.
    simpl. rewrite app_nil_r. reflexivity.
  - simpl. rewrite filter_cons in Hdup, Hops. simpl in Hdup, Hops.
    destruct (decide (stageName ∉ proccessed)) as [Hnew|Hold].
    + apply Forall2_cons_inv_l in Hops as (op & ops' & Hop & Hops & ->).
      simpl in Hop. rewrite Hop. simpl.
      rewrite fmap_cons in Hdup. apply NoDup_cons in Hdup as [Hfresh Hdup].
      assert (base.filter (λ m, m.1 ∉ {[stageName]} ∪ proccessed) objDef
              = base.filter (λ m, m.1 ∉ proccessed) objDef) as Hsame.
      { apply filter_ext_in. intros [k v] Hin. simpl. split; [set_solver|].
        intros Hk. apply not_elem_of_union. split; [|exact Hk].
        intros ->%elem_of_singleton. apply Hfresh.
        apply list_elem_of_fmap. exists (stageName, v). split; [reflexivity|].
        apply list_elem_of_filter. split; [exact Hk|exact Hin]. }
      rewrite (IH _ _ ops'); rewrite ?Hsame; try assumption.
      rewrite <- app_assoc. reflexivity.
    + apply IH; assumption.
Qed.

Lemma furtherStages_filter objDef (proccessed : gset string) :
  (∀ k, k ∈ proccessed → k ∈ reservedAttributes) →
  (∀ k, k ∈ reservedAttributes → HasMember k objDef = true → k ∈ proccessed) →
  base.filter (λ m, m.1 ∉ proccessed) objDef = furtherStages objDef.
Proof.
  intros Hsub Hsup. apply filter_ext_in. intros [k v] Hin. simpl.
  split; intros Hk Hres; apply Hk; [|by apply Hsub].
  apply Hsup; [exact Hres|]. eapply elem_of_HasMember, Hin.
Qed.

(** C4.  For a definition with a string [name], a [check] stage, well-formed
    optional attributes and further stage members with pairwise distinct
    names, all of whose builders succeed, the decoder hands to
    [combinator.chain] the list made of the implicit not-yet-decoded filter,
    then the [check] operator, then the operators of the further stages in
    document order; the connectable's operator is what the combinator
    returns for that list. *)
Theorem stages_chained_in_definition_order objDef name parents check opcheck ops :
  FindMember "name" objDef = Some (JString name) →
  parentsAre objDef parents →
  metadataIsObject objDef →
  FindMember "check" objDef = Some check →
  build "check" check (Tracer.mk name) = Returns opcheck →
  NoDup (furtherStages objDef).*1 →
  Forall2 (λ m op, build m.1 m.2 (Tracer.mk name) = Returns op)
    (furtherStages objDef) ops →
  let stages := notDecodedFilter filter isDecoded :: opcheck :: ops in
  decoder (JObject objDef) =
    chainStages getBuilder name parents (Tracer.mk name) stages
  ∧ ∀ chain composed,
      getBuilder "combinator.chain" = Returns (IsCombinatorBuilder chain) →
      chain stages = Returns composed →
      decoder (JObject objDef) =
        Returns (Connectable.mk name parents composed (Tracer.mk name)).
Proof.
  intros Hname Hparents Hmeta Hcheck Hopcheck Hdup Hops stages.
  assert (decoder (JObject objDef) =
          chainStages getBuilder name parents (Tracer.mk name) stages) as Hdec.
  { unfold assetBuilderDecoder.
    assert (HasMember "name" objDef = true) as -> by (apply HasMember_true; eauto).
    rewrite (FindMember_Some_member _ _ _ Hname). simpl.
    assert (HasMember "check" objDef = true) as Hhas by (apply HasMember_true; eauto).
    unfold parentsAre in Hparents. unfold metadataIsObject in Hmeta.
    destruct (FindMember "parents" objDef) as [pv|] eqn:Hp;
      [destruct Hparents as (arr & -> & Harr);
       assert (HasMember "parents" objDef = true) as Hhp by (apply HasMember_true; eauto);
       rewrite Hhp, (FindMember_Some_member _ _ _ Hp); simpl; rewrite Harr; simpl
      |subst parents;
       assert (HasMember "parents" objDef = false) as Hhp by (by apply HasMember_false);
       rewrite Hhp; simpl];
    (destruct (FindMember "metadata" objDef) as [mv|] eqn:Hm;
      [destruct Hmeta as (obj & ->);
       assert (HasMember "metadata" objDef = true) as Hhm by (apply HasMember_true; eauto);
       rewrite Hhm, (FindMember_Some_member _ _ _ Hm); simpl
      |assert (HasMember "metadata" objDef = false) as Hhm by (by apply HasMember_false);
       rewrite Hhm; simpl]);
    rewrite Hhas, (FindMember_Some_member _ _ _ Hcheck), Hopcheck; simpl;
    (erewrite restOfStages_appends; [reflexivity| |]);
    (rewrite furtherStages_filter; [eassumption| |]);
    try (intros k; unfold reservedAttributes;
         rewrite ?elem_of_union, ?elem_of_singleton, ?elem_of_cons, ?elem_of_nil,
           ?elem_of_empty; tauto);
    (intros k; unfold reservedAttributes;
     rewrite ?elem_of_union, ?elem_of_singleton, ?elem_of_cons, ?elem_of_nil,
       ?elem_of_empty;
     intros [->|[->|[->|[->|[]]]]] Hk; try tauto; congruence). }
  split; [exact Hdec|].
  intros chain composed Hchain Hcomposed. rewrite Hdec.
  unfold chainStages. rewrite Hchain. simpl. rewrite Hcomposed. reflexivity.
Qed.
End BuilderFacts.

Lemma stages_chained_in_definition_order_witness :
  let stages :=
    [notDecodedFilter demoFilter (λ b : bool, b);
     demoStage "check"; demoStage "parse"; demoStage "normalize"] in
  demoBuild (JObject decoderS7) =
    chainStages demoRegistry "d1" [] (Tracer.mk "d1") stages
  ∧ ∀ chain composed,
      demoRegistry "combinator.chain" = Returns (IsCombinatorBuilder chain) →
      chain stages = Returns composed →
      demoBuild (JObject decoderS7) =
        Returns (Connectable.mk "d1" [] composed (Tracer.mk "d1")).
Proof.
  apply (stages_chained_in_definition_order demoFilter (λ b : bool, b) (λ _, tt)
           demoRegistry decoderS7 "d1" [] (JObject []) (demoStage "check")
           [demoStage "parse"; demoStage "normalize"]).
  - reflexivity.
  - reflexivity.
  - exact I.
  - reflexivity.
  - reflexivity.
  - apply (bool_decide_unpack _). vm_compute. exact I.
  - repeat constructor.
Defined.

(** Scenario S7: the connectable is named [d1], has no parents, and its
    operator runs the stages in the order not-decoded filter, [check],
    [parse], [normalize]. *)
Example decoder_S7 :
  (λ c, (Connectable.name c, Connectable.parents c, Connectable.op c []))
    <$> demoBuild (JObject decoderS7)
  = Returns ("d1", [], ["not-decoded"; "check"; "parse"; "normalize"]).
Proof. vm_compute. reflexivity. Qed.

(** [check] comes second also when the document lists it last. *)
Example decoder_check_listed_last :
  (λ c, Connectable.op c [])
    <$> demoBuild (JObject [("parse", JObject []); ("name", JString "d1");
                            ("normalize", JObject []); ("check", JObject [])])
  = Returns ["not-decoded"; "check"; "parse"; "normalize"].
Proof. vm_compute. reflexivity. Qed.

Lemma collectStrings_cases arr acc :
  (∃ l, collectStrings arr acc = Returns l) ∨ (∃ e, collectStrings arr acc = Throws e).
Proof.
  revert acc. induction arr as [|v arr IH]; intros acc; simpl; [eauto|].
  destruct v; simpl; eauto.
Qed.

Section MandatoryAttributes.
Context {Observable Event TracerFn : Type}.
Variable filter : Observable → (Event → bool) → Observable.
Variable isDecoded : Event → bool.
Variable tracerLogger : Tracer → TracerFn.
Variable getBuilder : string → Outcome (@BuilderVariant Observable TracerFn).

Abbreviation decoder' := (assetBuilderDecoder filter isDecoded tracerLogger getBuilder).

Lemma missing_name_throws objDef :
  HasMember "name" objDef = false →
  decoder' (JObject objDef) =
    Throws (MkExn RuntimeError
              "Decoder builder expects definition to have a name attribute.").
Proof. intros H. unfold assetBuilderDecoder. rewrite H. reflexivity. Qed.

Lemma missing_check_throws objDef :
  HasMember "check" objDef = false →
  ∃ e, decoder' (JObject objDef) = Throws e.
Proof.
  intros Hcheck. unfold assetBuilderDecoder.
  destruct (HasMember "name" objDef); [|simpl; eauto].
  destruct (member "name" objDef); simpl; eauto.
  destruct (HasMember "parents" objDef); simpl.
  - destruct (member "parents" objDef); simpl; eauto.
    destruct (collectStrings_cases elems []) as [[l ->]|[e ->]]; simpl; eauto.
    destruct (HasMember "metadata" objDef); simpl.
    + destruct (member "metadata" objDef); simpl; eauto; rewrite Hcheck; simpl; eauto.
    + rewrite Hcheck. simpl. eauto.
  - destruct (HasMember "metadata" objDef); simpl.
    + destruct (member "metadata" objDef); simpl; eauto; rewrite Hcheck; simpl; eauto.
    + rewrite Hcheck. simpl. eauto.
Qed.

Lemma missing_check_invalid_argument objDef name parents :
  FindMember "name" objDef = Some (JString name) →
  parentsAre objDef parents →
  metadataIsObject objDef →
  HasMember "check" objDef = false →
  decoder' (JObject objDef) =
    Throws (MkExn InvalidArgument "Decoder builder expects value to have a check stage.").
Proof.
  intros Hname Hparents Hmeta Hcheck. unfold assetBuilderDecoder.
  assert (HasMember "name" objDef = true) as -> by (apply HasMember_true; eauto).
  rewrite (FindMember_Some_member _ _ _ Hname). simpl.
  unfold parentsAre in Hparents. unfold metadataIsObject in Hmeta.
  destruct (FindMember "parents" objDef) as [pv|] eqn:Hp;
    [destruct Hparents as (arr & -> & Harr);
     assert (HasMember "parents" objDef = true) as Hhp by (apply HasMember_true; eauto);
     rewrite Hhp, (FindMember_Some_member _ _ _ Hp); simpl; rewrite Harr; simpl
    |assert (HasMember "parents" objDef = false) as Hhp by (by apply HasMember_false);
     rewrite Hhp; simpl];
  (destruct (FindMember "metadata" objDef) as [mv|] eqn:Hm;
    [destruct Hmeta as (obj & ->);
     assert (HasMember "metadata" objDef = true) as Hhm by (apply HasMember_true; eauto);
     rewrite Hhm, (FindMember_Some_member _ _ _ Hm); simpl
    |assert (HasMember "metadata" objDef = false) as Hhm by (by apply HasMember_false);
     rewrite Hhm; simpl]);
  rewrite Hcheck; reflexivity.
Qed.

(** C6, with the error kinds the code raises. A definition object without
    [name], or without [check], is never built into a connectable: the
    builder throws. Without [name] the exception is a runtime error; without
    [check], for a definition whose [name] is a string and whose optional
    attributes are well formed, it is an invalid-argument error. *)
Theorem missing_mandatory_attribute objDef :
  HasMember "name" objDef = false ∨ HasMember "check" objDef = false →
  ∃ e,
    decoder' (JObject objDef) = Throws e
    ∧ (HasMember "name" objDef = false →
       e = MkExn RuntimeError
             "Decoder builder expects definition to have a name attribute.")
    ∧ (∀ name parents,
         FindMember "name" objDef = Some (JString name) →
         parentsAre objDef parents →
         metadataIsObject objDef →
         HasMember "check" objDef = false →
         e = MkExn InvalidArgument
               "Decoder builder expects value to have a check stage.").
Proof.
  intros Hmissing.
  assert (∃ e, decoder' (JObject objDef) = Throws e) as [e He].
  { destruct Hmissing as [Hname|Hcheck].
    - rewrite (missing_name_throws _ Hname). eauto.
    - apply missing_check_throws, Hcheck. }
  exists e. split; [exact He|]. split.
  - intros Hname. rewrite (missing_name_throws _ Hname) in He. congruence.
  - intros name parents Hname Hparents Hmeta Hcheck.
    rewrite (missing_check_invalid_argument _ _ _ Hname Hparents Hmeta Hcheck) in He.
    congruence.
Qed.
End MandatoryAttributes.

Lemma missing_mandatory_attribute_witness :
  ∃ e,
    demoBuild (JObject [("name", JString "d1"); ("parse", JObject [])]) = Throws e
    ∧ (HasMember "name" [("name", JString "d1"); ("parse", JObject [])] = false →
       e = MkExn RuntimeError
             "Decoder builder expects definition to have a name attribute.")
    ∧ (∀ name parents,
         FindMember "name" [("name", JString "d1"); ("parse", JObject [])]
           = Some (JString name) →
         parentsAre [("name", JString "d1"); ("parse", JObject [])] parents →
         metadataIsObject [("name", JString "d1"); ("parse", JObject [])] →
         HasMember "check" [("name", JString "d1"); ("parse", JObject [])] = false →
         e = MkExn InvalidArgument
               "Decoder builder expects value to have a check stage.").
Proof.
  apply (missing_mandatory_attribute demoFilter (λ b : bool, b) (λ _, tt) demoRegistry
           [("name", JString "d1"); ("parse", JObject [])]).
  right. reflexivity.
Defined.

(** C6 does not hold of a definition without [check] as the specification
    words it: the exception thrown is an invalid-argument error, not a
    runtime error. *)
Lemma missing_check_is_not_a_runtime_error :
  demoBuild (JObject [("name", JString "d1"); ("parse", JObject [])]) =
    Throws (MkExn InvalidArgument "Decoder builder expects value to have a check stage.")
  ∧ ¬ ∃ e,
        demoBuild (JObject [("name", JString "d1"); ("parse", JObject [])]) = Throws e
        ∧ kind e = RuntimeError.
Proof.
  assert (demoBuild (JObject [("name", JString "d1"); ("parse", JObject [])]) =
          Throws (MkExn InvalidArgument
                    "Decoder builder expects value to have a check stage.")) as H
    by (vm_compute; reflexivity).
  split; [exact H|].
  intros (e & He & Hkind). rewrite H in He. injection He as <-. discriminate.
Qed.

(** ** Back-to-back captures *)

Lemma getToken_at_open s :
  getToken {| stream := Chars (String "<"%char s) |} =
    Returns (Token.mk "<" 1 TokenType.OpenAngle, {| stream := Chars s |}).
Proof. reflexivity. Qed.

Lemma getToken_at_close s :
  getToken {| stream := Chars (String ">"%char s) |} =
    Returns (Token.mk ">" 1 TokenType.CloseAngle, {| stream := Chars s |}).
Proof. reflexivity. Qed.

Lemma no_nul_cons c s : no_nul (String c s) = true ↔ c ≠ NUL ∧ no_nul s = true.
Proof.
  unfold no_nul. simpl. rewrite andb_true_iff, bool_decide_eq_true. reflexivity.
Qed.

Lemma no_nul_app s t : no_nul (s +:+ t) = true ↔ no_nul s = true ∧ no_nul t = true.
Proof.
  induction s as [|c s IH]; [rewrite app_empty_l; tauto|].
  rewrite app_cons, !no_nul_cons, IH. tauto.
Qed.

Lemma suffix_refl s : is_suffix s s.
Proof. exists "". reflexivity. Qed.

Lemma suffix_trans p s t : is_suffix p s → is_suffix s t → is_suffix p t.
Proof.
  intros [q ->] [q' ->]. exists (q' +:+ q). rewrite app_assoc_str. reflexivity.
Qed.

Lemma suffix_cons p c s : is_suffix p s → is_suffix p (String c s).
Proof. intros [q ->]. exists (String c q). reflexivity. Qed.

Lemma suffix_app p q s : is_suffix p s → is_suffix p (q +:+ s).
Proof.
  intros [q' ->]. exists (q +:+ q'). rewrite app_assoc_str. reflexivity.
Qed.

Section BackToBack.
(** The pattern is [pre +:+ "><" +:+ rest]: a closing bracket directly
    followed by an opening one.  [at_ pre] is the cursor with [pre] still to
    be read before that place. *)
Variable rest : string.

Abbreviation at_ := (cursor_before rest).
Abbreviation after_close := (cursor_between rest).

Lemma plainRun_before pre :
  no_nul pre = true →
  ∃ pre',
    is_suffix pre' pre
    ∧ (plainRun (pre +:+ String ">"%char (String "<"%char rest))).2
      = pre' +:+ String ">"%char (String "<"%char rest)
    ∧ no_nul pre' = true
    ∧ String.length pre' ≤ String.length pre.
Proof.
  induction pre as [|c pre IH]; intros Hnn.
  - exists "". repeat split; [apply suffix_refl|simpl; lia].
  - pose proof Hnn as Hnn0.
    apply no_nul_cons in Hnn as [Hc Hnn].
    rewrite app_cons. simpl. destruct (plain_char c).
    + destruct (IH Hnn) as (pre' & Hq & Hrun & Hnn' & Hlen).
      destruct (plainRun _) as [run rest']. simpl in *.
      exists pre'.
      repeat split; [apply suffix_cons, Hq|exact Hrun|exact Hnn'|lia].
    + exists (String c pre). repeat split; [apply suffix_refl|exact Hnn0|simpl; lia].
Qed.

(** A token read before the place [><] is not [EndOfExpr], and leaves the
    cursor before that place again, nearer to it; the token read at the
    place is the closing bracket. *)
Lemma getToken_before pre :
  no_nul pre = true →
  ∃ tok tk',
    getToken (at_ pre) = Returns (tok, tk')
    ∧ Token.type tok ≠ TokenType.EndOfExpr
    ∧ ((∃ pre', tk' = at_ pre' ∧ is_suffix pre' pre ∧ no_nul pre' = true
                ∧ String.length pre' < String.length pre)
       ∨ (pre = "" ∧ Token.type tok = TokenType.CloseAngle ∧ tk' = after_close)).
Proof.
  intros Hnn. destruct pre as [|c pre].
  - eexists _, _. split; [apply getToken_at_close|].
    split; [discriminate|]. right. repeat split.
  - apply no_nul_cons in Hnn as [Hc Hnn].
    unfold cursor_before. rewrite app_cons, getToken_Chars. cbv zeta.
    rewrite incr_Chars_cons by exact Hc. simpl front.
    assert (∃ pre',
               {| stream := Chars (pre +:+ String ">"%char (String "<"%char rest)) |}
                 = at_ pre'
               ∧ is_suffix pre' (String c pre) ∧ no_nul pre' = true
               ∧ String.length pre' < String.length (String c pre)) as Hnext.
    { exists pre.
      repeat split; [apply suffix_cons, suffix_refl|exact Hnn|simpl; lia]. }
    repeat (case_decide;
            [eexists _, _; split; [reflexivity|]; split; [discriminate|]; left; exact Hnext|]).
    rewrite decide_False by exact Hc.
    destruct (plainRun_before pre Hnn) as (pre' & Hq & Hrun & Hnn' & Hlen).
    eexists _, _. split; [reflexivity|]. split; [discriminate|]. left.
    exists pre'. rewrite Hrun.
    repeat split; [apply suffix_cons, Hq|exact Hnn'|simpl; lia].
Qed.

Lemma getToken_after_close :
  getToken after_close =
    Returns (Token.mk "<" 1 TokenType.OpenAngle, {| stream := Chars rest |}).
Proof. apply getToken_at_open. Qed.

Lemma peekChar_at pre : ∃ c, peekChar (at_ pre) = Returns c.
Proof. eexists. reflexivity. Qed.

Lemma peekChar_after_close : ∃ c, peekChar after_close = Returns c.
Proof. eexists. reflexivity. Qed.

Abbreviation lands := (lands_near rest).

Ltac read_token :=
  match goal with
  | Hnn : no_nul ?p = true |- context [getToken (at_ ?p)] =>
      let tok := fresh "tok" in
      let tk' := fresh "tk" in
      let Hne := fresh "Hne" in
      let pre' := fresh "pre" in
      let Hq := fresh "Hq" in
      let Hnn' := fresh "Hnn" in
      let Hlt := fresh "Hlt" in
      let Hty := fresh "Hty" in
      destruct (getToken_before p Hnn)
        as (tok & tk' & -> & Hne
            & [(pre' & -> & Hq & Hnn' & Hlt) | (-> & Hty & ->)]);
      rewrite bind_Returns; cbv beta iota
  | |- context [getToken after_close] =>
      rewrite getToken_after_close, bind_Returns; cbv beta iota
  | |- context [peekChar (at_ ?p)] =>
      let c := fresh "c" in
      destruct (peekChar_at p) as [c ->]; rewrite bind_Returns; cbv beta iota
  | |- context [peekChar after_close] =>
      let c := fresh "c" in
      destruct peekChar_after_close as [c ->]; rewrite bind_Returns; cbv beta iota
  end.

Ltac fold_peek :=
  match goal with
  | |- context [{| stream := stream ?t |}] => change {| stream := stream t |} with t
  end.

Ltac reduce_bind :=
  progress (rewrite !bind_Returns; cbv beta iota; simpl negb; cbv iota).

Ltac split_cond :=
  match goal with
  | |- context [bool_decide ?P] =>
      destruct (decide P);
      [rewrite (bool_decide_eq_true_2 P) by assumption
      |rewrite (bool_decide_eq_false_2 P) by assumption];
      try congruence
  | |- context [@decide ?P ?inst] => destruct (@decide P inst); try congruence
  end;
  cbv beta iota zeta; simpl negb; cbv iota.

(** [is_suffix p pre] from the facts collected while reading tokens. *)
Ltac solve_suffix :=
  repeat match goal with
         | |- is_suffix ?p ?p => apply suffix_refl
         | H : is_suffix ?p ?s |- is_suffix ?p ?t =>
             first [ exact H | apply (suffix_trans p s t H) ]
         end.

Ltac solve_lands :=
  first
    [ right; reflexivity
    | left; eexists; split; [reflexivity|];
      split; [solve [solve_suffix]|]; split; [assumption|lia] ].

Ltac landed :=
  eexists _, _, _; split; [reflexivity|];
  first [ intros _; solve_lands | intros [=] ].

Lemma parseCapture_before pre expresions :
  no_nul pre = true →
  ∃ ok tk' expresions',
    parseCapture (at_ pre) expresions = Returns (ok, tk', expresions')
    ∧ (ok = true → lands pre tk').
Proof.
  intros Hnn. cbv beta delta [parseCapture requireToken peekToken].
  repeat first [ landed | fold_peek | read_token | reduce_bind | split_cond ].
Qed.

Lemma rejection_msg_suffix p' p msg :
  is_suffix p' p →
  rejection_msg (p' +:+ String ">"%char (String "<"%char rest)) msg →
  rejection_msg (p +:+ String ">"%char (String "<"%char rest)) msg.
Proof.
  intros [q ->] [Hmsg|(prev & Hsuf & Hfront & Hmsg)]; [left; exact Hmsg|].
  right. exists prev. split; [|split; assumption].
  rewrite app_assoc_str. apply suffix_app, Hsuf.
Qed.

(** From anywhere before a place [><], the loop of [parseLogQlExpr] ends by
    throwing a runtime error. *)
Lemma parseLogQlExpr_loop_before fuel pre expresions :
  no_nul pre = true →
  String.length pre < fuel →
  ∃ msg,
    parseLogQlExpr_loop fuel (at_ pre) expresions = Throws (MkExn RuntimeError msg)
    ∧ rejection_msg (pre +:+ String ">"%char (String "<"%char rest)) msg.
Proof.
  revert pre expresions.
  induction fuel as [|fuel IH]; intros pre expresions Hnn Hfuel; [lia|].
  simpl.
  destruct (getToken_before pre Hnn)
    as (tok & tk' & Hget & Hne & [(pre' & -> & Hsuf & Hnn' & Hlt) | (-> & Hty & ->)]);
    rewrite Hget; simpl.
  - destruct (Token.type tok) eqn:Hty;
      try (eexists; split; [reflexivity|left; reflexivity]); [| |done].
    + (* OpenAngle *)
      apply getToken_OpenAngle_front in Hget; [|exact Hty].
      destruct (parseCapture_before pre' expresions Hnn')
        as (ok & tk'' & expresions' & -> & Hlands). simpl.
      destruct ok; simpl.
      * destruct (Hlands eq_refl) as [(pre'' & -> & Hsuf' & Hnn'' & Hlt')| ->].
        -- rewrite peekToken_getToken.
           destruct (getToken_before pre'' Hnn'') as (peeked & tk3 & -> & _ & _).
           simpl. case_decide.
           ++ eexists. split; [reflexivity|]. right.
              eexists. split; [apply suffix_refl|]. split; [exact Hget|].
              right. reflexivity.
           ++ destruct (IH pre'' expresions' Hnn'' ltac:(lia)) as (msg & -> & Hmsg).
              exists msg. split; [reflexivity|].
              eapply rejection_msg_suffix; [|exact Hmsg].
              eapply suffix_trans; eassumption.
        -- eexists. split; [reflexivity|]. right.
           eexists. split; [apply suffix_refl|]. split; [exact Hget|].
           right. reflexivity.
      * eexists. split; [reflexivity|]. right.
        eexists. split; [apply suffix_refl|]. split; [exact Hget|].
        left. reflexivity.
    + (* Literal *)
      destruct (IH pre' (Vec.push_back expresions
                           (Expression.mk (Token.text tok) ExpressionType.Literal NUL))
                  Hnn' ltac:(lia)) as (msg & -> & Hmsg).
      exists msg. split; [reflexivity|].
      eapply rejection_msg_suffix; eassumption.
  - rewrite Hty. eexists. split; [reflexivity|left; reflexivity].
Qed.
End BackToBack.

Section CompileErrors.
Context {Value : Type}.
Variable kECSParserMapper : gmap string ParserType.
Variable kParsersConfig : ParserType → option (Parser → list string → Parser).
Variable kAvailableParsers : ParserType → option (@ParserFunc Value).

Abbreviation compile := (getParserOp kECSParserMapper kParsersConfig kAvailableParsers).

(** Any pattern in which a closing bracket is directly followed by an
    opening one is rejected by [parseLogQlExpr] with a runtime error. *)
Lemma close_open_rejected pre rest :
  no_nul pre = true →
  ∃ msg,
    parseLogQlExpr (pre +:+ String ">"%char (String "<"%char rest))
      = Throws (MkExn RuntimeError msg)
    ∧ rejection_msg (pre +:+ String ">"%char (String "<"%char rest)) msg.
Proof.
  intros Hnn. unfold parseLogQlExpr.
  apply (parseLogQlExpr_loop_before rest _ pre Vec.empty Hnn).
  rewrite length_app_str. lia.
Qed.

(** C5, with the error kind the code raises. Compiling a pattern that
    contains two captures back to back, [<a><b>], fails with a runtime
    error. Its message is one of the diagnostics of [parseLogQlExpr]: a
    capture message that quotes the pattern from the opening bracket of a
    capture on, or the unknown-token message, which quotes nothing. *)
Theorem back_to_back_captures_rejected pre a b post :
  no_nul pre = true →
  no_nul a = true →
  let pattern := pre +:+ "<" +:+ a +:+ "><" +:+ b +:+ ">" +:+ post in
  ∃ msg,
    compile pattern = Throws (MkExn RuntimeError msg)
    ∧ rejection_msg pattern msg.
Proof.
  intros Hpre Ha pattern.
  assert (pattern = (pre +:+ "<" +:+ a)
                    +:+ String ">"%char (String "<"%char (b +:+ ">" +:+ post))) as Hshape.
  { unfold pattern. rewrite !app_assoc_str. reflexivity. }
  assert (no_nul (pre +:+ "<" +:+ a) = true) as Hnn.
  { apply no_nul_app. split; [exact Hpre|].
    apply no_nul_app. split; [reflexivity|exact Ha]. }
  destruct (close_open_rejected _ (b +:+ ">" +:+ post) Hnn) as (msg & Hparse & Hmsg).
  rewrite <- Hshape in Hparse, Hmsg.
  exists msg. split; [|exact Hmsg].
  unfold getParserOp. rewrite decide_False.
  - rewrite Hparse. reflexivity.
  - rewrite Hshape. destruct (pre +:+ "<" +:+ a); discriminate.
Qed.
End CompileErrors.

Lemma back_to_back_captures_rejected_witness :
  ∃ msg,
    getParserOp demoSchema demoParsersConfig demoParsers
      ("x " +:+ "<" +:+ "a" +:+ "><" +:+ "b" +:+ ">" +:+ " y")
      = Throws (MkExn RuntimeError msg)
    ∧ rejection_msg ("x " +:+ "<" +:+ "a" +:+ "><" +:+ "b" +:+ ">" +:+ " y") msg.
Proof.
  apply (back_to_back_captures_rejected demoSchema demoParsersConfig demoParsers
           "x " "a" "b" " y"); reflexivity.
Defined.

(** C5 does not hold of scenario S6 as the specification words it: the error
    raised for [<a><b>] is a runtime error, not an invalid-argument error,
    and its message quotes the pattern text rather than a position. *)
Lemma back_to_back_is_not_invalid_argument :
  getParserOp demoSchema demoParsersConfig demoParsers "<a><b>" =
    Throws (MkExn RuntimeError
              "[HLP]Invalid LogQL expression at [<a><b>]. Can't captures back to back")
  ∧ ¬ ∃ e,
        getParserOp demoSchema demoParsersConfig demoParsers "<a><b>" = Throws e
        ∧ kind e = InvalidArgument.
Proof.
  assert (getParserOp demoSchema demoParsersConfig demoParsers "<a><b>" =
          Throws (MkExn RuntimeError
                    "[HLP]Invalid LogQL expression at [<a><b>]. Can't captures back to back"))
    as H by (vm_compute; reflexivity).
  split; [exact H|].
  intros (e & He & Hkind). rewrite H in He. injection He as <-. discriminate.
Qed.

(** With a stray closing bracket in front, the same pattern is rejected
    with the message that names no place at all. *)
Example back_to_back_after_stray_bracket :
  getParserOp demoSchema demoParsersConfig demoParsers "><a><b>" =
    Throws (MkExn RuntimeError "[HLP] Invalid LogQl expression. Unknown token found.").
Proof. vm_compute. reflexivity. Qed.

(** Only the empty pattern is an invalid argument. *)
Example empty_pattern_is_invalid_argument :
  getParserOp demoSchema demoParsersConfig demoParsers "" =
    Throws (MkExn InvalidArgument "[HLP]Empty LogQL expression").
Proof. reflexivity. Qed.

(** ** Alternation adjacency *)

Lemma paired_app l b : paired l → paired b → paired (l ++ b).
Proof.
  intros Hl Hb i Hi. apply lookup_app_Some in Hi as [Hi|[Hlen Hi]].
  - apply lookup_app_l_Some, Hl, Hi.
  - apply Hb in Hi. rewrite lookup_app_r by lia.
    replace (S i - length l) with (S (i - length l)) by lia. exact Hi.
Qed.

Lemma fmap_alter_same {A B} (g : A → B) (f : A → A) i (l : list A) :
  (∀ x, g (f x) = g x) → g <$> alter f i l = g <$> l.
Proof.
  intros Hgf. revert i. induction l as [|x l IH]; intros [|i]; simpl; [done..| |].
  - rewrite Hgf. reflexivity.
  - f_equal. apply IH.
Qed.

Lemma tags_push_back v e : tags (Vec.push_back v e) = tags v ++ [Expression.type e].
Proof. unfold tags. rewrite items_push_back, fmap_app. reflexivity. Qed.

Lemma tags_store_endToken r c v :
  tags (Vec.store r (Expression.set_endToken c) v) = tags v.
Proof.
  unfold tags. rewrite items_store. case_decide; [|reflexivity].
  apply fmap_alter_same. reflexivity.
Qed.

Lemma tags_store_back_type ty v l t :
  tags v = l ++ [t] →
  tags (Vec.store (Vec.back v) (Expression.set_type ty) v) = l ++ [ty].
Proof.
  unfold tags. intros Hv. rewrite items_store.
  rewrite decide_True by reflexivity. simpl.
  destruct (Vec.items v) as [|x xs _] using rev_ind.
  { destruct l; discriminate. }
  rewrite fmap_app in Hv. apply app_inj_tail in Hv as [Hl _].
  rewrite length_app. simpl.
  replace (pred (length xs + 1)) with (length xs + 0) by lia.
  rewrite alter_app_r. simpl. rewrite fmap_app, Hl. reflexivity.
Qed.

(** A successful [parseCapture] appends one capture, one optional capture,
    or an [OrCapture] directly followed by a [Capture]. *)
Lemma parseCapture_tags tk expresions tk' expresions' :
  parseCapture tk expresions = Returns (true, tk', expresions') →
  ∃ block,
    tags expresions' = tags expresions ++ block
    ∧ (block = [ExpressionType.Capture]
       ∨ block = [ExpressionType.OptionalCapture]
       ∨ block = [ExpressionType.OrCapture; ExpressionType.Capture]).
Proof.
  intros H. cbv beta delta [parseCapture] in H.
  inv_bind H. head_let H optional. inv_bind H.
  case_decide as Hlit; [|discriminate].
  head_let H e1.
  assert (tags e1 = tags expresions ++ [ExpressionType.Capture]) as He1
    by apply tags_push_back.
  clearbody e1.
  inv_bind H. destruct (negb b); [discriminate|].
  head_let H e2.
  assert (∃ ty, tags e2 = tags expresions ++ [ty]
                ∧ (ty = ExpressionType.Capture ∨ ty = ExpressionType.OptionalCapture))
    as (ty & He2 & Hty).
  { subst e2. destruct optional.
    - eexists. split; [eapply tags_store_back_type, He1|]. right. reflexivity.
    - eexists. split; [exact He1|]. left. reflexivity. }
  clearbody e2.
  inv_bind H. case_decide as Hq.
  - inv_bind H. inv_bind H. destruct (negb b0); [discriminate|].
    head_let H prevCapture. head_let H e3.
    assert (tags e3 = tags expresions ++ [ExpressionType.OrCapture]) as He3
      by (eapply tags_store_back_type, He2).
    clearbody e3.
    inv_bind H. head_let H e4.
    assert (tags e4 = tags expresions
                      ++ [ExpressionType.OrCapture; ExpressionType.Capture]) as He4.
    { subst e4. rewrite tags_push_back, He3, <- app_assoc. reflexivity. }
    clearbody e4.
    inv_bind H. destruct (negb b1); [discriminate|].
    inv_bind H. injection H as <- <-.
    eexists. rewrite !tags_store_endToken. split; [exact He4|]. auto.
  - inv_bind H. injection H as <- <-.
    eexists. rewrite tags_store_endToken. split; [exact He2|].
    destruct Hty as [-> | ->]; auto.
Qed.

Lemma parseLogQlExpr_loop_paired fuel tokenizer expresions expresions' :
  parseLogQlExpr_loop fuel tokenizer expresions = Returns expresions' →
  paired (tags expresions) → paired (tags expresions').
Proof.
  revert tokenizer expresions.
  induction fuel as [|fuel IH]; intros tokenizer expresions H Hinv; [discriminate|].
  simpl in H. inv_bind H.
  destruct (Token.type t) eqn:Hty; try discriminate.
  - inv_bind H. destruct b; simpl in H.
    + inv_bind H. case_decide; [inv_bind H; discriminate|].
      eapply IH; [exact H|].
      destruct (parseCapture_tags _ _ _ _ E0) as (block & -> & Hblock).
      apply paired_app; [exact Hinv|].
      destruct Hblock as [-> | [-> | ->]]; intros [|[|i]]; simpl; try discriminate.
      reflexivity.
    + inv_bind H. discriminate.
  - eapply IH; [exact H|].
    rewrite tags_push_back. apply paired_app; [exact Hinv|].
    intros [|i]; discriminate.
  - injection H as <-. exact Hinv.
Qed.

(** The half of alternation adjacency that holds: in the expression list of
    a compiled pattern every [OrCapture] is directly followed by a
    [Capture]. *)
Lemma parseLogQlExpr_paired expr expresions :
  parseLogQlExpr expr = Returns expresions → paired (tags expresions).
Proof.
  intros H. eapply parseLogQlExpr_loop_paired; [exact H|]. intros i; discriminate.
Qed.

Section AlternationFacts.
Variable kECSParserMapper : gmap string ParserType.
Variable kParsersConfig : ParserType → option (Parser → list string → Parser).

Hypothesis kParsersConfig_options_only : ∀ ty config parser args,
  kParsersConfig ty = Some config →
  config parser args = Parser.set_options (Parser.options (config parser args)) parser.

Abbreviation parsersOf := (getParserList kECSParserMapper kParsersConfig).

Lemma getParserList_tags expr expressions :
  parseLogQlExpr expr = Returns expressions →
  ∃ parsers,
    parsersOf expressions = Returns parsers
    ∧ Parser.expType <$> parsers = tags expressions
    ∧ Parser.endToken <$> parsers = Expression.endToken <$> Vec.items expressions.
Proof.
  intros Hparse. apply parseLogQlExpr_named in Hparse.
  destruct (getParserList_loop_Forall2 kECSParserMapper kParsersConfig
              kParsersConfig_options_only _ Hparse) as (parsers & Hps & Hall).
  exists parsers. split; [exact Hps|]. unfold tags.
  clear Hps Hparse. induction Hall as [|e p es ps (_ & Hty & Hend) _ [IH1 IH2]];
    [split; reflexivity|].
  rewrite !fmap_cons, IH1, IH2, Hty, Hend. split; reflexivity.
Qed.

(** The half of C8 that holds: in the parser list of a compiled pattern,
    every parser tagged [OrCapture] is directly followed by one tagged
    [Capture]. *)
Lemma or_capture_followed_by_capture expr expressions :
  parseLogQlExpr expr = Returns expressions →
  ∃ parsers,
    parsersOf expressions = Returns parsers
    ∧ ∀ i p, parsers !! i = Some p →
        Parser.expType p = ExpressionType.OrCapture →
        ∃ p', parsers !! S i = Some p'
              ∧ Parser.expType p' = ExpressionType.Capture.
Proof.
  intros Hparse.
  destruct (getParserList_tags _ _ Hparse) as (parsers & Hps & Htags & _).
  exists parsers. split; [exact Hps|]. intros i p Hi Hor.
  pose proof (parseLogQlExpr_paired _ _ Hparse i) as Hpair.
  rewrite <- Htags, !list_lookup_fmap, Hi in Hpair. simpl in Hpair.
  rewrite Hor in Hpair. specialize (Hpair eq_refl).
  destruct (parsers !! S i) as [p'|]; [|discriminate].
  injection Hpair as Hp'. eauto.
Qed.

(** C8 (as the code behaves).  For the pattern [<a>?<b> x] the parser list
    has an [OrCapture] parser directly followed by a [Capture] parser, but
    their [endToken]s differ: the second alternative carries the space that
    follows the alternation, the first one still carries NUL.  The store
    [prevCapture.endToken = endToken] goes through a reference taken before
    the [push_back] that has moved the vector's elements. *)
Theorem alternation_endTokens_differ :
  ∃ expressions pa pb pl,
    parseLogQlExpr "<a>?<b> x" = Returns expressions
    ∧ parsersOf expressions = Returns [pa; pb; pl]
    ∧ Parser.expType pa = ExpressionType.OrCapture
    ∧ Parser.expType pb = ExpressionType.Capture
    ∧ Parser.endToken pa = NUL
    ∧ Parser.endToken pb = " "%char
    ∧ Parser.endToken pa ≠ Parser.endToken pb.
Proof.
  assert (parseLogQlExpr "<a>?<b> x" =
          Returns (Vec.mk [Expression.mk "a" ExpressionType.OrCapture NUL;
                           Expression.mk "b" ExpressionType.Capture " "%char;
                           Expression.mk " x" ExpressionType.Literal NUL] 4 3))
    as Hparse by reflexivity.
  destruct (getParserList_tags _ _ Hparse) as (parsers & Hps & Htags & Hends).
  destruct parsers as [|pa [|pb [|pl [|? ?]]]]; try discriminate.
  injection Htags as Ha Hb _. injection Hends as Hea Heb _.
  eexists _, pa, pb, pl. rewrite Hea, Heb.
  split; [exact Hparse|]. repeat split; try assumption. discriminate.
Qed.
End AlternationFacts.

Lemma alternation_endTokens_differ_witness :
  ∃ expressions pa pb pl,
    parseLogQlExpr "<a>?<b> x" = Returns expressions
    ∧ getParserList demoSchema demoParsersConfig expressions = Returns [pa; pb; pl]
    ∧ Parser.expType pa = ExpressionType.OrCapture
    ∧ Parser.expType pb = ExpressionType.Capture
    ∧ Parser.endToken pa = NUL
    ∧ Parser.endToken pb = " "%char
    ∧ Parser.endToken pa ≠ Parser.endToken pb.
Proof.
  apply (alternation_endTokens_differ demoSchema demoParsersConfig
           demoParsersConfig_options_only).
Defined.

(** What the lost [endToken] does to a parse: with no schema, the first
    alternative of [<a>?<b> x] is an Any parser without an end token, runs
    to the end of the event, and leaves nothing for the literal. *)
Example alternation_then_literal_fails :
  (parserFn ← getParserOp ∅ noParsersConfig literalAndAnyParsers "<a>?<b> x";
   Returns (ExecuteResult.ok (parserFn "hello x" ∅).1))
  = Returns false.
Proof. vm_compute. reflexivity. Qed.

(** Where the vector has room for the second alternative, both
    alternatives get the end token. *)
Example alternation_without_reallocation :
  Vec.items <$> parseLogQlExpr "<v> w<a>?<b> x" =
    Returns [Expression.mk "v" ExpressionType.Capture " "%char;
             Expression.mk " w" ExpressionType.Literal NUL;
             Expression.mk "a" ExpressionType.OrCapture " "%char;
             Expression.mk "b" ExpressionType.Capture " "%char;
             Expression.mk " x" ExpressionType.Literal NUL].
Proof. reflexivity. Qed.

(** ** The fuel of [parseLogQlExpr] is enough *)

Lemma bind_OutOfFuel_inv {A B} (m : Outcome A) (f : A → Outcome B) :
  m ≫= f = OutOfFuel → m = OutOfFuel ∨ ∃ a, m = Returns a ∧ f a = OutOfFuel.
Proof. destruct m; simpl; intros H; try discriminate; eauto. Qed.

Lemma getToken_not_OutOfFuel tk : getToken tk ≠ OutOfFuel.
Proof.
  destruct tk as [[s|]]; [|discriminate].
  rewrite getToken_Chars. cbv zeta.
  repeat (case_decide; [discriminate|]). destruct s; discriminate.
Qed.

Lemma requireToken_not_OutOfFuel tk req : requireToken tk req ≠ OutOfFuel.
Proof.
  unfold requireToken. intros [H|(a & _ & H)]%bind_OutOfFuel_inv.
  - by apply getToken_not_OutOfFuel in H.
  - destruct a. discriminate.
Qed.

Lemma peekToken_not_OutOfFuel tk : peekToken tk ≠ OutOfFuel.
Proof.
  rewrite peekToken_getToken. intros [H|(a & _ & H)]%bind_OutOfFuel_inv.
  - by apply getToken_not_OutOfFuel in H.
  - destruct a. discriminate.
Qed.

Lemma peekChar_not_OutOfFuel tk : peekChar tk ≠ OutOfFuel.
Proof. destruct tk as [[s|]]; discriminate. Qed.

Ltac not_out_of_fuel H :=
  let a := fresh "a" in
  let E := fresh "E" in
  apply bind_OutOfFuel_inv in H as [H|(a & E & H)];
  [first [ by apply getToken_not_OutOfFuel in H
         | by apply requireToken_not_OutOfFuel in H
         | by apply peekToken_not_OutOfFuel in H
         | by apply peekChar_not_OutOfFuel in H ]
  |repeat match type of H with
          | context [let '(_, _) := ?p in _] => is_var p; destruct p
          end;
   cbv beta iota zeta in H].

Lemma parseCapture_not_OutOfFuel tk expresions :
  parseCapture tk expresions ≠ OutOfFuel.
Proof.
  intros H. cbv beta delta [parseCapture] in H.
  not_out_of_fuel H.
  destruct (bool_decide _); [not_out_of_fuel H|simpl in H];
    (case_decide; [|discriminate]);
    not_out_of_fuel H; (destruct (negb _); [discriminate|]);
    not_out_of_fuel H;
    (case_decide;
     [not_out_of_fuel H; not_out_of_fuel H; (destruct (negb _); [discriminate|]);
      not_out_of_fuel H; not_out_of_fuel H; (destruct (negb _); [discriminate|]);
      not_out_of_fuel H; discriminate
     |not_out_of_fuel H; discriminate]).
Qed.

Lemma getToken_remaining tk tok tk' :
  getToken tk = Returns (tok, tk') → remaining tk' < remaining tk.
Proof.
  destruct tk as [[s|]]; [|discriminate].
  rewrite getToken_Chars. cbv zeta. unfold remaining.
  assert (match incr (Chars s) with
          | Chars s' => S (String.length s')
          | PastNul => 0
          end < S (String.length s)) as Hincr.
  { destruct s as [|c s]; simpl; [lia|]. case_decide; simpl; lia. }
  repeat (case_decide; [intros [= <- <-]; exact Hincr|]).
  destruct s as [|c0 s]; [discriminate|]. intros [= <- <-]. simpl.
  pose proof (plainRun_rest_length s). lia.
Qed.

Lemma requireToken_remaining tk req ok tk' :
  requireToken tk req = Returns (ok, tk') → remaining tk' < remaining tk.
Proof.
  intros (tok & H & _)%requireToken_Returns_inv. eapply getToken_remaining, H.
Qed.

Lemma parseCapture_remaining tk expresions ok tk' expresions' :
  parseCapture tk expresions = Returns (ok, tk', expresions') →
  remaining tk' < remaining tk.
Proof.
  intros H. cbv beta delta [parseCapture] in H.
  inv_bind H. apply getToken_remaining in E.
  cbv zeta in H. inv_bind H.
  assert (remaining t2 ≤ remaining t0) as Ht2.
  { destruct (bool_decide _); [apply getToken_remaining in E0; lia|].
    injection E0 as <- <-. lia. }
  clear E0.
  case_decide; [|injection H as <- <- <-; lia].
  inv_bind H. apply requireToken_remaining in E0.
  destruct (negb b); [injection H as <- <- <-; lia|].
  inv_bind H. case_decide.
  - inv_bind H. apply getToken_remaining in E2.
    inv_bind H. apply requireToken_remaining in E3.
    destruct (negb b0); [injection H as <- <- <-; lia|].
    inv_bind H. apply getToken_remaining in E4.
    inv_bind H. apply requireToken_remaining in E5.
    destruct (negb b1); [injection H as <- <- <-; lia|].
    inv_bind H. injection H as <- <- <-. lia.
  - inv_bind H. injection H as <- <- <-. lia.
Qed.

Lemma parseLogQlExpr_loop_enough_fuel fuel tokenizer expresions :
  remaining tokenizer ≤ fuel →
  0 < remaining tokenizer →
  parseLogQlExpr_loop fuel tokenizer expresions ≠ OutOfFuel.
Proof.
  revert tokenizer expresions.
  induction fuel as [|fuel IH]; intros tokenizer expresions Hfuel Hpos; [lia|].
  simpl. intros H. not_out_of_fuel H.
  pose proof (getToken_remaining _ _ _ E) as Hlt.
  assert (∀ tk' expresions',
             remaining tk' < remaining tokenizer →
             parseLogQlExpr_loop fuel tk' expresions' = OutOfFuel →
             peekToken tk' ≠ Undefined OutOfBoundsRead ∨ 0 < remaining tk' → False)
    as Hnext.
  { intros tk' expresions' Hlt' Hloop Hread.
    apply (IH tk' expresions'); [lia| |exact Hloop].
    destruct Hread as [Hread|Hread]; [|exact Hread].
    destruct tk' as [[s|]]; [unfold remaining; simpl; lia|by destruct Hread]. }
  destruct (Token.type t) eqn:Hty; try discriminate.
  - apply bind_OutOfFuel_inv in H as [H|(a & Ecap & H)];
      [by apply parseCapture_not_OutOfFuel in H|].
    destruct a as [[ok tk'] expresions'].
    apply parseCapture_remaining in Ecap.
    destruct ok; simpl in H.
    + apply bind_OutOfFuel_inv in H as [H|(peeked & Epeek & H)];
        [by apply peekToken_not_OutOfFuel in H|].
      case_decide.
      * destruct (stream tokenizer); discriminate.
      * apply (Hnext tk' expresions'); [lia|exact H|].
        left. rewrite Epeek. discriminate.
    + destruct (stream tokenizer); discriminate.
  - apply (Hnext t0 _ Hlt H). right.
    destruct tokenizer as [[s|]]; [|discriminate].
    rewrite getToken_Chars in E. cbv zeta in E.
    repeat (case_decide; [injection E as <- <-; discriminate|]).
    destruct s; [discriminate|]. injection E as <- <-. unfold remaining. simpl. lia.
Qed.

(** [parseLogQlExpr] never stops for lack of fuel: on every pattern it
    returns an expression list, throws, or reads out of bounds. *)
Lemma parseLogQlExpr_not_OutOfFuel expr : parseLogQlExpr expr ≠ OutOfFuel.
Proof.
  apply parseLogQlExpr_loop_enough_fuel; unfold remaining; simpl; lia.
Qed.

(* ===================================================================== *)
(** * Part III: further properties of the code                             *)
(* ===================================================================== *)

(** ** Tokens *)

(** X1.  Calling [getToken] again and again on a pattern reaches
    [EndOfExpr] after at most one call per character and one more, reads
    nothing outside the pattern on the way, and the texts of the tokens
    returned, put together, are the pattern up to its terminator. *)
Theorem tokens_spell_the_pattern s :
  ∃ toks,
    getTokens (S (String.length s)) {| stream := Chars s |}
      = Returns (toks, {| stream := PastNul |})
    ∧ concat_strings (Token.text <$> toks) = c_str s
    ∧ Token.type <$> last toks = Some TokenType.EndOfExpr
    ∧ length toks ≤ S (String.length s).
Proof.
  destruct (getTokens_reaches_EndOfExpr (S (String.length s)) s) as (toks & Hrun & Hcat & Hlast);
    [lia|].
  exists toks. repeat split; try assumption.
  clear Hcat Hlast. revert Hrun. generalize {| stream := PastNul |}.
  generalize {| stream := Chars s |}. generalize (S (String.length s)).
  intros fuel. revert toks. induction fuel as [|fuel IH]; intros toks tk tk' H; [discriminate|].
  simpl in H. inv_bind H. case_decide.
  - injection H as <- <-. simpl. lia.
  - inv_bind H. injection H as <- <-. simpl. apply IH in E0. lia.
Qed.

Lemma plainRun_all_plain s : all_chars plain_char s = true → plainRun s = (s, "").
Proof.
  induction s as [|c s IH]; intros Hs; [reflexivity|].
  simpl in Hs. apply andb_prop in Hs as [Hc Hs].
  simpl. rewrite Hc, IH by exact Hs. reflexivity.
Qed.

(** X2.  A [Literal] token is the longest run it can be: its text is made of
    characters other than NUL and the angle brackets, does not begin with a
    question mark, is what the cursor stood on, and the character the
    cursor is left on is NUL or an angle bracket. *)
Theorem literal_token_is_maximal tk tok tk' :
  getToken tk = Returns (tok, tk') →
  Token.type tok = TokenType.Literal →
  ∃ s',
    stream tk = Chars (Token.text tok +:+ s')
    ∧ stream tk' = Chars s'
    ∧ all_chars plain_char (Token.text tok) = true
    ∧ front (Token.text tok) ≠ "?"%char
    ∧ plain_char (front s') = false
    ∧ Token.len tok = String.length (Token.text tok)
    ∧ 0 < Token.len tok.
Proof.
  destruct tk as [[s|]]; [|discriminate].
  rewrite getToken_Chars. cbv zeta.
  case_decide as Hlt; [intros [= <- <-]; discriminate|].
  case_decide as Hgt; [intros [= <- <-]; discriminate|].
  case_decide as Hq; [intros [= <- <-]; discriminate|].
  case_decide as Hnul; [intros [= <- <-]; discriminate|].
  destruct s as [|c0 s]; [discriminate|]. intros [= <- <-] _. simpl in *.
  destruct (plainRun_split s) as (Hplain & Hsplit & Hstop).
  exists (plainRun s).2. rewrite app_cons, <- Hsplit.
  repeat split; try assumption; try lia.
  rewrite Hplain, andb_true_r. unfold plain_char.
  rewrite !andb_true_iff, !bool_decide_eq_true. auto.
Qed.

Lemma literal_token_shape tk tok tk' :
  getToken tk = Returns (tok, tk') →
  Token.type tok = TokenType.Literal →
  all_chars plain_char (Token.text tok) = true
  ∧ front (Token.text tok) ≠ "?"%char
  ∧ Token.text tok ≠ "".
Proof.
  destruct tk as [[s|]]; [|discriminate].
  rewrite getToken_Chars. cbv zeta.
  case_decide as Hlt; [intros [= <- <-]; discriminate|].
  case_decide as Hgt; [intros [= <- <-]; discriminate|].
  case_decide as Hq; [intros [= <- <-]; discriminate|].
  case_decide as Hnul; [intros [= <- <-]; discriminate|].
  destruct s as [|c0 s]; [discriminate|]. intros [= <- <-] _. simpl in *.
  destruct (plainRun_split s) as (Hplain & _ & _).
  repeat split; [|exact Hq|discriminate].
  rewrite Hplain, andb_true_r. unfold plain_char.
  rewrite !andb_true_iff, !bool_decide_eq_true. auto.
Qed.

Lemma literal_token_is_maximal_witness :
  ∃ s',
    stream {| stream := Chars "ab c<d>" |} = Chars ("ab c" +:+ s')
    ∧ stream {| stream := Chars "<d>" |} = Chars s'
    ∧ all_chars plain_char "ab c" = true
    ∧ front "ab c" ≠ "?"%char
    ∧ plain_char (front s') = false
    ∧ 4 = String.length "ab c"
    ∧ 0 < 4.
Proof.
  apply (literal_token_is_maximal {| stream := Chars "ab c<d>" |}
           (Token.mk "ab c" 4 TokenType.Literal) {| stream := Chars "<d>" |});
    reflexivity.
Defined.

(** ** Outcomes of the expression parser *)

Lemma bind_returns_or_oob {A B} (m : Outcome A) (f : A → Outcome B) :
  returns_or_oob m → (∀ a, m = Returns a → returns_or_oob (f a)) →
  returns_or_oob (m ≫= f).
Proof. destruct m as [a|e|[]|]; simpl; auto. Qed.

Lemma getToken_returns_or_oob tk : returns_or_oob (getToken tk).
Proof.
  destruct tk as [[s|]]; [|exact I].
  rewrite getToken_Chars. cbv zeta.
  repeat (case_decide; [exact I|]). destruct s; exact I.
Qed.

Lemma requireToken_returns_or_oob tk req : returns_or_oob (requireToken tk req).
Proof.
  apply bind_returns_or_oob; [apply getToken_returns_or_oob|]. intros [] _. exact I.
Qed.

Lemma peekToken_returns_or_oob tk : returns_or_oob (peekToken tk).
Proof.
  rewrite peekToken_getToken.
  apply bind_returns_or_oob; [apply getToken_returns_or_oob|]. intros [] _. exact I.
Qed.

Lemma peekChar_returns_or_oob tk : returns_or_oob (peekChar tk).
Proof. destruct tk as [[s|]]; exact I. Qed.

Ltac step_returns_or_oob :=
  first
    [ exact I
    | apply bind_returns_or_oob;
      [first [ apply getToken_returns_or_oob | apply requireToken_returns_or_oob
             | apply peekToken_returns_or_oob | apply peekChar_returns_or_oob ]
      |let a := fresh "a" in intros a _; try destruct a as [? ?]; cbv beta iota zeta]
    | match goal with
      | |- returns_or_oob (if ?b then _ else _) => destruct b
      end ].

(** [parseCapture] throws nothing. *)
Lemma parseCapture_returns_or_oob tk expresions :
  returns_or_oob (parseCapture tk expresions).
Proof.
  cbv beta delta [parseCapture].
  apply bind_returns_or_oob; [apply getToken_returns_or_oob|].
  intros [token tk1] _. cbv beta iota zeta.
  apply bind_returns_or_oob.
  { destruct (bool_decide _); [apply getToken_returns_or_oob|exact I]. }
  intros [token' tk2] _. cbv beta iota.
  repeat step_returns_or_oob.
Qed.

Lemma parseLogQlExpr_loop_outcome fuel tokenizer expresions :
  parse_outcome (parseLogQlExpr_loop fuel tokenizer expresions).
Proof.
  revert tokenizer expresions.
  induction fuel as [|fuel IH]; intros tokenizer expresions; [exact I|].
  simpl.
  pose proof (getToken_returns_or_oob tokenizer) as Htok.
  destruct (getToken tokenizer) as [[token tk]|e|[]|]; try done. simpl.
  destruct (Token.type token);
    try (eexists; split; [reflexivity|left; reflexivity]); [|apply IH|exact I].
  pose proof (parseCapture_returns_or_oob tk expresions) as Hcap.
  destruct (parseCapture tk expresions) as [[[ok tk'] expresions']|e|[]|]; try done.
  simpl. destruct ok; simpl.
  - pose proof (peekToken_returns_or_oob tk') as Hpeek.
    destruct (peekToken tk') as [peeked|e|[]|]; try done. simpl.
    case_decide; [|apply IH].
    destruct (stream tokenizer); simpl; [|exact I].
    eexists. split; [reflexivity|]. right. eexists. right. reflexivity.
  - destruct (stream tokenizer); simpl; [|exact I].
    eexists. split; [reflexivity|]. right. eexists. left. reflexivity.
Qed.

(** X3.  On every pattern [parseLogQlExpr] ends in one of three ways: it
    returns an expression list, it throws a runtime error carrying one of
    its three diagnostics, or it reads beyond the terminator of the pattern.
    It never loops for ever and throws no other exception. *)
Theorem parseLogQlExpr_outcomes expr :
  (∃ expresions, parseLogQlExpr expr = Returns expresions)
  ∨ (∃ msg, parseLogQlExpr expr = Throws (MkExn RuntimeError msg) ∧ compile_msg msg)
  ∨ parseLogQlExpr expr = Undefined OutOfBoundsRead.
Proof.
  pose proof (parseLogQlExpr_loop_outcome (S (String.length expr))
                {| stream := Chars expr |} Vec.empty) as Hout.
  pose proof (parseLogQlExpr_not_OutOfFuel expr) as Hfuel.
  unfold parseLogQlExpr in *.
  destruct (parseLogQlExpr_loop _ _ _) as [l|e|u|]; simpl in Hout.
  - left. eauto.
  - right. left. destruct Hout as (msg & -> & Hmsg). eauto.
  - right. right. destruct u; [reflexivity|done].
  - done.
Qed.

(** ** Shape of the expression list *)

Lemma sound_expr_capture text ty c :
  text ≠ "" → ty ≠ ExpressionType.Literal → sound_expr (Expression.mk text ty c).
Proof. intros Htext Hty. split; [exact Htext|]. intros Hlit. by destruct Hty. Qed.

Lemma sound_expr_set_type ty e :
  ty ≠ ExpressionType.Literal → sound_expr e → sound_expr (Expression.set_type ty e).
Proof. intros Hty [Htext _]. split; [exact Htext|]. intros Hlit. by destruct Hty. Qed.

Lemma sound_expr_set_endToken c e :
  sound_expr e → sound_expr (Expression.set_endToken c e).
Proof. exact id. Qed.

Lemma parseCapture_sound tk expresions tk' expresions' :
  parseCapture tk expresions = Returns (true, tk', expresions') →
  Forall sound_expr (Vec.items expresions) →
  Forall sound_expr (Vec.items expresions').
Proof.
  intros H Hinv. cbv beta delta [parseCapture] in H.
  inv_bind H. head_let H optional. inv_bind H.
  case_decide as Hlit; [|discriminate].
  head_let H e1.
  assert (Forall sound_expr (Vec.items e1)) as He1.
  { apply Forall_items_push_back; [exact Hinv|].
    apply sound_expr_capture; [|discriminate].
    destruct optional; [|injection E0 as <- <-];
      eapply getToken_Literal_text; eassumption. }
  clearbody e1.
  inv_bind H. destruct (negb b); [discriminate|].
  head_let H e2.
  assert (Forall sound_expr (Vec.items e2)) as He2.
  { subst e2. destruct optional; [|exact He1].
    apply Forall_items_store; [|exact He1].
    intros x. apply sound_expr_set_type. discriminate. }
  clearbody e2.
  inv_bind H. case_decide as Hq.
  - inv_bind H. inv_bind H. destruct (negb b0); [discriminate|].
    head_let H prevCapture. head_let H e3.
    assert (Forall sound_expr (Vec.items e3)) as He3.
    { apply Forall_items_store; [|exact He2].
      intros x. apply sound_expr_set_type. discriminate. }
    clearbody e3.
    inv_bind H. head_let H e4. inv_bind H.
    assert (Forall sound_expr (Vec.items e4)) as He4.
    { apply Forall_items_push_back; [exact He3|].
      apply sound_expr_capture; [|discriminate].
      destruct (getToken_text _ _ _ E5) as [Htext|Hpast]; [exact Htext|].
      destruct t8 as [p]. simpl in Hpast. subst p. discriminate. }
    clearbody e4.
    destruct (negb b1); [discriminate|].
    inv_bind H. injection H as <- <-.
    repeat apply Forall_items_store; auto using sound_expr_set_endToken.
  - inv_bind H. injection H as <- <-.
    apply Forall_items_store; auto using sound_expr_set_endToken.
Qed.

Lemma parseLogQlExpr_loop_sound fuel tokenizer expresions expresions' :
  parseLogQlExpr_loop fuel tokenizer expresions = Returns expresions' →
  Forall sound_expr (Vec.items expresions) →
  Forall sound_expr (Vec.items expresions').
Proof.
  revert tokenizer expresions.
  induction fuel as [|fuel IH]; intros tokenizer expresions H Hinv; [discriminate|].
  simpl in H. inv_bind H.
  destruct (Token.type t) eqn:Hty; try discriminate.
  - inv_bind H. destruct b; simpl in H.
    + inv_bind H. case_decide; [inv_bind H; discriminate|].
      eapply IH; [exact H|]. eapply parseCapture_sound; eassumption.
    + inv_bind H. discriminate.
  - eapply IH; [exact H|].
    apply Forall_items_push_back; [exact Hinv|].
    destruct (literal_token_shape _ _ _ E Hty) as (Hplain & Hq & Hne).
    split; [exact Hne|]. intros _. split; assumption.
  - injection H as <-. exact Hinv.
Qed.

(** X4.  Every expression of a compiled pattern has a non-empty text, so a
    capture always has a name field to split, and the text of a literal
    expression holds no angle bracket and no NUL: a literal can never
    contain the characters that delimit captures. *)
Theorem compiled_expressions_are_sound expr expresions :
  parseLogQlExpr expr = Returns expresions →
  ∀ e, e ∈ Vec.items expresions →
    Expression.text e ≠ ""
    ∧ (Expression.type e = ExpressionType.Literal →
       all_chars plain_char (Expression.text e) = true
       ∧ front (Expression.text e) ≠ "?"%char).
Proof.
  intros Hparse e He.
  assert (Forall sound_expr (Vec.items expresions)) as Hall.
  { eapply parseLogQlExpr_loop_sound; [exact Hparse|]. constructor. }
  rewrite Forall_forall in Hall. exact (Hall e He).
Qed.

Lemma compiled_expressions_are_sound_witness :
  Expression.text (Expression.mk " y" ExpressionType.Literal NUL) ≠ ""
  ∧ (Expression.type (Expression.mk " y" ExpressionType.Literal NUL)
       = ExpressionType.Literal →
     all_chars plain_char
       (Expression.text (Expression.mk " y" ExpressionType.Literal NUL)) = true
     ∧ front (Expression.text (Expression.mk " y" ExpressionType.Literal NUL))
       ≠ "?"%char).
Proof.
  apply (compiled_expressions_are_sound "x <?a> y"
           (Vec.mk [Expression.mk "x " ExpressionType.Literal NUL;
                    Expression.mk "a" ExpressionType.OptionalCapture " "%char;
                    Expression.mk " y" ExpressionType.Literal NUL] 4 3)).
  - reflexivity.
  - do 2 right. left.
Defined.

(** X5.  In the expression list of a compiled pattern every [OrCapture] is
    directly followed by a [Capture]: an alternation always has its second
    alternative next to it, and the list never ends in an [OrCapture]. *)
Theorem compiled_alternations_are_adjacent expr expresions :
  parseLogQlExpr expr = Returns expresions →
  (∀ i e, Vec.items expresions !! i = Some e →
     Expression.type e = ExpressionType.OrCapture →
     ∃ e', Vec.items expresions !! S i = Some e'
           ∧ Expression.type e' = ExpressionType.Capture)
  ∧ (Expression.type <$> last (Vec.items expresions)) ≠ Some ExpressionType.OrCapture.
Proof.
  intros Hparse. pose proof (parseLogQlExpr_paired _ _ Hparse) as Hpaired.
  unfold paired, tags in Hpaired.
  assert (∀ i e, Vec.items expresions !! i = Some e →
            Expression.type e = ExpressionType.OrCapture →
            ∃ e', Vec.items expresions !! S i = Some e'
                  ∧ Expression.type e' = ExpressionType.Capture) as Hadj.
  { intros i e Hi Hor. specialize (Hpaired i).
    rewrite !list_lookup_fmap, Hi in Hpaired. simpl in Hpaired.
    rewrite Hor in Hpaired. specialize (Hpaired eq_refl).
    destruct (Vec.items expresions !! S i) as [e'|]; [|discriminate].
    injection Hpaired as He'. eauto. }
  split; [exact Hadj|].
  rewrite last_lookup. intros Hlast.
  destruct (Vec.items expresions !! pred (length (Vec.items expresions)))
    as [e|] eqn:Hi; [|discriminate].
  injection Hlast as Hor.
  destruct (Hadj _ _ Hi Hor) as (e' & He' & _).
  apply lookup_lt_Some in He'. apply lookup_lt_Some in Hi. lia.
Qed.

Lemma compiled_alternations_are_adjacent_witness :
  (∀ i e, [Expression.mk "a" ExpressionType.OrCapture NUL;
           Expression.mk "b" ExpressionType.Capture NUL] !! i = Some e →
     Expression.type e = ExpressionType.OrCapture →
     ∃ e', [Expression.mk "a" ExpressionType.OrCapture NUL;
            Expression.mk "b" ExpressionType.Capture NUL] !! S i = Some e'
           ∧ Expression.type e' = ExpressionType.Capture)
  ∧ (Expression.type <$> last [Expression.mk "a" ExpressionType.OrCapture NUL;
                               Expression.mk "b" ExpressionType.Capture NUL])
    ≠ Some ExpressionType.OrCapture.
Proof.
  apply (compiled_alternations_are_adjacent "<a>?<b>"
           (Vec.mk [Expression.mk "a" ExpressionType.OrCapture NUL;
                    Expression.mk "b" ExpressionType.Capture NUL] 2 2)).
  reflexivity.
Defined.

(** ** Simple patterns *)

Lemma getToken_at_question s :
  getToken {| stream := Chars (String "?"%char s) |} =
    Returns (Token.mk "?" 1 TokenType.QuestionMark, {| stream := Chars s |}).
Proof. reflexivity. Qed.

Lemma getToken_at_end :
  getToken {| stream := Chars "" |} =
    Returns (Token.mk "" 0 TokenType.EndOfExpr, {| stream := PastNul |}).
Proof. reflexivity. Qed.

(** The token read at the front of a run of plain characters that is
    followed by NUL or an angle bracket. *)
Lemma getToken_plain_run r t :
  r ≠ "" → all_chars plain_char r = true → front r ≠ "?"%char →
  plain_char (front t) = false →
  getToken {| stream := Chars (r +:+ t) |} =
    Returns (Token.mk r (String.length r) TokenType.Literal, {| stream := Chars t |}).
Proof.
  intros Hne Hplain Hq Ht. destruct r as [|c0 r]; [done|].
  simpl in Hplain, Hq. apply andb_prop in Hplain as [Hc0 Hplain].
  unfold plain_char in Hc0. rewrite !andb_true_iff, !bool_decide_eq_true in Hc0.
  destruct Hc0 as [[Hnul Hlt] Hgt].
  rewrite app_cons, getToken_Chars. simpl.
  rewrite !decide_False by assumption.
  assert (plainRun (r +:+ t) = (r, t)) as ->; [|reflexivity].
  destruct t as [|c t].
  - rewrite app_empty_r. apply plainRun_all_plain, Hplain.
  - apply plainRun_app; assumption.
Qed.

Lemma parseLogQlExpr_loop_S fuel tokenizer expresions :
  parseLogQlExpr_loop (S fuel) tokenizer expresions =
    getToken tokenizer ≫= λ '(token, tokenizer'),
      match Token.type token with
      | TokenType.OpenAngle =>
          parseCapture tokenizer' expresions ≫= λ '(ok, tokenizer'', expresions'),
            if negb ok then
              string_of_ptr (stream tokenizer) ≫= λ msg,
                Throws (MkExn RuntimeError (capture_error_msg msg))
            else
              peekToken tokenizer'' ≫= λ peeked,
                if decide (Token.type peeked = TokenType.OpenAngle) then
                  string_of_ptr (stream tokenizer) ≫= λ msg,
                    Throws (MkExn RuntimeError (back_to_back_msg msg))
                else parseLogQlExpr_loop fuel tokenizer'' expresions'
      | TokenType.Literal =>
          parseLogQlExpr_loop fuel tokenizer'
            (Vec.push_back expresions
               (Expression.mk (Token.text token) ExpressionType.Literal NUL))
      | TokenType.EndOfExpr => Returns expresions
      | _ => Throws (MkExn RuntimeError unknown_token_msg)
      end.
Proof. reflexivity. Qed.

(** What the loop does with the literal that ends a pattern. *)
Lemma parseLogQlExpr_loop_tail fuel lit expresions :
  all_chars plain_char lit = true → front lit ≠ "?"%char →
  2 ≤ fuel →
  Vec.items <$> parseLogQlExpr_loop fuel {| stream := Chars lit |} expresions =
    Returns (Vec.items expresions
             ++ if decide (lit = "") then []
                else [Expression.mk lit ExpressionType.Literal NUL]).
Proof.
  intros Hplain Hq Hfuel.
  destruct fuel as [|[|fuel]]; try lia.
  rewrite parseLogQlExpr_loop_S.
  case_decide as Hlit.
  - subst lit. rewrite getToken_at_end, bind_Returns. simpl.
    rewrite app_nil_r. reflexivity.
  - rewrite <- (app_empty_r lit) at 1.
    rewrite getToken_plain_run by done. rewrite bind_Returns. cbv beta iota.
    rewrite parseLogQlExpr_loop_S, getToken_at_end, bind_Returns. simpl.
    rewrite items_push_back. reflexivity.
Qed.

(** X6.  A pattern without angle brackets that does not begin with a
    question mark compiles to a single literal expression holding the whole
    pattern. *)
Theorem plain_pattern_is_one_literal lit :
  lit ≠ "" → all_chars plain_char lit = true → front lit ≠ "?"%char →
  Vec.items <$> parseLogQlExpr lit =
    Returns [Expression.mk lit ExpressionType.Literal NUL].
Proof.
  intros Hne Hplain Hq. unfold parseLogQlExpr.
  rewrite parseLogQlExpr_loop_tail; [|assumption..|].
  - rewrite decide_False by exact Hne. reflexivity.
  - destruct lit; [done|]. simpl. lia.
Qed.

Lemma plain_pattern_is_one_literal_witness :
  Vec.items <$> parseLogQlExpr "error: disk full" =
    Returns [Expression.mk "error: disk full" ExpressionType.Literal NUL].
Proof.
  apply (plain_pattern_is_one_literal "error: disk full");
    [discriminate | reflexivity | discriminate].
Defined.

(** X7.  A pattern made of one capture, mandatory or optional, and the
    literal after it compiles to the capture followed by the literal, and
    the capture's [endToken] is the first character of that literal, or NUL
    when the pattern ends with the capture. *)
Theorem capture_endToken_is_next_character (optional : bool) a lit :
  a ≠ "" → all_chars plain_char a = true → front a ≠ "?"%char →
  all_chars plain_char lit = true → front lit ≠ "?"%char →
  Vec.items <$>
    parseLogQlExpr ("<" +:+ (if optional then "?" else "") +:+ a +:+ ">" +:+ lit) =
    Returns
      (Expression.mk a
         (if optional then ExpressionType.OptionalCapture else ExpressionType.Capture)
         (front lit)
       :: if decide (lit = "") then []
          else [Expression.mk lit ExpressionType.Literal NUL]).
Proof.
  intros Hne Hplain Hq Hlit Hlq.
  assert (∃ tok tk,
             getToken {| stream := Chars lit |} = Returns (tok, tk)
             ∧ Token.type tok ≠ TokenType.QuestionMark
             ∧ Token.type tok ≠ TokenType.OpenAngle) as (tok & tk & Hget & Hnq & Hno).
  { destruct (decide (lit = "")) as [->|Hl].
    - rewrite getToken_at_end. eexists _, _. repeat split; discriminate.
    - pose proof (getToken_plain_run lit "" Hl Hlit Hlq eq_refl) as Hget.
      rewrite app_empty_r in Hget. rewrite Hget.
      eexists _, _. repeat split; discriminate. }
  unfold parseLogQlExpr.
  change (">" +:+ lit) with (String ">"%char lit).
  destruct optional.
  - change ("<" +:+ "?" +:+ a +:+ String ">"%char lit)
      with (String "<"%char (String "?"%char (a +:+ String ">"%char lit))).
    cbn [String.length]. rewrite parseLogQlExpr_loop_S, getToken_at_open, bind_Returns.
    cbv beta iota delta [parseCapture requireToken].
    rewrite getToken_at_question, bind_Returns. cbv beta iota zeta.
    rewrite bool_decide_eq_true_2 by reflexivity.
    rewrite getToken_plain_run by done. rewrite bind_Returns. cbv beta iota.
    rewrite decide_True by reflexivity.
    rewrite getToken_at_close, !bind_Returns. cbv beta iota. simpl negb. cbv iota.
    rewrite peekToken_getToken, Hget.
    rewrite !bind_Returns. cbv beta iota.
    rewrite decide_False by exact Hnq.
    unfold peekChar. simpl deref. rewrite !bind_Returns. cbv beta iota. simpl negb. cbv iota.
    rewrite peekToken_getToken, Hget, !bind_Returns. cbv beta iota.
    rewrite decide_False by exact Hno. cbn [Token.type Token.text].
    rewrite parseLogQlExpr_loop_tail; [reflexivity|assumption..|].
    rewrite length_app_str. simpl. destruct a; [done|simpl; lia].
  - change ("<" +:+ "" +:+ a +:+ String ">"%char lit)
      with (String "<"%char (a +:+ String ">"%char lit)).
    cbn [String.length]. rewrite parseLogQlExpr_loop_S, getToken_at_open, bind_Returns.
    cbv beta iota delta [parseCapture requireToken].
    rewrite getToken_plain_run by done. rewrite bind_Returns. cbv beta iota zeta.
    rewrite bool_decide_eq_false_2 by discriminate. rewrite bind_Returns. cbv beta iota.
    rewrite decide_True by reflexivity.
    rewrite getToken_at_close, !bind_Returns. cbv beta iota. simpl negb. cbv iota.
    rewrite peekToken_getToken, Hget.
    rewrite !bind_Returns. cbv beta iota.
    rewrite decide_False by exact Hnq.
    unfold peekChar. simpl deref. rewrite !bind_Returns. cbv beta iota. simpl negb. cbv iota.
    rewrite peekToken_getToken, Hget, !bind_Returns. cbv beta iota.
    rewrite decide_False by exact Hno. cbn [Token.type Token.text].
    rewrite parseLogQlExpr_loop_tail; [reflexivity|assumption..|].
    rewrite length_app_str. simpl. destruct a; [done|simpl; lia].
Qed.

Lemma capture_endToken_is_next_character_witness :
  Vec.items <$>
    parseLogQlExpr ("<" +:+ (if true then "?" else "") +:+ "user" +:+ ">" +:+ " logged in") =
    Returns
      (Expression.mk "user"
         (if true then ExpressionType.OptionalCapture else ExpressionType.Capture)
         (front " logged in")
       :: if decide (" logged in" = "") then []
          else [Expression.mk " logged in" ExpressionType.Literal NUL]).
Proof.
  apply (capture_endToken_is_next_character true "user" " logged in");
    first [discriminate | reflexivity].
Defined.

(** ** Slash-separated fields, again *)

Lemma find_Some_split c str pos :
  find c str = Some pos →
  str = substr_to pos str +:+ String c (substr_from (pos + 1) str)
  ∧ all_chars (λ c', bool_decide (c' ≠ c)) (substr_to pos str) = true.
Proof.
  revert pos. induction str as [|c' str IH]; intros pos; simpl; [discriminate|].
  case_decide as Hc.
  - intros [= <-]. subst c'. split; reflexivity.
  - destruct (find c str) as [n|]; simpl; [|discriminate].
    intros [= <-]. destruct (IH n eq_refl) as [Hsplit Hfree]. simpl.
    rewrite app_cons, <- Hsplit, Hfree, bool_decide_eq_true_2 by exact Hc.
    split; reflexivity.
Qed.

Lemma find_None_free c str :
  find c str = None → all_chars (λ c', bool_decide (c' ≠ c)) str = true.
Proof.
  induction str as [|c' str IH]; simpl; [reflexivity|].
  case_decide as Hc; [discriminate|].
  destruct (find c str); simpl; [discriminate|]. intros _.
  rewrite IH, bool_decide_eq_true_2 by done. reflexivity.
Qed.

Lemma join_slash_cons f fields :
  join_slash (f :: fields) =
    if decide (fields = []) then f else f +:+ "/" +:+ join_slash fields.
Proof. destruct fields; reflexivity. Qed.

Lemma splitSlashSeparatedField_loop_rejoin fuel str ret :
  String.length str < fuel →
  ∃ fields,
    splitSlashSeparatedField_loop fuel str ret = Returns (ret ++ fields)
    ∧ Forall (λ f, all_chars not_slash f = true) fields
    ∧ (join_slash fields = str ∨ join_slash fields +:+ "/" = str)
    ∧ (fields = [] ↔ str = "").
Proof.
  revert str ret. induction fuel as [|fuel IH]; intros str ret Hlen; [lia|].
  simpl. destruct (find "/"%char str) as [pos|] eqn:Hfind.
  - apply find_Some_lt in Hfind as Hpos.
    apply find_Some_split in Hfind as [Hsplit Hfree].
    destruct (IH (substr_from (pos + 1) str) (ret ++ [substr_to pos str]))
      as (fields & -> & Hall & Hjoin & Hnil).
    { rewrite length_substr_from. lia. }
    exists (substr_to pos str :: fields). rewrite <- app_assoc.
    split; [reflexivity|]. split; [constructor; assumption|].
    split; [|split; [discriminate|intros ->; destruct (substr_to pos ""); discriminate]].
    rewrite join_slash_cons. case_decide as Hf.
    + right. apply Hnil in Hf. rewrite Hf in Hsplit. symmetry. exact Hsplit.
    + destruct Hjoin as [Hjoin|Hjoin].
      * left. rewrite Hjoin. symmetry. exact Hsplit.
      * right. rewrite !app_assoc_str, Hjoin. symmetry. exact Hsplit.
  - apply find_None_free in Hfind. case_decide as Hempty.
    + exists []. rewrite app_nil_r. subst str. repeat split; auto.
    + exists [str]. repeat split; auto; try discriminate.
      intros ->. done.
Qed.

(** X8.  [splitSlashSeparatedField] always returns; no field it returns
    holds a slash; the fields joined by slashes give the text back, up to
    one slash at the very end, which is dropped; and the list of fields is
    empty only for the empty text. *)
Theorem split_fields_rejoin str :
  ∃ fields,
    splitSlashSeparatedField str = Returns fields
    ∧ Forall (λ f, all_chars not_slash f = true) fields
    ∧ (join_slash fields = str ∨ join_slash fields +:+ "/" = str)
    ∧ (fields = [] ↔ str = "").
Proof.
  destruct (splitSlashSeparatedField_loop_rejoin (S (String.length str)) str [])
    as (fields & Hrun & Hrest); [lia|].
  exists fields. split; [exact Hrun|exact Hrest].
Qed.

(** ** Parsers of named captures *)

Section NamedCaptures.
Variable kECSParserMapper : gmap string ParserType.
Variable kParsersConfig : ParserType → option (Parser → list string → Parser).

End NamedCaptures.


(** ** Failures of [getParserOp] *)

Lemma parseLogQlExpr_loop_grows fuel tokenizer expresions expresions' :
  parseLogQlExpr_loop fuel tokenizer expresions = Returns expresions' →
  length (Vec.items expresions) ≤ length (Vec.items expresions').
Proof.
  revert tokenizer expresions.
  induction fuel as [|fuel IH]; intros tokenizer expresions H; [discriminate|].
  simpl in H. inv_bind H.
  destruct (Token.type t) eqn:Hty; try discriminate.
  - inv_bind H. destruct b; simpl in H.
    + inv_bind H. case_decide; [inv_bind H; discriminate|].
      apply IH in H.
      destruct (parseCapture_tags _ _ _ _ E0) as (block & Htags & _).
      apply (f_equal length) in Htags. unfold tags in Htags.
      rewrite length_app, !length_fmap in Htags. lia.
    + inv_bind H. discriminate.
  - apply IH in H. rewrite items_push_back, length_app in H. lia.
  - injection H as <-. lia.
Qed.

Lemma parseLogQlExpr_loop_empty fuel tokenizer expresions expresions' :
  parseLogQlExpr_loop fuel tokenizer expresions = Returns expresions' →
  Vec.items expresions' = [] →
  ∃ token tokenizer',
    getToken tokenizer = Returns (token, tokenizer')
    ∧ Token.type token = TokenType.EndOfExpr.
Proof.
  destruct fuel as [|fuel]; intros H Hnil; [discriminate|].
  simpl in H. inv_bind H.
  destruct (Token.type t) eqn:Hty; try discriminate.
  - exfalso. inv_bind H. destruct b; simpl in H.
    + inv_bind H. case_decide; [inv_bind H; discriminate|].
      apply parseLogQlExpr_loop_grows in H.
      destruct (parseCapture_tags _ _ _ _ E0) as (block & Htags & Hblock).
      apply (f_equal length) in Htags. unfold tags in Htags.
      rewrite length_app, !length_fmap in Htags. rewrite Hnil in H. simpl in H.
      destruct Hblock as [-> | [-> | ->]]; simpl in Htags; lia.
    + inv_bind H. discriminate.
  - exfalso. apply parseLogQlExpr_loop_grows in H.
    rewrite items_push_back, length_app, Hnil in H. simpl in H. lia.
  - eauto.
Qed.

(** A pattern compiles to no expression at all only if it begins with NUL. *)
Lemma parseLogQlExpr_empty expr expresions :
  parseLogQlExpr expr = Returns expresions →
  Vec.items expresions = [] → front expr = NUL.
Proof.
  intros H Hnil.
  destruct (parseLogQlExpr_loop_empty _ _ _ _ H Hnil) as (token & tk' & Hget & Hty).
  rewrite getToken_Chars in Hget. cbv zeta in Hget.
  repeat (case_decide; [injection Hget as <- _; try discriminate; assumption|]).
  destruct expr; [done|]. injection Hget as <- _. discriminate.
Qed.

Lemma compile_msg_not_could_not_convert msg :
  compile_msg msg → msg ≠ could_not_convert_msg.
Proof.
  intros [->|(prev & [-> | ->])] Heq;
    apply (f_equal (substr_to 6)) in Heq; vm_compute in Heq; discriminate.
Qed.

Section CompileFailures.
Context {Value : Type}.
Variable kECSParserMapper : gmap string ParserType.
Variable kParsersConfig : ParserType → option (Parser → list string → Parser).
Variable kAvailableParsers : ParserType → option (@ParserFunc Value).

Lemma createParserFromExpresion_never_throws exp e :
  createParserFromExpresion kECSParserMapper kParsersConfig exp ≠ Throws e.
Proof.
  unfold createParserFromExpresion.
  destruct (splitSlashSeparatedField_returns (Expression.text exp)) as (fields & -> & _).
  simpl. destruct fields as [|name args]; [discriminate|].
  destruct (if decide (front name = "_"%char) then _ else _). discriminate.
Qed.

Lemma getParserList_loop_length expressions :
  match getParserList_loop kECSParserMapper kParsersConfig expressions with
  | Returns parsers => length parsers = length expressions
  | Throws _ => False
  | _ => True
  end.
Proof.
  induction expressions as [|e es IH]; [reflexivity|]. simpl.
  assert (∀ m : Outcome Parser, (∀ x, m ≠ Throws x) →
            match m ≫= λ p, getParserList_loop kECSParserMapper kParsersConfig es
                              ≫= λ parsers, Returns (p :: parsers) with
            | Returns parsers => length parsers = S (length es)
            | Throws _ => False
            | _ => True
            end) as Hgen.
  { intros [p|x|u|] Hm; simpl; try done; [|by destruct (Hm x)].
    destruct (getParserList_loop _ _ es); simpl; try done. lia. }
  destruct (Expression.type e); apply Hgen;
    first [apply createParserFromExpresion_never_throws | discriminate].
Qed.

(** X10.  When [getParserOp] throws, it is an invalid-argument error exactly
    for the empty pattern; for every other pattern it is a runtime error
    with one of the diagnostics of [parseLogQlExpr], or the empty-output
    message, which needs a pattern that begins with NUL.  The error "Could
    not convert expressions to parser List" is never thrown. *)
Theorem getParserOp_failures logQl e :
  getParserOp kECSParserMapper kParsersConfig kAvailableParsers logQl = Throws e →
  (logQl = "" ∧ e = MkExn InvalidArgument "[HLP]Empty LogQL expression")
  ∨ (logQl ≠ ""
     ∧ ∃ msg,
         e = MkExn RuntimeError msg
         ∧ (compile_msg msg ∨ (msg = empty_output_msg ∧ front logQl = NUL))
         ∧ msg ≠ could_not_convert_msg).
Proof.
  unfold getParserOp. case_decide as Hempty.
  { intros [= <-]. left. split; [exact Hempty|reflexivity]. }
  intros H. right. split; [exact Hempty|].
  pose proof (parseLogQlExpr_loop_outcome (S (String.length logQl))
                {| stream := Chars logQl |} Vec.empty) as Hout.
  fold (parseLogQlExpr logQl) in Hout.
  destruct (parseLogQlExpr logQl) as [expressions|x|u|] eqn:Hparse;
    simpl in H; try discriminate.
  - destruct (Vec.items expressions) as [|e0 es] eqn:Hitems.
    + injection H as <-. exists empty_output_msg. split; [reflexivity|].
      split; [|discriminate]. right. split; [reflexivity|].
      eapply parseLogQlExpr_empty; eassumption.
    + exfalso. unfold getParserList in H.
      pose proof (getParserList_loop_length (Vec.items expressions)) as Hlen.
      rewrite Hitems in Hlen, H.
      destruct (getParserList_loop _ _ (e0 :: es)) as [[|p ps]|x|u|];
        simpl in H, Hlen; try discriminate; try done.
  - injection H as <-. destruct Hout as (msg & -> & Hmsg).
    exists msg. split; [reflexivity|]. split; [left; exact Hmsg|].
    apply compile_msg_not_could_not_convert, Hmsg.
Qed.
End CompileFailures.

Lemma getParserOp_failures_witness :
  ("<a" = "" ∧ MkExn RuntimeError (capture_error_msg "<a")
               = MkExn InvalidArgument "[HLP]Empty LogQL expression")
  ∨ ("<a" ≠ ""
     ∧ ∃ msg,
         MkExn RuntimeError (capture_error_msg "<a") = MkExn RuntimeError msg
         ∧ (compile_msg msg ∨ (msg = empty_output_msg ∧ front "<a" = NUL))
         ∧ msg ≠ could_not_convert_msg).
Proof.
  apply (getParserOp_failures demoSchema demoParsersConfig demoParsers "<a"
           (MkExn RuntimeError (capture_error_msg "<a"))).
  reflexivity.
Defined.

(** ** Runs of [executeParserList] *)

Section ExecutorRuns.
Context {Value : Type}.
Variable kAvailableParsers : ParserType → option (@ParserFunc Value).

(** What one iteration of the loop can do. *)
Lemma executeParserList_step_cases parser st :
  match executeParserList_step kAvailableParsers parser st with
  | Continue st' =>
      isOk st' = true
      ∧ is_Some (kAvailableParsers (Parser.type parser))
      ∧ (trace st' = trace st +:+ success_msg (Parser.name parser)
         ∨ (trace st' = trace st ∧ eventIt st' = eventIt st ∧ optional_parser parser))
  | Return r _ =>
      ExecuteResult.ok r = false
      ∧ (ExecuteResult.trace r = trace st +:+ failure_msg (Parser.name parser)
         ∧ ¬ optional_parser parser
         ∧ is_Some (kAvailableParsers (Parser.type parser))
         ∨ ExecuteResult.trace r = trace st +:+ missing_impl_msg (Parser.name parser)
           ∧ kAvailableParsers (Parser.type parser) = None)
  end.
Proof.
  unfold executeParserList_step, optional_parser.
  destruct (kAvailableParsers (Parser.type parser)) as [parseFunc|]; simpl.
  - destruct (parseFunc (eventIt st) parser (result st)) as [[[] it'] result']; simpl.
    + eauto.
    + case_decide; simpl; eauto 10.
  - eauto.
Qed.

(** The loop from a state whose [isOk] is set, as a whole. *)
Lemma executeParserList_loop_run parsers st r res :
  executeParserList_loop kAvailableParsers parsers st = (r, res) →
  isOk st = true →
  if ExecuteResult.ok r then
    ∃ ran,
      sublist ran parsers
      ∧ ExecuteResult.trace r = trace st +:+ success_trace ran
      ∧ (∀ p, p ∈ parsers →
           is_Some (kAvailableParsers (Parser.type p))
           ∧ (optional_parser p ∨ p ∈ ran))
  else
    ∃ pre p post ran,
      parsers = pre ++ p :: post
      ∧ sublist ran pre
      ∧ (ExecuteResult.trace r
           = trace st +:+ success_trace ran +:+ failure_msg (Parser.name p)
         ∧ ¬ optional_parser p
         ∧ is_Some (kAvailableParsers (Parser.type p))
         ∨ ExecuteResult.trace r
             = trace st +:+ success_trace ran +:+ missing_impl_msg (Parser.name p)
           ∧ kAvailableParsers (Parser.type p) = None).
Proof.
  revert st. induction parsers as [|parser parsers IH]; intros st Hrun Hok.
  - injection Hrun as <- <-. simpl. rewrite Hok.
    exists []. split; [constructor|]. split; [symmetry; apply app_empty_r|].
    intros p Hp. inversion Hp.
  - rewrite executeParserList_loop_cons in Hrun.
    pose proof (executeParserList_step_cases parser st) as Hstep.
    destruct (executeParserList_step kAvailableParsers parser st) as [st'|r' res'].
    + destruct Hstep as (Hok' & Himpl & Htrace).
      specialize (IH st' Hrun Hok').
      destruct (ExecuteResult.ok r).
      * destruct IH as (ran & Hsub & Htr & Hall).
        destruct Htrace as [Htrace|(Htrace & _ & Hopt)].
        -- exists (parser :: ran). split; [constructor; exact Hsub|].
           split.
           { rewrite Htr, Htrace, app_assoc_str. reflexivity. }
           intros p [->|Hp]%elem_of_cons.
           ++ split; [exact Himpl|]. right. left.
           ++ destruct (Hall p Hp) as [? [?|?]]; split; auto.
              right. right. assumption.
        -- exists ran. split; [constructor; exact Hsub|].
           split; [rewrite Htr, Htrace; reflexivity|].
           intros p [->|Hp]%elem_of_cons; [auto|apply Hall, Hp].
      * destruct IH as (pre & p & post & ran & -> & Hsub & Hcase).
        destruct Htrace as [Htrace|(Htrace & _ & Hopt)].
        -- exists (parser :: pre), p, post, (parser :: ran).
           split; [reflexivity|]. split; [constructor; exact Hsub|].
           rewrite Htrace in Hcase.
           change (success_trace (parser :: ran))
             with (success_msg (Parser.name parser) +:+ success_trace ran).
           rewrite !app_assoc_str in Hcase. rewrite !app_assoc_str. exact Hcase.
        -- exists (parser :: pre), p, post, ran.
           split; [reflexivity|]. split; [constructor; exact Hsub|].
           rewrite Htrace in Hcase. exact Hcase.
    + injection Hrun as <- <-. destruct Hstep as (-> & Hcase).
      exists [], parser, parsers, []. split; [reflexivity|].
      split; [constructor|]. exact Hcase.
Qed.

Lemma executeParserList_loop_failed parsers1 parsers2 st r res :
  executeParserList_loop kAvailableParsers parsers1 st = (r, res) →
  isOk st = true →
  ExecuteResult.ok r = false →
  executeParserList_loop kAvailableParsers (parsers1 ++ parsers2) st = (r, res).
Proof.
  revert st. induction parsers1 as [|parser parsers IH]; intros st Hrun Hok Hfail.
  - injection Hrun as <- <-. simpl in Hfail. congruence.
  - simpl app. rewrite executeParserList_loop_cons in *.
    pose proof (executeParserList_step_cases parser st) as Hstep.
    destruct (executeParserList_step kAvailableParsers parser st) as [st'|r' res'].
    + apply IH; [exact Hrun|apply Hstep|exact Hfail].
    + exact Hrun.
Qed.

(** X11.  A failed run is final: parsers appended to a list that fails on
    an event are never run, and the result, the trace and the [ParseResult]
    written so far are the same. *)
Theorem failed_run_ignores_later_parsers event parsers later result r res :
  executeParserList kAvailableParsers event parsers result = (r, res) →
  ExecuteResult.ok r = false →
  executeParserList kAvailableParsers event (parsers ++ later) result = (r, res).
Proof.
  intros Hrun Hfail. unfold executeParserList in *.
  apply executeParserList_loop_failed; [exact Hrun|reflexivity|exact Hfail].
Qed.

(** X12.  The trace of a run.  On success it is the success lines of a
    subsequence of the parser list that leaves out optional parsers only, and
    every parser has an implementation.  On failure it is the success lines
    of parsers before the culprit, followed by one failure line that names
    the culprit: a mandatory parser that failed, or a parser whose type has
    no implementation. *)
Theorem trace_accounts_for_the_run event parsers result r res :
  executeParserList kAvailableParsers event parsers result = (r, res) →
  if ExecuteResult.ok r then
    ∃ ran,
      sublist ran parsers
      ∧ ExecuteResult.trace r = success_trace ran
      ∧ (∀ p, p ∈ parsers →
           is_Some (kAvailableParsers (Parser.type p))
           ∧ (optional_parser p ∨ p ∈ ran))
  else
    ∃ pre p post ran,
      parsers = pre ++ p :: post
      ∧ sublist ran pre
      ∧ (ExecuteResult.trace r = success_trace ran +:+ failure_msg (Parser.name p)
         ∧ ¬ optional_parser p
         ∧ is_Some (kAvailableParsers (Parser.type p))
         ∨ ExecuteResult.trace r
             = success_trace ran +:+ missing_impl_msg (Parser.name p)
           ∧ kAvailableParsers (Parser.type p) = None).
Proof.
  intros Hrun. unfold executeParserList in Hrun.
  exact (executeParserList_loop_run _ _ _ _ Hrun eq_refl).
Qed.

(** X13.  A list of optional parsers whose types all have an implementation
    succeeds on every event. *)
Theorem optional_parsers_never_fail event parsers result :
  (∀ p, p ∈ parsers →
     optional_parser p ∧ is_Some (kAvailableParsers (Parser.type p))) →
  ExecuteResult.ok (executeParserList kAvailableParsers event parsers result).1 = true.
Proof.
  intros Hall.
  destruct (executeParserList kAvailableParsers event parsers result) as [r res] eqn:Hrun.
  unfold executeParserList in Hrun.
  pose proof (executeParserList_loop_run _ _ _ _ Hrun eq_refl) as Hshape.
  simpl. destruct (ExecuteResult.ok r); [reflexivity|exfalso].
  destruct Hshape as (pre & p & post & ran & -> & _ & Hcase).
  destruct (Hall p) as [Hopt [f Himpl]].
  { apply elem_of_app. right. left. }
  destruct Hcase as [(_ & Hmand & _)|(_ & Hnone)]; [auto|congruence].
Qed.
End ExecutorRuns.

Lemma failed_run_ignores_later_parsers_witness :
  executeParserList demoParsers "hello"
    ([Parser.mk "port" ParserType.Number ExpressionType.Capture NUL []]
     ++ [Parser.mk "rest" ParserType.Any ExpressionType.Capture NUL []]) ∅
  = (ExecuteResult.mk false ("" +:+ failure_msg "port"), ∅).
Proof.
  apply (failed_run_ignores_later_parsers demoParsers "hello"
           [Parser.mk "port" ParserType.Number ExpressionType.Capture NUL []]
           [Parser.mk "rest" ParserType.Any ExpressionType.Capture NUL []] ∅
           (ExecuteResult.mk false ("" +:+ failure_msg "port")) ∅);
    reflexivity.
Defined.

Lemma trace_accounts_for_the_run_witness :
  ∃ pre p post ran,
    [Parser.mk "port" ParserType.Number ExpressionType.OptionalCapture "/"%char [];
     Parser.mk "/" ParserType.Literal ExpressionType.Literal NUL [];
     Parser.mk "id" ParserType.Number ExpressionType.Capture NUL []]
    = pre ++ p :: post
    ∧ sublist ran pre
    ∧ ("" +:+ success_msg "/" +:+ failure_msg "id"
         = success_trace ran +:+ failure_msg (Parser.name p)
       ∧ ¬ optional_parser p
       ∧ is_Some (demoParsers (Parser.type p))
       ∨ "" +:+ success_msg "/" +:+ failure_msg "id"
           = success_trace ran +:+ missing_impl_msg (Parser.name p)
         ∧ demoParsers (Parser.type p) = None).
Proof.
  exact (trace_accounts_for_the_run demoParsers "/x"
           [Parser.mk "port" ParserType.Number ExpressionType.OptionalCapture "/"%char [];
            Parser.mk "/" ParserType.Literal ExpressionType.Literal NUL [];
            Parser.mk "id" ParserType.Number ExpressionType.Capture NUL []] ∅
           (ExecuteResult.mk false ("" +:+ success_msg "/" +:+ failure_msg "id")) ∅
           eq_refl).
Defined.

Lemma optional_parsers_never_fail_witness :
  ExecuteResult.ok
    (executeParserList demoParsers "hello"
       [Parser.mk "port" ParserType.Number ExpressionType.OptionalCapture NUL [];
        Parser.mk "id" ParserType.Number ExpressionType.OrCapture NUL []] ∅).1 = true.
Proof.
  apply (optional_parsers_never_fail demoParsers "hello"
           [Parser.mk "port" ParserType.Number ExpressionType.OptionalCapture NUL [];
            Parser.mk "id" ParserType.Number ExpressionType.OrCapture NUL []] ∅).
  intros p Hp. apply elem_of_cons in Hp as [->|Hp].
  - split; [left; reflexivity|eexists; reflexivity].
  - apply list_elem_of_singleton in Hp as ->.
    split; [right; reflexivity|eexists; reflexivity].
Defined.

(** ** The schema configuration *)

Lemma configureParserMappings_loop_lookup members mapper name :
  (configureParserMappings_loop members mapper).1 !! name =
  match last (assigned name members) with
  | Some pt => Some pt
  | None => mapper !! name
  end.
Proof.
  revert mapper. induction members as [|[n v] rest IH]; intros mapper; [reflexivity|].
  destruct v; try reflexivity. simpl.
  destruct (kSchema2ParserType !! s) as [pt|]; [|apply IH].
  rewrite IH. case_decide as Hn.
  - subst n. rewrite last_cons.
    destruct (last (assigned name rest)); [reflexivity|].
    apply lookup_insert_eq.
  - destruct (last (assigned name rest)); [reflexivity|].
    apply lookup_insert_ne, Hn.
Qed.

Lemma configureParserMappings_loop_outcome members mapper mapper' :
  (configureParserMappings_loop members mapper).2
  = (configureParserMappings_loop members mapper').2.
Proof.
  revert mapper mapper'. induction members as [|[n v] rest IH]; intros mapper mapper';
    [reflexivity|].
  destruct v; try reflexivity. simpl.
  destruct (kSchema2ParserType !! s); apply IH.
Qed.

Lemma assigned_known name members pt :
  pt ∈ assigned name members →
  ∃ n ty, (n, JString ty) ∈ members ∧ n = name ∧ kSchema2ParserType !! ty = Some pt.
Proof.
  induction members as [|[n v] rest IH]; simpl; [by intros ?%elem_of_nil|].
  destruct v; try by intros ?%elem_of_nil.
  destruct (kSchema2ParserType !! s) as [pt'|] eqn:Hty.
  - case_decide as Hn.
    + intros [->|Hin]%elem_of_cons.
      * exists n, s. split; [left|]. split; assumption.
      * destruct (IH Hin) as (n' & ty & Hin' & Hrest). exists n', ty.
        split; [right; exact Hin'|exact Hrest].
    + intros Hin. destruct (IH Hin) as (n' & ty & Hin' & Hrest). exists n', ty.
      split; [right; exact Hin'|exact Hrest].
  - intros Hin. destruct (IH Hin) as (n' & ty & Hin' & Hrest). exists n', ty.
    split; [right; exact Hin'|exact Hrest].
Qed.

Section SchemaConfiguration.
Variable Parse : string → option Json.

Lemma configureParserMappings_lookup config mapper name :
  (configureParserMappings Parse config mapper).1 !! name =
  match last (assigned name
                (if decide (config = "") then []
                 else members_of (Parse (c_str config)))) with
  | Some pt => Some pt
  | None => mapper !! name
  end.
Proof.
  unfold configureParserMappings. case_decide; [reflexivity|].
  destruct (Parse (c_str config)) as [doc|]; [|reflexivity].
  destruct doc; try reflexivity. simpl.
  apply configureParserMappings_loop_lookup.
Qed.

(** X14.  [configureParserMappings] forgets nothing: every field that has
    a type keeps one, whatever the configuration text is and however the call
    ends, and the type of a field after the call is the one it had or one of
    the types of [kSchema2ParserType] that a member of the document assigns
    to that field. *)
Theorem configuration_keeps_known_fields config mapper :
  dom mapper ⊆ dom (configureParserMappings Parse config mapper).1
  ∧ ∀ name,
      (configureParserMappings Parse config mapper).1 !! name = mapper !! name
      ∨ ∃ ty pt,
          (name, JString ty) ∈ members_of (Parse (c_str config))
          ∧ kSchema2ParserType !! ty = Some pt
          ∧ (configureParserMappings Parse config mapper).1 !! name = Some pt.
Proof.
  split.
  - intros name Hin%elem_of_dom. apply elem_of_dom.
    rewrite configureParserMappings_lookup. destruct (last _); eauto.
  - intros name. rewrite configureParserMappings_lookup.
    destruct (last _) as [pt|] eqn:Hlast; [|left; reflexivity].
    right. apply last_Some_elem_of in Hlast.
    case_decide; [by apply elem_of_nil in Hlast|].
    apply assigned_known in Hlast as (n & ty & Hin & -> & Hty). eauto.
Qed.

(** X15.  The last entry wins, an unknown type changes nothing: after a
    configuration whose document is an object with string values only, the
    call completes and each field has the type of the last member of that
    name whose value is a known type name; a field with no such member has
    the type it had before. *)
Theorem configuration_last_known_entry_wins config members mapper :
  config ≠ "" →
  Parse (c_str config) = Some (JObject members) →
  Forall (λ m, ∃ ty, m.2 = JString ty) members →
  (configureParserMappings Parse config mapper).2 = Returns ()
  ∧ ∀ name,
      (configureParserMappings Parse config mapper).1 !! name =
      match last (assigned name members) with
      | Some pt => Some pt
      | None => mapper !! name
      end.
Proof.
  intros Hne Hparse Hstr. split.
  - unfold configureParserMappings. rewrite decide_False, Hparse by exact Hne. simpl.
    clear Hparse. revert mapper.
    induction Hstr as [|[n v] rest [ty Hv] _ IH]; intros mapper; [reflexivity|].
    simpl in Hv. subst v. simpl.
    destruct (kSchema2ParserType !! ty); apply IH.
  - intros name. rewrite configureParserMappings_lookup.
    rewrite decide_False, Hparse by exact Hne. reflexivity.
Qed.

(** X16.  Configuring twice with the same text is the same as configuring
    once: the second call leaves the map as the first one made it and ends
    the same way. *)
Theorem configuration_is_idempotent config mapper :
  configureParserMappings Parse config
    (configureParserMappings Parse config mapper).1
  = configureParserMappings Parse config mapper.
Proof.
  apply injective_projections.
  - apply map_eq. intros name. rewrite !configureParserMappings_lookup.
    destruct (last _); reflexivity.
  - unfold configureParserMappings. case_decide; [reflexivity|].
    destruct (Parse (c_str config)) as [doc|]; [|reflexivity].
    destruct doc; try reflexivity. simpl.
    apply configureParserMappings_loop_outcome.
Qed.
End SchemaConfiguration.

Lemma configuration_last_known_entry_wins_witness :
  (configureParserMappings demoParse demoSchemaText {["event.code" := ParserType.Number]}).2
  = Returns ()
  ∧ ∀ name,
      (configureParserMappings demoParse demoSchemaText
         {["event.code" := ParserType.Number]}).1 !! name =
      match last (assigned name
                    [("source.port", JString "number");
                     ("event.code", JString "long");
                     ("source.port", JString "keyword")]) with
      | Some pt => Some pt
      | None => ({["event.code" := ParserType.Number]} : gmap string ParserType) !! name
      end.
Proof.
  apply (configuration_last_known_entry_wins demoParse demoSchemaText
           [("source.port", JString "number");
            ("event.code", JString "long");
            ("source.port", JString "keyword")]
           {["event.code" := ParserType.Number]}).
  - discriminate.
  - reflexivity.
  - repeat constructor; eexists; reflexivity.
Defined.

(** ** The decoder builder *)

Lemma labelled_bind {A B} (m : Outcome A) (f : A → Outcome B) :
  labelled m → (∀ a, labelled (f a)) → labelled (m ≫= f).
Proof. destruct m; simpl; auto. Qed.

Lemma labelled_try_nested {A} k rest (body : Outcome A) :
  k = InvalidArgument ∨ k = RuntimeError →
  labelled (try_nested k ("Decoder builder " +:+ rest) body).
Proof.
  intros Hk. destruct body; simpl; try exact I.
  split; [exact Hk|]. exists rest. reflexivity.
Qed.

Lemma labelled_throw {A} k rest :
  k = InvalidArgument ∨ k = RuntimeError →
  labelled (Throws (MkExn k ("Decoder builder " +:+ rest)) : Outcome A).
Proof. intros Hk. split; [exact Hk|]. exists rest. reflexivity. Qed.

Lemma FindMember_app key l l' :
  FindMember key (l ++ l') =
  match FindMember key l with
  | Some v => Some v
  | None => FindMember key l'
  end.
Proof.
  induction l as [|[k v] l IH]; [reflexivity|]. simpl.
  case_decide; [reflexivity|exact IH].
Qed.

Lemma FindMember_elem_of key l :
  key ∈ l.*1 → is_Some (FindMember key l).
Proof.
  induction l as [|[k v] l IH]; simpl; [by intros ?%elem_of_nil|].
  intros [->|Hin]%elem_of_cons; [rewrite decide_True by reflexivity; eauto|].
  case_decide; [eauto|apply IH, Hin].
Qed.

Section DecoderFacts.
Context {Observable Event TracerFn : Type}.
Variable filter : Observable → (Event → bool) → Observable.
Variable isDecoded : Event → bool.
Variable tracerLogger : Tracer → TracerFn.
Variable getBuilder : string → Outcome (@BuilderVariant Observable TracerFn).

Lemma restOfStages_labelled objDef tr proccessed stages :
  labelled (restOfStages tracerLogger getBuilder objDef tr proccessed stages).
Proof.
  revert proccessed stages.
  induction objDef as [|[stageName stageDef] objDef IH]; intros proccessed stages;
    [exact I|].
  simpl. case_decide; [|apply IH].
  apply labelled_bind; [|intros stage; apply IH].
  apply (labelled_try_nested RuntimeError
           ("encountered exception building stage " +:+ stageName)).
  right. reflexivity.
Qed.

(** X17.  Every exception that leaves [assetBuilderDecoder], whatever the
    registry and the stage builders throw, is a [std::invalid_argument] or a
    [std::runtime_error] whose message begins with "Decoder builder ". *)
Theorem decoder_errors_are_labelled def e :
  assetBuilderDecoder filter isDecoded tracerLogger getBuilder def = Throws e →
  (kind e = InvalidArgument ∨ kind e = RuntimeError)
  ∧ ∃ rest, what e = "Decoder builder " +:+ rest.
Proof.
  intros H.
  assert (labelled (assetBuilderDecoder filter isDecoded tracerLogger getBuilder def))
    as Hlab; [|rewrite H in Hlab; exact Hlab].
  clear H. unfold assetBuilderDecoder.
  destruct def as [| | |objDef| | |];
    try (apply (labelled_throw InvalidArgument); left; reflexivity).
  cbv zeta.
  apply labelled_bind.
  { destruct (HasMember "name" objDef).
    - apply (labelled_try_nested RuntimeError). right. reflexivity.
    - apply (labelled_throw RuntimeError). right. reflexivity. }
  intros [name proccessed]. apply labelled_bind.
  { destruct (HasMember "parents" objDef); [|exact I].
    apply (labelled_try_nested InvalidArgument). left. reflexivity. }
  intros [parents proccessed1]. apply labelled_bind.
  { destruct (HasMember "metadata" objDef); [|exact I].
    apply (labelled_try_nested RuntimeError). right. reflexivity. }
  intros [metadata proccessed2]. apply labelled_bind.
  { destruct (HasMember "check" objDef).
    - apply (labelled_try_nested RuntimeError). right. reflexivity.
    - apply (labelled_throw InvalidArgument). left. reflexivity. }
  intros [stages proccessed3]. apply labelled_bind.
  { apply restOfStages_labelled. }
  intros stages'. unfold chainStages.
  apply (labelled_try_nested RuntimeError). right. reflexivity.
Qed.
End DecoderFacts.

Lemma decoder_errors_are_labelled_witness :
  (kind (WithNested RuntimeError
           "Decoder builder encountered exception building stage enrich"
           (MkExn InvalidArgument "unknown builder")) = InvalidArgument
   ∨ kind (WithNested RuntimeError
             "Decoder builder encountered exception building stage enrich"
             (MkExn InvalidArgument "unknown builder")) = RuntimeError)
  ∧ ∃ rest,
      what (WithNested RuntimeError
              "Decoder builder encountered exception building stage enrich"
              (MkExn InvalidArgument "unknown builder"))
      = "Decoder builder " +:+ rest.
Proof.
  apply (decoder_errors_are_labelled demoFilter (λ b : bool, b) (λ _, tt) demoRegistry
           (JObject [("name", JString "d1"); ("check", JObject []);
                     ("enrich", JObject [])])).
  reflexivity.
Defined.

Lemma bind_ext {A B} (m : Outcome A) (f g : A → Outcome B) :
  (∀ a, f a = g a) → m ≫= f = m ≫= g.
Proof. intros Hfg. destruct m; simpl; auto. Qed.

Lemma HasMember_member key members v :
  HasMember key members = true → member key members = v →
  FindMember key members = Some v.
Proof.
  unfold HasMember, member. intros [w Hw]%bool_decide_eq_true <-.
  rewrite Hw. reflexivity.
Qed.

Lemma try_nested_Returns {A} k msg (a : A) :
  try_nested k msg (Returns a) = Returns a.
Proof. reflexivity. Qed.

Section DecoderResults.
Context {Observable Event TracerFn : Type}.
Variable filter : Observable → (Event → bool) → Observable.
Variable isDecoded : Event → bool.
Variable tracerLogger : Tracer → TracerFn.
Variable getBuilder : string → Outcome (@BuilderVariant Observable TracerFn).

Lemma restOfStages_extends objDef tr proccessed stages stages' :
  restOfStages tracerLogger getBuilder objDef tr proccessed stages = Returns stages' →
  ∃ ops, stages' = stages ++ ops.
Proof.
  revert proccessed stages.
  induction objDef as [|[stageName stageDef] objDef IH]; intros proccessed stages H.
  - injection H as <-. exists []. rewrite app_nil_r. reflexivity.
  - simpl in H. case_decide; [|eapply IH, H].
    inv_bind H. apply IH in H as [ops ->].
    exists (a :: ops). rewrite <- app_assoc. reflexivity.
Qed.

(** X18.  What a built decoder says about its definition: when
    [assetBuilderDecoder] returns a connectable, the definition is an object
    whose [name] is a string, the connectable and its tracer carry that
    name, the parents are the strings of the [parents] array (none without
    the attribute), a [check] stage is present, and the operator is what
    [combinator.chain] made of a list of stages that begins with the
    not-yet-decoded filter followed by the [check] operator. *)
Theorem built_decoder_reflects_definition def c :
  assetBuilderDecoder filter isDecoded tracerLogger getBuilder def = Returns c →
  ∃ objDef name check opcheck ops chain,
    def = JObject objDef
    ∧ FindMember "name" objDef = Some (JString name)
    ∧ Connectable.name c = name
    ∧ Connectable.tracer c = Tracer.mk name
    ∧ parentsAre objDef (Connectable.parents c)
    ∧ metadataIsObject objDef
    ∧ FindMember "check" objDef = Some check
    ∧ buildStage tracerLogger getBuilder "check" check (Tracer.mk name) = Returns opcheck
    ∧ getBuilder "combinator.chain" = Returns (IsCombinatorBuilder chain)
    ∧ chain (notDecodedFilter filter isDecoded :: opcheck :: ops)
      = Returns (Connectable.op c).
Proof.
  intros H. unfold assetBuilderDecoder in H.
  destruct def as [| | |objDef| | |]; try discriminate.
  cbv zeta in H.
  inv_bind H. rename E into Hname.
  destruct (HasMember "name" objDef) eqn:Hhn; [|discriminate].
  destruct (member "name" objDef) as [| | | | |name|] eqn:Hmn; try discriminate.
  injection Hname as <- <-.
  inv_bind H. rename E into Hparents.
  inv_bind H. rename E into Hmeta.
  inv_bind H. rename E into Hcheck.
  destruct (HasMember "check" objDef) eqn:Hhc; [|discriminate].
  destruct (buildStage tracerLogger getBuilder "check" (member "check" objDef)
              (Tracer.mk name)) as [opcheck| | |] eqn:Hop; try discriminate.
  injection Hcheck as <- <-.
  inv_bind H. rename E into Hrest.
  apply restOfStages_extends in Hrest as [ops ->].
  unfold chainStages in H.
  destruct (getBuilder "combinator.chain") as [[b|chain]| | |] eqn:Hchain;
    try discriminate.
  simpl in H.
  destruct (chain _) as [composed| | |] eqn:Hcomposed; try discriminate.
  injection H as <-.
  exists objDef, name, (member "check" objDef), opcheck, ops, chain.
  split; [reflexivity|].
  split; [eapply HasMember_member; eassumption|].
  split; [reflexivity|]. split; [reflexivity|].
  split.
  { unfold parentsAre. simpl.
    destruct (HasMember "parents" objDef) eqn:Hhp.
    - destruct (member "parents" objDef) as [| | | |arr| |] eqn:Hmp; try discriminate.
      rewrite (HasMember_member _ _ _ Hhp Hmp). exists arr. split; [reflexivity|].
      simpl in Hparents.
      destruct (collectStrings arr []); try discriminate.
      injection Hparents as <- _. reflexivity.
    - rewrite HasMember_false in Hhp. rewrite Hhp.
      injection Hparents as <- _. reflexivity. }
  split.
  { unfold metadataIsObject.
    destruct (HasMember "metadata" objDef) eqn:Hhm.
    - destruct (member "metadata" objDef) as [| | |obj| | |] eqn:Hmm; try discriminate.
      rewrite (HasMember_member _ _ _ Hhm Hmm). eauto.
    - rewrite HasMember_false in Hhm. rewrite Hhm. exact I. }
  split; [eapply HasMember_member; [eassumption|reflexivity]|].
  split; [exact Hop|]. split; [reflexivity|].
  simpl. simpl in Hcomposed. exact Hcomposed.
Qed.

Lemma restOfStages_repeated objDef k v tr proccessed stages :
  k ∈ proccessed ∨ k ∈ objDef.*1 →
  restOfStages tracerLogger getBuilder (objDef ++ [(k, v)]) tr proccessed stages
  = restOfStages tracerLogger getBuilder objDef tr proccessed stages.
Proof.
  revert proccessed stages.
  induction objDef as [|[stageName stageDef] objDef IH]; intros proccessed stages Hk.
  - destruct Hk as [Hk|Hk]; [|by apply elem_of_nil in Hk].
    simpl. rewrite decide_False by (intros Hn; exact (Hn Hk)). reflexivity.
  - simpl. case_decide as Hnew.
    + apply bind_ext. intros stage. apply IH.
      destruct Hk as [Hk|[->|Hk]%elem_of_cons]; [left|left|right; exact Hk];
        set_solver.
    + apply IH. destruct Hk as [Hk|[->|Hk]%elem_of_cons]; [left; exact Hk| |right; exact Hk].
      left. exact Hnew.
Qed.

(** X19.  A member appended to a definition under a name the definition
    already has is ignored, whatever its value: attributes are read from the
    first member of their name and a stage name is built once. *)
Theorem repeated_member_is_ignored objDef k v :
  k ∈ objDef.*1 →
  assetBuilderDecoder filter isDecoded tracerLogger getBuilder
    (JObject (objDef ++ [(k, v)]))
  = assetBuilderDecoder filter isDecoded tracerLogger getBuilder (JObject objDef).
Proof.
  intros Hk.
  assert (∀ key, FindMember key (objDef ++ [(k, v)]) = FindMember key objDef) as Hfind.
  { intros key. rewrite FindMember_app.
    destruct (FindMember key objDef) eqn:Hkey; [reflexivity|]. simpl.
    case_decide as Heq; [|reflexivity]. subst key.
    apply FindMember_elem_of in Hk as [w Hw]. congruence. }
  assert (∀ key, HasMember key (objDef ++ [(k, v)]) = HasMember key objDef) as Hhas.
  { intros key. unfold HasMember. rewrite Hfind. reflexivity. }
  assert (∀ key, member key (objDef ++ [(k, v)]) = member key objDef) as Hmem.
  { intros key. unfold member. rewrite Hfind. reflexivity. }
  unfold assetBuilderDecoder. cbv zeta. rewrite !Hhas, !Hmem.
  apply bind_ext. intros [name proccessed].
  apply bind_ext. intros [parents proccessed1].
  apply bind_ext. intros [metadata proccessed2].
  apply bind_ext. intros [stages proccessed3].
  rewrite restOfStages_repeated by (right; exact Hk). reflexivity.
Qed.
Lemma restOfStages_skips pre k v1 v2 post tr proccessed stages :
  k ∈ proccessed →
  restOfStages tracerLogger getBuilder (pre ++ (k, v1) :: post) tr proccessed stages
  = restOfStages tracerLogger getBuilder (pre ++ (k, v2) :: post) tr proccessed stages.
Proof.
  revert proccessed stages.
  induction pre as [|[stageName stageDef] pre IH]; intros proccessed stages Hk.
  - simpl. rewrite !decide_False by (intros Hn; exact (Hn Hk)). reflexivity.
  - simpl. case_decide as Hnew.
    + apply bind_ext. intros stage. apply IH. set_solver.
    + apply IH, Hk.
Qed.

(** X20.  The content of [metadata] is checked to be an object and then
    dropped: two definitions that differ only in the members of a [metadata]
    object build the same connectable, or fail in the same way. *)
Theorem metadata_content_is_not_used pre post obj1 obj2 :
  assetBuilderDecoder filter isDecoded tracerLogger getBuilder
    (JObject (pre ++ ("metadata", JObject obj1) :: post))
  = assetBuilderDecoder filter isDecoded tracerLogger getBuilder
      (JObject (pre ++ ("metadata", JObject obj2) :: post)).
Proof.
  assert (∀ key, key ≠ "metadata" →
            FindMember key (pre ++ ("metadata", JObject obj1) :: post)
            = FindMember key (pre ++ ("metadata", JObject obj2) :: post)) as Hfind.
  { intros key Hkey. rewrite !FindMember_app. simpl.
    destruct (FindMember key pre); [reflexivity|].
    repeat case_decide; congruence. }
  assert (∀ key, key ≠ "metadata" →
            HasMember key (pre ++ ("metadata", JObject obj1) :: post)
            = HasMember key (pre ++ ("metadata", JObject obj2) :: post)) as Hhas.
  { intros key Hkey. unfold HasMember. rewrite (Hfind key Hkey). reflexivity. }
  assert (∀ key, key ≠ "metadata" →
            member key (pre ++ ("metadata", JObject obj1) :: post)
            = member key (pre ++ ("metadata", JObject obj2) :: post)) as Hmem.
  { intros key Hkey. unfold member. rewrite (Hfind key Hkey). reflexivity. }
  assert (∀ obj, HasMember "metadata" (pre ++ ("metadata", JObject obj) :: post) = true)
    as Hmd.
  { intros obj. apply HasMember_true. rewrite FindMember_app. simpl.
    destruct (FindMember "metadata" pre); eauto. }
  assert (∃ w1 w2,
            member "metadata" (pre ++ ("metadata", JObject obj1) :: post) = w1
            ∧ member "metadata" (pre ++ ("metadata", JObject obj2) :: post) = w2
            ∧ (w1 = w2 ∨ ∃ o1 o2, w1 = JObject o1 ∧ w2 = JObject o2))
    as (w1 & w2 & Hw1 & Hw2 & Hw).
  { unfold member. rewrite !FindMember_app. simpl.
    destruct (FindMember "metadata" pre); simpl; eauto 10. }
  unfold assetBuilderDecoder. cbv zeta.
  rewrite (Hhas "name"), (Hmem "name"), (Hhas "parents"), (Hmem "parents"),
    (Hhas "check"), (Hmem "check"), !Hmd, Hw1, Hw2 by discriminate.
  apply bind_ext. intros [name proccessed].
  apply bind_ext. intros [parents proccessed1].
  assert (∀ o1 o2 : list (string * Json),
            (try_nested RuntimeError
               "Decoder builder encountered exception building attribute metadata."
               (obj ← GetObject (JObject o1);
                Returns (collectMetadata obj ∅, {["metadata"]} ∪ proccessed1))
             ≫= λ '(_, proccessed2),
                  '(stages, proccessed3) ←
                    (if HasMember "check" (pre ++ ("metadata", JObject obj2) :: post)
                     then
                       try_nested RuntimeError
                         "Decoder builder encountered exception building stage check."
                         (stage ← buildStage tracerLogger getBuilder "check"
                                    (member "check"
                                       (pre ++ ("metadata", JObject obj2) :: post))
                                    (Tracer.mk name);
                          Returns ([notDecodedFilter filter isDecoded] ++ [stage],
                                   {["check"]} ∪ proccessed2))
                     else
                       Throws (MkExn InvalidArgument
                                 "Decoder builder expects value to have a check stage."));
                  stages ← restOfStages tracerLogger getBuilder
                             (pre ++ ("metadata", JObject obj1) :: post)
                             (Tracer.mk name) proccessed3 stages;
                  chainStages getBuilder name parents (Tracer.mk name) stages)
            = (try_nested RuntimeError
                 "Decoder builder encountered exception building attribute metadata."
                 (obj ← GetObject (JObject o2);
                  Returns (collectMetadata obj ∅, {["metadata"]} ∪ proccessed1))
               ≫= λ '(_, proccessed2),
                    '(stages, proccessed3) ←
                      (if HasMember "check" (pre ++ ("metadata", JObject obj2) :: post)
                       then
                         try_nested RuntimeError
                           "Decoder builder encountered exception building stage check."
                           (stage ← buildStage tracerLogger getBuilder "check"
                                      (member "check"
                                         (pre ++ ("metadata", JObject obj2) :: post))
                                      (Tracer.mk name);
                            Returns ([notDecodedFilter filter isDecoded] ++ [stage],
                                     {["check"]} ∪ proccessed2))
                       else
                         Throws (MkExn InvalidArgument
                                   "Decoder builder expects value to have a check stage."));
                    stages ← restOfStages tracerLogger getBuilder
                               (pre ++ ("metadata", JObject obj2) :: post)
                               (Tracer.mk name) proccessed3 stages;
                    chainStages getBuilder name parents (Tracer.mk name) stages))
    as Hobjects.
  { intros o1 o2.
    change (GetObject (JObject o1)) with (Returns o1 : Outcome _).
    change (GetObject (JObject o2)) with (Returns o2 : Outcome _).
    rewrite !bind_Returns, !try_nested_Returns, !bind_Returns.
    destruct (HasMember "check" _); [|reflexivity].
    destruct (buildStage _ _ _ _ _) as [stage| | |]; try reflexivity.
    rewrite !bind_Returns, !try_nested_Returns, !bind_Returns.
    rewrite (restOfStages_skips pre "metadata" (JObject obj1) (JObject obj2)).
    { reflexivity. }
    apply elem_of_union. right. apply elem_of_union. left.
    apply elem_of_singleton. reflexivity. }
  destruct Hw as [->|(o1 & o2 & -> & ->)]; [|apply Hobjects].
  destruct w2 as [| | |o| | |]; try reflexivity. apply Hobjects.
Qed.
End DecoderResults.

Lemma built_decoder_reflects_definition_witness :
  ∃ objDef name check opcheck ops chain,
    JObject decoderS7 = JObject objDef
    ∧ FindMember "name" objDef = Some (JString name)
    ∧ Connectable.name
        (Connectable.mk "d1" []
           (demoChain [notDecodedFilter demoFilter (λ b : bool, b);
                       demoStage "check"; demoStage "parse"; demoStage "normalize"])
           (Tracer.mk "d1")) = name
    ∧ Connectable.tracer
        (Connectable.mk "d1" []
           (demoChain [notDecodedFilter demoFilter (λ b : bool, b);
                       demoStage "check"; demoStage "parse"; demoStage "normalize"])
           (Tracer.mk "d1")) = Tracer.mk name
    ∧ parentsAre objDef
        (Connectable.parents
           (Connectable.mk "d1" []
              (demoChain [notDecodedFilter demoFilter (λ b : bool, b);
                          demoStage "check"; demoStage "parse"; demoStage "normalize"])
              (Tracer.mk "d1")))
    ∧ metadataIsObject objDef
    ∧ FindMember "check" objDef = Some check
    ∧ buildStage (λ _, tt) demoRegistry "check" check (Tracer.mk name) = Returns opcheck
    ∧ demoRegistry "combinator.chain" = Returns (IsCombinatorBuilder chain)
    ∧ chain (notDecodedFilter demoFilter (λ b : bool, b) :: opcheck :: ops)
      = Returns
          (Connectable.op
             (Connectable.mk "d1" []
                (demoChain [notDecodedFilter demoFilter (λ b : bool, b);
                            demoStage "check"; demoStage "parse"; demoStage "normalize"])
                (Tracer.mk "d1"))).
Proof.
  apply (built_decoder_reflects_definition demoFilter (λ b : bool, b) (λ _, tt)
           demoRegistry (JObject decoderS7)).
  reflexivity.
Defined.

Lemma repeated_member_is_ignored_witness :
  demoBuild (JObject (decoderS7 ++ [("parse", JString "again")]))
  = demoBuild (JObject decoderS7).
Proof.
  apply (repeated_member_is_ignored demoFilter (λ b : bool, b) (λ _, tt) demoRegistry
           decoderS7 "parse" (JString "again")).
  do 2 right. left.
Defined.

(** ** The message controller of rsync *)

Section ControllerFacts.
Context {RSYNC_HANDLE : Type} `{EqDecision RSYNC_HANDLE}.
Variable ticks_per_second : Z.

Lemma setShutdownStatus_lookup (handle : RSYNC_HANDLE) shutdownStatus this id :
  MessageController.m_componentShutdownStatus
    (MessageController.setShutdownStatus handle shutdownStatus this) !! id =
  if decide (MessageController.m_componentHandle this !! id = Some handle)
  then Some shutdownStatus
  else MessageController.m_componentShutdownStatus this !! id.
Proof.
  unfold MessageController.setShutdownStatus. simpl.
  assert (∀ m : gmap string RSYNC_HANDLE,
            let r := map_fold (λ first second status,
                                 if decide (second = handle)
                                 then <[first := shutdownStatus]> status
                                 else status)
                       (MessageController.m_componentShutdownStatus this) m in
            (m !! id = Some handle → r !! id = Some shutdownStatus)
            ∧ (m !! id ≠ Some handle →
               r !! id = MessageController.m_componentShutdownStatus this !! id))
    as Hfold.
  { intros m. cbv zeta.
    apply (map_fold_weak_ind
             (λ r (m : gmap string RSYNC_HANDLE),
                (m !! id = Some handle → r !! id = Some shutdownStatus)
                ∧ (m !! id ≠ Some handle →
                   r !! id = MessageController.m_componentShutdownStatus this !! id))).
    - split; [rewrite lookup_empty; discriminate|reflexivity].
    - intros i x m' r Hi [IH1 IH2]. destruct (decide (i = id)) as [->|Hne].
      + rewrite lookup_insert_eq.
        assert (m' !! id ≠ Some handle) as Hm by (rewrite Hi; discriminate).
        destruct (decide (x = handle)) as [->|Hx].
        * split; [intros _; apply lookup_insert_eq|congruence].
        * split; [congruence|intros _; apply IH2, Hm].
      + rewrite lookup_insert_ne by exact Hne.
        destruct (decide (x = handle)); [rewrite lookup_insert_ne by exact Hne|];
          split; assumption. }
  destruct (Hfold (MessageController.m_componentHandle this)) as [H1 H2].
  case_decide; [apply H1|apply H2]; assumption.
Qed.

(** X21.  [setShutdownStatus] reaches every component registered with the
    handle and no other: afterwards [getShutdownStatus] gives the new status
    for the components whose handle it is, and what it gave before for all
    other names. *)
Theorem shutdown_status_follows_the_handle (handle : RSYNC_HANDLE) shutdownStatus
    this id :
  MessageController.getShutdownStatus id
    (MessageController.setShutdownStatus handle shutdownStatus this) =
  if decide (MessageController.m_componentHandle this !! id = Some handle)
  then shutdownStatus
  else MessageController.getShutdownStatus id this.
Proof.
  unfold MessageController.getShutdownStatus.
  rewrite setShutdownStatus_lookup. case_decide; reflexivity.
Qed.

(** X22.  Setting the status of a handle twice is setting it to the second
    value. *)
Theorem last_shutdown_status_wins (handle : RSYNC_HANDLE) status1 status2 this :
  MessageController.setShutdownStatus handle status2
    (MessageController.setShutdownStatus handle status1 this)
  = MessageController.setShutdownStatus handle status2 this.
Proof.
  assert (∀ a b : @MessageController.t RSYNC_HANDLE,
            MessageController.m_componentContexts a = MessageController.m_componentContexts b →
            MessageController.m_componentHandle a = MessageController.m_componentHandle b →
            MessageController.m_componentShutdownStatus a
            = MessageController.m_componentShutdownStatus b →
            a = b) as Hext.
  { intros [] []. simpl. intros -> -> ->. reflexivity. }
  apply Hext; [reflexivity|reflexivity|].
  apply map_eq. intros id. rewrite !setShutdownStatus_lookup. simpl.
  case_decide; reflexivity.
Qed.

Lemma consistent_call (c : @MessageController.Call RSYNC_HANDLE) this :
  MessageController.consistent this →
  MessageController.consistent (MessageController.call c this).
Proof.
  intros (Hdom & Hsub & Hpos). destruct c as [handle id interval|handle status|now id].
  - simpl. unfold MessageController.setComponentContext.
    split; [|split]; simpl.
    + rewrite !dom_insert_L, Hdom. reflexivity.
    + case_decide.
      * rewrite !dom_insert_L. apply union_mono_l, Hsub.
      * rewrite dom_delete_L, dom_insert_L. intros x [Hx _]%elem_of_difference.
        apply elem_of_union. right. apply Hsub, Hx.
    + intros id' ctx. case_decide as Hint.
      * destruct (decide (id = id')) as [->|Hne].
        -- rewrite lookup_insert_eq. intros [= <-]. exact Hint.
        -- rewrite lookup_insert_ne by exact Hne. apply Hpos.
      * intros Hctx%lookup_delete_Some. apply (Hpos id'), Hctx.
  - split; [|split]; simpl; [|exact Hsub|exact Hpos].
    apply set_eq. intros id.
    pose proof (setShutdownStatus_lookup handle status this id) as Hlook.
    simpl in Hlook. rewrite <- Hdom, !elem_of_dom, Hlook.
    case_decide as Hh; [|reflexivity].
    split; [intros _|eauto].
    apply elem_of_dom. rewrite Hdom. apply elem_of_dom. eauto.
  - simpl. unfold MessageController.refreshLastMsgTime.
    destruct (MessageController.m_componentContexts this !! id) as [ctx|] eqn:Hctx;
      [|split; [exact Hdom|split; [exact Hsub|exact Hpos]]].
    split; [|split]; simpl; [exact Hdom| |].
    + rewrite dom_insert_L. apply elem_of_dom_2 in Hctx.
      intros x [->%elem_of_singleton|Hx]%elem_of_union; apply Hsub; assumption.
    + intros id' ctx'. destruct (decide (id = id')) as [->|Hne].
      * rewrite lookup_insert_eq. intros [= <-]. simpl. apply (Hpos id'), Hctx.
      * rewrite lookup_insert_ne by exact Hne. apply Hpos.
Qed.

(** X23.  The three maps stay consistent whatever calls are made on a new
    controller: the components with a shutdown status are those with a
    handle, a component with a context has a handle, and the interval of
    every context is positive. *)
Theorem controller_stays_consistent (calls : list (@MessageController.Call RSYNC_HANDLE)) :
  MessageController.consistent (MessageController.run calls).
Proof.
  unfold MessageController.run.
  induction calls as [|c calls IH] using rev_ind.
  - split; [|split]; simpl.
    + rewrite !dom_empty_L. reflexivity.
    + rewrite !dom_empty_L. reflexivity.
    + intros id ctx. rewrite lookup_empty. discriminate.
  - rewrite foldl_app. simpl. apply consistent_call, IH.
Qed.


(** X25.  Calls about one component leave the others alone: registering
    or refreshing [id] changes neither the answer of [waitToStartSync] nor
    the shutdown status of a component with another name. *)
Theorem other_components_are_untouched (handle : RSYNC_HANDLE) id id' interval t0 now
    this :
  id ≠ id' →
  let registered := MessageController.setComponentContext handle id interval this in
  let refreshed := MessageController.refreshLastMsgTime t0 id this in
  MessageController.waitToStartSync ticks_per_second now id' registered
  = MessageController.waitToStartSync ticks_per_second now id' this
  ∧ MessageController.getShutdownStatus id' registered
    = MessageController.getShutdownStatus id' this
  ∧ MessageController.waitToStartSync ticks_per_second now id' refreshed
    = MessageController.waitToStartSync ticks_per_second now id' this
  ∧ MessageController.getShutdownStatus id' refreshed
    = MessageController.getShutdownStatus id' this.
Proof.
  intros Hne. cbv zeta.
  unfold MessageController.waitToStartSync, MessageController.getShutdownStatus,
    MessageController.refreshLastMsgTime, MessageController.setComponentContext.
  simpl. repeat split.
  - case_decide; [rewrite lookup_insert_ne by exact Hne|rewrite lookup_delete_ne by exact Hne];
      reflexivity.
  - rewrite lookup_insert_ne by exact Hne. reflexivity.
  - destruct (MessageController.m_componentContexts this !! id); [|reflexivity].
    simpl. rewrite lookup_insert_ne by exact Hne. reflexivity.
  - destruct (MessageController.m_componentContexts this !! id); reflexivity.
Qed.
End ControllerFacts.

Lemma other_components_are_untouched_witness :
  MessageController.waitToStartSync 1000 5000 "syscollector"
    (MessageController.setComponentContext 7%nat "syscheck" 30 (@MessageController.create nat))
  = MessageController.waitToStartSync 1000 5000 "syscollector" (@MessageController.create nat)
  ∧ MessageController.getShutdownStatus "syscollector"
      (MessageController.setComponentContext 7%nat "syscheck" 30 (@MessageController.create nat))
    = MessageController.getShutdownStatus "syscollector" (@MessageController.create nat)
  ∧ MessageController.waitToStartSync 1000 5000 "syscollector"
      (MessageController.refreshLastMsgTime 4000 "syscheck" (@MessageController.create nat))
    = MessageController.waitToStartSync 1000 5000 "syscollector" (@MessageController.create nat)
  ∧ MessageController.getShutdownStatus "syscollector"
      (MessageController.refreshLastMsgTime 4000 "syscheck" (@MessageController.create nat))
    = MessageController.getShutdownStatus "syscollector" (@MessageController.create nat).
Proof.
  apply (other_components_are_untouched 1000 7%nat "syscheck" "syscollector" 30 4000 5000
           (@MessageController.create nat)).
  discriminate.
Defined.

(** ** From a pattern to its parser function *)

Section PlainPatterns.
Context {Value : Type}.
Variable kECSParserMapper : gmap string ParserType.
Variable kParsersConfig : ParserType → option (Parser → list string → Parser).
Variable kAvailableParsers : ParserType → option (@ParserFunc Value).

(** X26.  A pattern without captures compiles to a function that runs the
    Literal parser once, on the whole event, with the pattern as its name:
    the function succeeds exactly when that parser does, and its trace is
    the one line of that parser. *)
Theorem plain_pattern_runs_the_literal_parser lit parseFunc :
  lit ≠ "" → all_chars plain_char lit = true → front lit ≠ "?"%char →
  kAvailableParsers ParserType.Literal = Some parseFunc →
  ∃ parseFn,
    getParserOp kECSParserMapper kParsersConfig kAvailableParsers lit = Returns parseFn
    ∧ ∀ event result,
        parseFn event result =
        let '(isOk, _, result') :=
          parseFunc event
            (Parser.mk lit ParserType.Literal ExpressionType.Literal NUL []) result in
        (ExecuteResult.mk isOk (if isOk then success_msg lit else failure_msg lit),
         result').
Proof.
  intros Hne Hplain Hq Htab.
  pose proof (parseLogQlExpr_loop_tail (S (String.length lit)) lit Vec.empty Hplain Hq)
    as Hparse.
  fold (parseLogQlExpr lit) in Hparse.
  rewrite decide_False in Hparse by exact Hne.
  unfold getParserOp. rewrite decide_False by exact Hne.
  destruct (parseLogQlExpr lit) as [expressions| | |];
    [|destruct lit; [done|simpl in Hparse; specialize (Hparse ltac:(lia)); discriminate]..].
  assert (Vec.items expressions = [Expression.mk lit ExpressionType.Literal NUL])
    as Hitems.
  { destruct lit; [done|]. simpl in Hparse. specialize (Hparse ltac:(lia)).
    injection Hparse as ->. reflexivity. }
  rewrite bind_Returns, Hitems. unfold getParserList. rewrite Hitems. simpl.
  eexists. split; [reflexivity|].
  intros event result. unfold executeParserList. simpl.
  unfold executeParserList_step. simpl. rewrite Htab.
  destruct (parseFunc event _ result) as [[[] it'] result']; reflexivity.
Qed.
End PlainPatterns.

Lemma plain_pattern_runs_the_literal_parser_witness :
  ∃ parseFn,
    getParserOp demoSchema demoParsersConfig demoParsers "error: " = Returns parseFn
    ∧ ∀ event result,
        parseFn event result =
        let '(isOk, _, result') :=
          parseLiteral event
            (Parser.mk "error: " ParserType.Literal ExpressionType.Literal NUL [])
            result in
        (ExecuteResult.mk isOk
           (if isOk then success_msg "error: " else failure_msg "error: "),
         result').
Proof.
  apply (plain_pattern_runs_the_literal_parser demoSchema demoParsersConfig demoParsers
           "error: " parseLiteral);
    [discriminate | reflexivity | discriminate | reflexivity].
Defined.
